(** * ReemTeam Tonk backend: a shallow embedding of the game engine

    The development follows the layout of the repository:
    - [utils/cards.js]: the deck, the shuffle, dealing, scores, spreads;
    - [utils/gameRules.js]: drop rules, hit penalties, move validation;
    - [utils/ai.js]: the decisions of the computer players;
    - [controllers/gameController.js]: the handlers that apply an action to a
      game document, the end of a game, the AI cascade and the HTTP entry
      points.

    JavaScript numbers that the engine only adds, compares and multiplies by
    small integers (card values, scores, penalties, stakes, balances) are
    integers of [Z]; the weights of the AI are binary64 floats, as in
    JavaScript.  Arrays are lists in array order (index 0 first), updated with
    stdpp's lookup and insert.  Exceptions, [Math.random] and the three
    MongoDB collections are threaded through one state-and-error monad. *)

From Stdlib Require Import ZArith Ascii String Floats Uint63.
From stdpp Require Import base option list sorting gmap strings pretty.

Local Open Scope string_scope.
Local Open Scope Z_scope.
Local Open Scope list_scope.

(* The decimal weights of the AI are read as the nearest binary64 value, as
   JavaScript reads them. *)
#[local] Set Warnings "-inexact-float".

(** ** JavaScript helpers *)

(** [Array.prototype.sort(cmp)] is a stable sort.  [gtb a b] stands for
    [cmp(a, b) > 0], "a goes after b". *)
Fixpoint sort_insert {A} (gtb : A → A → bool) (x : A) (sorted : list A) : list A :=
  match sorted with
  | [] => [x]
  | y :: ys => if gtb x y then y :: sort_insert gtb x ys else x :: y :: ys
  end.

Definition js_sort {A} (gtb : A → A → bool) (array : list A) : list A :=
  foldr (sort_insert gtb) [] array.

(** [array.pop()]: the last element, and the array without it. *)
Definition array_pop {A} (array : list A) : option A * list A :=
  (last array, removelast array).

(** [array.findIndex(pred)], [None] standing for [-1]. *)
Fixpoint findIndex {A} (pred : A → bool) (array : list A) : option nat :=
  match array with
  | [] => None
  | x :: rest => if pred x then Some 0%nat else S <$> findIndex pred rest
  end.

(** [array.find(pred)]. *)
Fixpoint find {A} (pred : A → bool) (array : list A) : option A :=
  match array with
  | [] => None
  | x :: rest => if pred x then Some x else find pred rest
  end.

(** A string is truthy when it is not empty. *)
Definition truthy (s : string) : bool := negb (String.eqb s "").

(** Keys of a JavaScript object are enumerated with the array indices first,
    in ascending order, then the other strings in insertion order.  An array
    index is the canonical decimal form of an integer below [2^32 - 1]. *)
Definition digit_of (a : ascii) : option N :=
  let n := N_of_ascii a in
  if ((48 <=? n) && (n <=? 57))%N then Some (n - 48)%N else None.

Fixpoint parse_decimal (s : string) (acc : N) : option N :=
  match s with
  | EmptyString => Some acc
  | String a rest =>
      match digit_of a with
      | Some d => parse_decimal rest (10 * acc + d)%N
      | None => None
      end
  end.

Definition array_index (key : string) : option N :=
  match key with
  | EmptyString => None
  | String a rest =>
      if Ascii.eqb a "0"%char && negb (String.eqb rest "") then None
      else match parse_decimal key 0 with
           | Some n => if (n <? 4294967295)%N then Some n else None
           | None => None
           end
  end.

(** [if (!groups[key]) groups[key] = []; groups[key].push(v)] on an object
    kept as an association list in insertion order. *)
Fixpoint group_push {V} (key : string) (v : V) (groups : list (string * list V))
  : list (string * list V) :=
  match groups with
  | [] => [(key, [v])]
  | (k, vs) :: rest =>
      if String.eqb key k then (k, vs ++ [v]) :: rest
      else (k, vs) :: group_push key v rest
  end.

(** [Object.values(groups)]. *)
Definition object_values {V} (groups : list (string * list V)) : list (list V) :=
  let indexed :=
    omap (λ kv, match array_index kv.1 with
                | Some n => Some (n, kv.2)
                | None => None
                end) groups in
  let named :=
    omap (λ kv, match array_index kv.1 with
                | Some _ => None
                | None => Some kv.2
                end) groups in
  map snd (js_sort (λ a b, (b.1 <? a.1)%N) indexed) ++ named.

(** Integers as JavaScript numbers, for the float arithmetic of the AI. *)
Definition Z_to_float (z : Z) : float :=
  if z <? 0 then PrimFloat.opp (PrimFloat.of_uint63 (Uint63.of_Z (- z)))
  else PrimFloat.of_uint63 (Uint63.of_Z z).

(** ** Data model ([models/Game.js], [models/User.js], [models/Table.js]) *)

Record Card := mkCard {
  c_id : string;
  c_suit : string;
  c_rank : string;
  c_value : Z;
  c_isHidden : bool
}.

Record Player := mkPlayer {
  p_id : string;
  p_username : string;
  p_isAI : bool;
  p_hand : list Card;
  p_isDropped : bool;
  p_canDrop : bool;
  p_score : Z;
  p_penalties : Z;
  p_hitCount : Z;
  p_hasDrawn : bool
}.

Inductive SpreadType := SetSpread | RunSpread.

Record Spread := mkSpread {
  s_type : SpreadType;
  s_cards : list Card;
  s_indices : list nat
}.

Record Penalty := mkPenalty {
  pen_playerId : string;
  pen_penaltyTurns : Z;
  pen_hitSpread : Spread
}.

Inductive LastAction :=
  | PenaltiesAction (player : string) (penalties : list Penalty)
  | DiscardAction (player : string) (card : Card)
  | DropAction (player : string) (score : Z) (multiplier : Z).

Inductive Status := Waiting | Playing | Ended.

Record Game := mkGame {
  g_id : string;
  g_players : list Player;
  g_currentPlayerIndex : nat;
  g_deck : list Card;
  g_discardPile : list Card;
  g_status : Status;
  g_stake : Z;
  g_pot : Z;
  g_winner : option string;
  g_winningMultiplier : Z;
  g_gameStarted : bool;
  g_lastAction : option LastAction
}.

Record User := mkUser {
  u_username : string;
  u_balance : Z;
  u_totalWinnings : Z;
  u_totalWagered : Z;
  u_gamesPlayed : Z;
  u_gamesWon : Z
}.

Record Table := mkTable {
  t_tableId : string;
  t_amount : Z;
  t_currentPlayers : Z;
  t_activeGames : list string
}.

#[global] Instance Card_eq_dec : EqDecision Card.
Proof. solve_decision. Defined.
#[global] Instance Player_eq_dec : EqDecision Player.
Proof. solve_decision. Defined.
#[global] Instance Status_eq_dec : EqDecision Status.
Proof. solve_decision. Defined.

(** Record updates, one per field the engine assigns. *)
Definition set_hand (hand : list Card) (p : Player) : Player :=
  mkPlayer (p_id p) (p_username p) (p_isAI p) hand (p_isDropped p) (p_canDrop p)
           (p_score p) (p_penalties p) (p_hitCount p) (p_hasDrawn p).
Definition set_isDropped (b : bool) (p : Player) : Player :=
  mkPlayer (p_id p) (p_username p) (p_isAI p) (p_hand p) b (p_canDrop p)
           (p_score p) (p_penalties p) (p_hitCount p) (p_hasDrawn p).
Definition set_canDrop (b : bool) (p : Player) : Player :=
  mkPlayer (p_id p) (p_username p) (p_isAI p) (p_hand p) (p_isDropped p) b
           (p_score p) (p_penalties p) (p_hitCount p) (p_hasDrawn p).
Definition set_score (score : Z) (p : Player) : Player :=
  mkPlayer (p_id p) (p_username p) (p_isAI p) (p_hand p) (p_isDropped p) (p_canDrop p)
           score (p_penalties p) (p_hitCount p) (p_hasDrawn p).
Definition set_penalties (n : Z) (p : Player) : Player :=
  mkPlayer (p_id p) (p_username p) (p_isAI p) (p_hand p) (p_isDropped p) (p_canDrop p)
           (p_score p) n (p_hitCount p) (p_hasDrawn p).
Definition set_hitCount (n : Z) (p : Player) : Player :=
  mkPlayer (p_id p) (p_username p) (p_isAI p) (p_hand p) (p_isDropped p) (p_canDrop p)
           (p_score p) (p_penalties p) n (p_hasDrawn p).
Definition set_hasDrawn (b : bool) (p : Player) : Player :=
  mkPlayer (p_id p) (p_username p) (p_isAI p) (p_hand p) (p_isDropped p) (p_canDrop p)
           (p_score p) (p_penalties p) (p_hitCount p) b.

Definition set_players (ps : list Player) (g : Game) : Game :=
  mkGame (g_id g) ps (g_currentPlayerIndex g) (g_deck g) (g_discardPile g) (g_status g)
         (g_stake g) (g_pot g) (g_winner g) (g_winningMultiplier g) (g_gameStarted g)
         (g_lastAction g).
Definition set_currentPlayerIndex (i : nat) (g : Game) : Game :=
  mkGame (g_id g) (g_players g) i (g_deck g) (g_discardPile g) (g_status g)
         (g_stake g) (g_pot g) (g_winner g) (g_winningMultiplier g) (g_gameStarted g)
         (g_lastAction g).
Definition set_deck (deck : list Card) (g : Game) : Game :=
  mkGame (g_id g) (g_players g) (g_currentPlayerIndex g) deck (g_discardPile g) (g_status g)
         (g_stake g) (g_pot g) (g_winner g) (g_winningMultiplier g) (g_gameStarted g)
         (g_lastAction g).
Definition set_discardPile (pile : list Card) (g : Game) : Game :=
  mkGame (g_id g) (g_players g) (g_currentPlayerIndex g) (g_deck g) pile (g_status g)
         (g_stake g) (g_pot g) (g_winner g) (g_winningMultiplier g) (g_gameStarted g)
         (g_lastAction g).
Definition set_lastAction (a : LastAction) (g : Game) : Game :=
  mkGame (g_id g) (g_players g) (g_currentPlayerIndex g) (g_deck g) (g_discardPile g)
         (g_status g) (g_stake g) (g_pot g) (g_winner g) (g_winningMultiplier g)
         (g_gameStarted g) (Some a).
Definition set_ended (winnerId : string) (multiplier : Z) (g : Game) : Game :=
  mkGame (g_id g) (g_players g) (g_currentPlayerIndex g) (g_deck g) (g_discardPile g)
         Ended (g_stake g) (g_pot g) (Some winnerId) multiplier (g_gameStarted g)
         (g_lastAction g).

(** ** The environment of the engine

    The handlers run against three MongoDB collections (games, users, tables),
    read [Math.random] and may throw.  [w_random] lists the draws that
    [Math.random] is going to return, next draw first; a new game document
    takes its [_id] from the counter [w_nextId]. *)

Record World := mkWorld {
  w_games : gmap string Game;
  w_users : gmap string User;
  w_tables : list Table;
  w_random : nat → nat;
  w_nextId : nat
}.

Inductive Result (A : Type) :=
  | Ok (a : A)
  | Throw (message : string).
Arguments Ok {A} a.
Arguments Throw {A} message.

Definition M (A : Type) : Type := World → Result A * World.

#[global] Instance M_ret : MRet M := λ A a w, (Ok a, w).
#[global] Instance M_bind : MBind M := λ A B f m w,
  match m w with
  | (Ok a, w') => f a w'
  | (Throw e, w') => (Throw e, w')
  end.

Definition throw {A} (message : string) : M A := λ w, (Throw message, w).

(** [Math.floor(Math.random() * n)]: some index below [n]. *)
Definition random_below (n : nat) : M nat := λ w,
  (Ok (w_random w 0 `mod` n)%nat,
   mkWorld (w_games w) (w_users w) (w_tables w) (λ k, w_random w (S k)) (w_nextId w)).

Definition set_games (games : gmap string Game) (w : World) : World :=
  mkWorld games (w_users w) (w_tables w) (w_random w) (w_nextId w).
Definition set_users (users : gmap string User) (w : World) : World :=
  mkWorld (w_games w) users (w_tables w) (w_random w) (w_nextId w).
Definition set_tables (tables : list Table) (w : World) : World :=
  mkWorld (w_games w) (w_users w) tables (w_random w) (w_nextId w).

(** ** [utils/cards.js] *)

Definition suits : list string := ["hearts"; "diamonds"; "clubs"; "spades"].
Definition ranks : list string := ["A"; "2"; "3"; "4"; "5"; "6"; "7"; "J"; "Q"; "K"].
Definition values : list (string * Z) :=
  [("A", 1); ("2", 2); ("3", 3); ("4", 4); ("5", 5); ("6", 6); ("7", 7);
   ("J", 10); ("Q", 10); ("K", 10)].

Definition values_at (rank : string) : Z :=
  match find (λ kv, String.eqb kv.1 rank) values with
  | Some kv => kv.2
  | None => 0
  end.

(** The deck [createDeck] builds before it shuffles: ids [card-0] to [card-39],
    suit by suit. *)
Definition orderedDeck : list Card :=
  (foldl (λ st suit,
            foldl (λ '(deck, id) rank,
                     (deck ++ [mkCard ("card-" +:+ pretty id) suit rank (values_at rank) false],
                      S id))
                  st ranks)
         ([], 0%nat) suits).1.

(** [shuffled[i]] and [shuffled[j]] exchanged; both are always inside the
    array in [shuffle]. *)
Definition swap {A} (i j : nat) (shuffled : list A) : list A :=
  match shuffled !! i, shuffled !! j with
  | Some temporaryValue, Some other => <[j := temporaryValue]> (<[i := other]> shuffled)
  | _, _ => shuffled
  end.

(** The loop of the Fisher-Yates shuffle, by recursion on [currentIndex]. *)
Fixpoint shuffle_loop {A} (currentIndex : nat) (shuffled : list A) : M (list A) :=
  match currentIndex with
  | O => mret shuffled
  | S currentIndex' =>
      randomIndex ← random_below currentIndex;
      shuffle_loop currentIndex' (swap currentIndex' randomIndex shuffled)
  end.

Definition shuffle {A} (array : list A) : M (list A) :=
  shuffle_loop (length array) array.

Definition createDeck : M (list Card) := shuffle orderedDeck.

(** [if (deckCopy.length > 0) hands[j].push(deckCopy.pop())]. *)
Definition deal_card (st : list (list Card) * list Card) (j : nat)
  : list (list Card) * list Card :=
  let '(hands, deckCopy) := st in
  match array_pop deckCopy with
  | (Some card, rest) => (alter (λ h, h ++ [card]) j hands, rest)
  | (None, _) => (hands, deckCopy)
  end.

(** Five rounds, one card for each player in each round, from the end of the
    deck. *)
Definition dealCards (deck : list Card) (playerCount : nat)
  : list (list Card) * list Card :=
  foldl (λ st _, foldl deal_card st (seq 0 playerCount))
        (replicate playerCount [], deck) (seq 0 5).

(** The cards handed to [isValidSpread] are always defined in the engine, so
    the filter only looks at the rank and the suit. *)
Definition isValidSpread (cards : list Card) : bool :=
  if (length cards <? 3)%nat then false else
  let validCards := filter (λ card, truthy (c_rank card) && truthy (c_suit card)) cards in
  if (length validCards <? 3)%nat then false else
  match validCards with
  | [] => false
  | first :: _ =>
      let isSet := forallb (λ card, String.eqb (c_rank card) (c_rank first)) validCards in
      if isSet then true else
      let sameSuit := forallb (λ card, String.eqb (c_suit card) (c_suit first)) validCards in
      if negb sameSuit then false else
      let ordered := js_sort (λ a b, 0 <? c_value a - c_value b) validCards in
      let values := map c_value ordered in
      let uniqueValues := remove_dups values in
      if negb (length uniqueValues =? length values)%nat then false else
      forallb (λ '(prev, next), c_value next =? c_value prev + 1)
              (zip ordered (drop 1 ordered))
  end.

Definition calculateHandScore (hand : list Card) : Z :=
  foldl (λ sum card, sum + c_value card) 0 hand.

(** The sum of [calculateHandScore] as the source adds it, on binary64
    numbers; on the hands of the game it is the sum above (see
    [calculateHandScore_order]). *)
Definition calculateHandScore_binary64 (hand : list Card) : float :=
  foldl (λ sum card, (sum + Z_to_float (c_value card))%float) 0%float hand.

Definition needsReshuffle (deck discardPile : list Card) (threshold : nat) : bool :=
  (length deck <=? threshold)%nat && (1 <? length discardPile)%nat.

Definition reshuffleDeck (deck discardPile : list Card) : M (list Card * list Card) :=
  match discardPile with
  | [] | [_] => mret (deck, discardPile)
  | topDiscard :: cardsToShuffle =>
      newDeck ← shuffle (deck ++ cardsToShuffle);
      mret (newDeck, [topDiscard])
  end.

(** [cards.find(card => card.id === cardId)]. *)
Definition findCardById (cards : list Card) (cardId : string) : option Card :=
  find (λ card, String.eqb (c_id card) cardId) cards.

(** [removeCardById] splices the array: the card it returns ([null] is [None])
    and the array it leaves. *)
Definition removeCardById (cards : list Card) (cardId : string) : option Card * list Card :=
  match findIndex (λ card, String.eqb (c_id card) cardId) cards with
  | Some index =>
      match cards !! index with
      | Some card => (Some card, delete index cards)
      | None => (None, cards)
      end
  | None => (None, cards)
  end.

Definition sortCardsByValue (cards : list Card) (ascending : bool) : list Card :=
  js_sort (λ a b, if ascending then 0 <? c_value a - c_value b
                  else 0 <? c_value b - c_value a)
          cards.

(** The objects [groupCardsByRank] and [groupCardsBySuit] build, as the list
    of their properties in insertion order. *)
Definition groupCardsByRank (cards : list Card) : list (string * list Card) :=
  foldl (λ groups card, group_push (c_rank card) card groups) [] cards.

Definition groupCardsBySuit (cards : list Card) : list (string * list Card) :=
  foldl (λ groups card, group_push (c_suit card) card groups) [] cards.

(** [groups[key]], the empty list standing for [undefined]. *)
Fixpoint group_get {V} (key : string) (groups : list (string * list V)) : list V :=
  match groups with
  | [] => []
  | (k, vs) :: rest => if String.eqb key k then vs else group_get key rest
  end.

(** ** [utils/gameRules.js] *)

Definition canPlayerDrop (player : Player) (isFirstTurn : bool) : bool :=
  if 0 <? p_penalties player then false else
  let score := calculateHandScore (p_hand player) in
  if score <=? 11 then true else
  if isFirstTurn && (score <=? 41) then true else
  score <=? 50.

Definition calculateWinningMultiplier (score : Z) (isFirstTurn : bool) : Z :=
  if score <=? 11 then 3 else
  if isFirstTurn && (score =? 41) then 3 else
  if score =? 50 then 2 else
  1.

(** A card of the hand with its index, as the groups of [findExistingSpreads]
    keep them. *)
Definition Entry : Type := Card * nat.

Definition entries (hand : list Card) : list Entry := imap (λ index card, (card, index)) hand.

Definition spread_of (type : SpreadType) (group : list Entry) : Spread :=
  mkSpread type (map fst group) (map snd group).

(** The scan of one sorted suit group for runs; [currentRun] is never empty. *)
Fixpoint runs_loop (group currentRun : list Entry) (spreads : list Spread) : list Spread :=
  match group with
  | [] =>
      if (3 <=? length currentRun)%nat then spreads ++ [spread_of RunSpread currentRun]
      else spreads
  | g :: rest =>
      match last currentRun with
      | Some l =>
          if c_value g.1 =? c_value l.1 + 1 then runs_loop rest (currentRun ++ [g]) spreads
          else runs_loop rest [g]
                 (if (3 <=? length currentRun)%nat
                  then spreads ++ [spread_of RunSpread currentRun] else spreads)
      | None => runs_loop rest [g] spreads
      end
  end.

Definition findExistingSpreads (hand : list Card) : list Spread :=
  let rankGroups := foldl (λ groups e, group_push (c_rank e.1) e groups) [] (entries hand) in
  let '(spreads, used) :=
    foldl (λ '(spreads, used) group,
             if (3 <=? length group)%nat
             then (spreads ++ [spread_of SetSpread group],
                   foldl (λ (used : gset nat) (g : Entry), {[ g.2 ]} ∪ used) used group)
             else (spreads, used))
          ([], (∅ : gset nat)) (object_values rankGroups) in
  let suitGroups :=
    foldl (λ groups e,
             if bool_decide (e.2 ∈ used) then groups
             else group_push (c_suit e.1) e groups)
          [] (entries hand) in
  foldl (λ spreads group,
           if (3 <=? length group)%nat then
             match js_sort (λ a b : Entry, 0 <? c_value a.1 - c_value b.1) group with
             | first :: rest => runs_loop rest [first] spreads
             | [] => spreads
             end
           else spreads)
        spreads (object_values suitGroups).

Definition cardHitsSpread (card : Card) (spread : Spread) : bool :=
  match s_type spread, s_cards spread with
  | _, [] => false
  | SetSpread, first :: _ => String.eqb (c_rank card) (c_rank first)
  | RunSpread, first :: _ =>
      let sameSuit := String.eqb (c_suit card) (c_suit first) in
      if negb sameSuit then false else
      let values := js_sort (λ a b, 0 <? a - b) (map c_value (s_cards spread)) in
      match head values, last values with
      | Some minValue, Some maxValue =>
          (c_value card =? minValue - 1) || (c_value card =? maxValue + 1)
      | _, _ => false
      end
  end.

(** [{ hit: true, playerId, spread }] is [Some (playerId, spread)],
    [{ hit: false }] is [None]. *)
Fixpoint wouldHitSpread (card : Card) (targetPlayer : Player) (allPlayers : list Player)
  : option (string * Spread) :=
  match allPlayers with
  | [] => None
  | player :: rest =>
      if String.eqb (p_id player) (p_id targetPlayer) then wouldHitSpread card targetPlayer rest
      else match find (cardHitsSpread card) (findExistingSpreads (p_hand player)) with
           | Some spread => Some (p_id player, spread)
           | None => wouldHitSpread card targetPlayer rest
           end
  end.

(** One pass of the [forEach] of [applyHitPenalties] over the player at
    [index]; the players are updated in place, as in the source. *)
Definition applyHitPenalty (card : Card) (playerId : string)
    (st : list Player * list Penalty) (index : nat) : list Player * list Penalty :=
  let '(players, penalties) := st in
  match players !! index with
  | None => st
  | Some player =>
      if String.eqb (p_id player) playerId then st else
      match wouldHitSpread card player players with
      | None => st
      | Some (_, spread) =>
          let basePenalty := 2 in
          let additionalPenalty := p_hitCount player in
          let player' :=
            set_hitCount (p_hitCount player + 1)
              (set_penalties (basePenalty + additionalPenalty) player) in
          (<[index := player']> players,
           penalties ++ [mkPenalty (p_id player') (p_penalties player') spread])
      end
  end.

Definition applyHitPenalties (game : Game) (card : Card) (playerId : string)
  : Game * list Penalty :=
  let '(players, penalties) :=
    foldl (applyHitPenalty card playerId) (g_players game, [])
          (seq 0 (length (g_players game))) in
  (set_players players game, penalties).

Record PlayableSpread := mkPlayableSpread {
  ps_cards : list Card;
  ps_type : SpreadType;
  ps_score : Z
}.

(** Called with [size] at least 3 only; the case [0] is never reached. *)
Fixpoint getCombinations {A} (arr : list A) (size : nat) : list (list A) :=
  match size with
  | O => []
  | S size' =>
      match size' with
      | O => map (λ item, [item]) arr
      | S _ =>
          if (length arr <? size)%nat then [] else
          concat (map (λ i, match arr !! i with
                            | Some x => map (cons x) (getCombinations (drop (S i) arr) size')
                            | None => []
                            end)
                      (seq 0 (length arr - size + 1)))
      end
  end.

Definition findPlayableSpreads (hand : list Card) : list PlayableSpread :=
  concat (map (λ size,
                 omap (λ combo,
                         if isValidSpread combo then
                           Some (mkPlayableSpread combo
                                   (match combo with
                                    | first :: _ =>
                                        if forallb (λ c, String.eqb (c_rank c) (c_rank first)) combo
                                        then SetSpread else RunSpread
                                    | [] => SetSpread
                                    end)
                                   (foldl (λ sum card, sum + c_value card) 0 combo))
                         else None)
                      (getCombinations hand size))
              (seq 3 (length hand - 2))).

(** The body of an action request: [{ cardId, cardIds, source }], each field
    possibly undefined. *)
Record MoveData := mkMoveData {
  d_cardId : option string;
  d_cardIds : option (list string);
  d_source : option string
}.

(** [{ valid: true }] or [{ valid: false, error }]. *)
Inductive Validation :=
  | Valid
  | Invalid (error : string).

Definition valid (v : Validation) : bool :=
  match v with Valid => true | Invalid _ => false end.

Definition error (v : Validation) : option string :=
  match v with Valid => None | Invalid e => Some e end.

Definition validateDraw (game : Game) (player : Player) (data : MoveData) : Validation :=
  if bool_decide (d_source data = Some "discard") && (length (g_discardPile game) =? 0)%nat
  then Invalid "Discard pile is empty"
  else if bool_decide (d_source data = Some "deck") && (length (g_deck game) =? 0)%nat
          && (length (g_discardPile game) <=? 1)%nat
  then Invalid "No cards available to draw"
  else Valid.

Definition validateDiscard (game : Game) (player : Player) (data : MoveData) : Validation :=
  match d_cardId data with
  | None => Invalid "Card ID required"
  | Some cardId =>
      if negb (truthy cardId) then Invalid "Card ID required" else
      let cardExists := existsb (λ card, String.eqb (c_id card) cardId) (p_hand player) in
      if negb cardExists then Invalid "Card not in hand" else Valid
  end.

(** "No player other than this one has dropped". *)
Definition isFirstTurn_for (game : Game) (player : Player) : bool :=
  forallb (λ p, negb (p_isDropped p) || String.eqb (p_id p) (p_id player)) (g_players game).

Definition validateDrop (game : Game) (player : Player) (data : MoveData) : Validation :=
  if 0 <? p_penalties player then
    Invalid ("Cannot drop for " +:+ pretty (p_penalties player)
             +:+ " more turns due to penalties")
  else
    let score := calculateHandScore (p_hand player) in
    let isFirstTurn := isFirstTurn_for game player in
    if negb (canPlayerDrop player isFirstTurn)
    then Invalid ("Cannot drop with score " +:+ pretty score)
    else Valid.

Definition validateSpread (game : Game) (player : Player) (data : MoveData) : Validation :=
  match d_cardIds data with
  | None => Invalid "At least 3 cards required for spread"
  | Some cardIds =>
      if (length cardIds <? 3)%nat then Invalid "At least 3 cards required for spread" else
      let cards := map (λ id, find (λ card, String.eqb (c_id card) id) (p_hand player)) cardIds in
      if existsb (λ card, bool_decide (card = None)) cards
      then Invalid "One or more cards not in hand"
      else if negb (isValidSpread (omap (λ card, card) cards))
      then Invalid "Invalid spread combination"
      else Valid
  end.

Definition isValidMove (game : Game) (playerId action : string) (data : MoveData)
  : Validation :=
  match findIndex (λ p, String.eqb (p_id p) playerId) (g_players game),
        find (λ p, String.eqb (p_id p) playerId) (g_players game) with
  | Some index, Some player =>
      if p_isDropped player then Invalid "Player already dropped" else
      if negb (g_currentPlayerIndex game =? index)%nat then Invalid "Not your turn" else
      if String.eqb action "draw" then validateDraw game player data
      else if String.eqb action "discard" then validateDiscard game player data
      else if String.eqb action "drop" then validateDrop game player data
      else if String.eqb action "spread" then validateSpread game player data
      else Invalid "Invalid action"
  | _, _ => Invalid "Player not found"
  end.

(** ** [utils/ai.js] *)

Inductive Difficulty := EASY | MEDIUM | HARD.

Inductive DrawSource := DrawDeck | DrawDiscard.

Local Open Scope float_scope.

(** [hand[i], hand[j], card] for every [i < j]. *)
Definition wouldCompleteSpread (hand : list Card) (card : Card) : bool :=
  existsb (λ i,
             match hand !! i with
             | Some ci =>
                 existsb (λ cj, isValidSpread [ci; cj; card]) (drop (S i) hand)
             | None => false
             end)
          (seq 0 (length hand - 1)).

Definition wouldImproveSpread (hand : list Card) (card : Card) : bool :=
  let currentSpreads := findPlayableSpreads hand in
  let newHand := (hand ++ [card])%list in
  let newSpreads := findPlayableSpreads newHand in
  (length currentSpreads <? length newSpreads)%nat
  || existsb (λ spread, (3 <? length (ps_cards spread))%nat) newSpreads.

Definition wouldHelpOpponents (card : Card) (game : Game) : bool := false.

Definition analyzeDiscardValue (hand : list Card) (card : Card) (game : Game)
    (difficulty : Difficulty) : float :=
  let value := 0 in
  let value := if wouldCompleteSpread hand card then value + 0.8 else value in
  let value := if wouldImproveSpread hand card then value + 0.4 else value in
  let value :=
    if (c_value card <=? 3)%Z then value + 0.3
    else if (10 <=? c_value card)%Z then value - 0.2 else value in
  let value :=
    match difficulty with
    | HARD => if wouldHelpOpponents card game then value - 0.3 else value
    | _ => value
    end in
  (* Math.max(0, Math.min(1, value)) *)
  let capped := if PrimFloat.ltb value 1 then value else 1 in
  if PrimFloat.ltb capped 0 then 0 else capped.

Definition decideDrawSource (game : Game) (aiPlayer : Player) (difficulty : Difficulty)
  : DrawSource :=
  match g_discardPile game with
  | [] => DrawDeck
  | topDiscard :: _ =>
      let drawValue := analyzeDiscardValue (p_hand aiPlayer) topDiscard game difficulty in
      let threshold :=
        match difficulty with EASY => 0.3 | MEDIUM => 0.5 | HARD => 0.7 end in
      if PrimFloat.ltb threshold drawValue then DrawDiscard else DrawDeck
  end.

Definition isPartOfPotentialSpread (card : Card) (hand : list Card) : bool :=
  let otherCards := filter (λ c, negb (String.eqb (c_id c) (c_id card))) hand in
  let sameRank := filter (λ c, String.eqb (c_rank c) (c_rank card)) otherCards in
  if (1 <=? length sameRank)%nat then true else
  let sameSuit := filter (λ c, String.eqb (c_suit c) (c_suit card)) otherCards in
  existsb (λ suitCard, (Z.abs (c_value suitCard - c_value card) <=? 2)%Z) sameSuit.

Definition couldCompleteSpread (card : Card) (hand : list Card) : bool :=
  let withoutCard := filter (λ c, negb (String.eqb (c_id c) (c_id card))) hand in
  let currentSpreads := findPlayableSpreads hand in
  let newSpreads := findPlayableSpreads withoutCard in
  (length newSpreads <? length currentSpreads)%nat.

Definition mightHelpOpponents (card : Card) (game : Game) : bool :=
  (c_value card <=? 5)%Z.

Record Candidate := mkCandidate {
  cand_card : Card;
  cand_priority : float
}.

Definition analyzeDiscardCandidates (hand : list Card) (game : Game)
    (difficulty : Difficulty) : list Candidate :=
  map (λ card,
         let priority := 0 in
         let priority := priority + Z_to_float (c_value card) * 0.1 in
         let priority :=
           if isPartOfPotentialSpread card hand then priority - 0.5 else priority in
         let priority :=
           if couldCompleteSpread card hand then priority - 0.7 else priority in
         let priority :=
           match difficulty with
           | HARD => if mightHelpOpponents card game then priority - 0.3 else priority
           | _ => priority
           end in
         mkCandidate card priority)
      hand.

(** [null] is [None].  The comparator of the sort is
    [b.priority - a.priority]. *)
Definition decideCardToDiscard (hand : list Card) (game : Game) (difficulty : Difficulty)
  : option string :=
  match hand with
  | [] => None
  | [only] => Some (c_id only)
  | first :: _ =>
      let candidates := analyzeDiscardCandidates hand game difficulty in
      let candidates :=
        js_sort (λ a b, PrimFloat.ltb 0 (cand_priority b - cand_priority a)) candidates in
      match candidates with
      | best :: _ =>
          if truthy (c_id (cand_card best)) then Some (c_id (cand_card best))
          else Some (c_id first)
      | [] => Some (c_id first)
      end
  end.

Definition getRiskTolerance (difficulty : Difficulty) : float :=
  match difficulty with
  | EASY => 0.7
  | HARD => 0.3
  | MEDIUM => 0.5
  end.

Definition assessGameRisk (game : Game) (aiPlayer : Player) : float :=
  let risk := 0 in
  let activePlayers := filter (λ p, negb (p_isDropped p)) (g_players game) in
  let risk := risk + Z_to_float (Z.of_nat (length activePlayers) - 1) * 0.1 in
  let otherPlayers :=
    filter (λ p, negb (String.eqb (p_id p) (p_id aiPlayer)) && negb (p_isDropped p))
           (g_players game) in
  let risk :=
    foldl (λ risk player,
             let risk := if (length (p_hand player) <=? 3)%nat then risk + 0.2 else risk in
             if (length (p_hand player) <=? 2)%nat then risk + 0.3 else risk)
          risk otherPlayers in
  let totalCardsPlayed :=
    foldl (λ sum p, (sum + (5 - Z.of_nat (length (p_hand p))))%Z) 0%Z (g_players game) in
  let risk := risk + Z_to_float totalCardsPlayed * 0.02 in
  (* Math.min(1, risk) *)
  if PrimFloat.ltb risk 1 then risk else 1.

Definition makeDropDecision (score : Z) (isFirstTurn : bool) (game : Game)
    (aiPlayer : Player) (difficulty : Difficulty) : bool :=
  if (score <=? 11)%Z then true else
  if isFirstTurn && (score =? 41)%Z then true else
  if (score =? 50)%Z then true else
  let riskTolerance := getRiskTolerance difficulty in
  let gameRisk := assessGameRisk game aiPlayer in
  if (score <=? 20)%Z then true else
  if (score <=? 30)%Z && PrimFloat.ltb gameRisk riskTolerance then true else
  if (score <=? 40)%Z && PrimFloat.ltb gameRisk (riskTolerance * 0.5) then true else
  if PrimFloat.ltb (riskTolerance * 1.5) gameRisk then true else
  false.

Definition shouldDrop (aiPlayer : Player) (game : Game) (difficulty : Difficulty) : bool :=
  if (0 <? p_penalties aiPlayer)%Z then false else
  let score := calculateHandScore (p_hand aiPlayer) in
  let isFirstTurn := isFirstTurn_for game aiPlayer in
  if negb (canPlayerDrop aiPlayer isFirstTurn) then false else
  makeDropDecision score isFirstTurn game aiPlayer difficulty.

Local Close Scope float_scope.

Record Personality := mkPersonality {
  pers_difficulty : Difficulty;
  pers_name : string
}.

Definition getAIPersonality (aiId : string) : Personality :=
  if String.eqb aiId "ai-1" then mkPersonality EASY "Rookie"
  else if String.eqb aiId "ai-2" then mkPersonality MEDIUM "Challenger"
  else if String.eqb aiId "ai-3" then mkPersonality HARD "Expert"
  else mkPersonality MEDIUM "Player".

(** [getAIThinkingTime] reads one draw of [Math.random]; the delay it computes
    only postpones the next statement. *)
Definition getAIThinkingTime : M unit :=
  _ ← random_below 1; mret ().

(** ** [controllers/gameController.js] *)

(** [game.players[i]] is an object shared with every reader of the array: an
    assignment to one of its fields is an update of the array at [i]. *)
Definition update_player (i : nat) (f : Player → Player) (game : Game) : Game :=
  set_players (alter f i (g_players game)) game.

(** The message of the [TypeError] raised by a field access on [undefined]. *)
Definition undefined_player : string := "Cannot read properties of undefined".

(** [player.score = ...; player.canDrop = canPlayerDrop(player, false);
    player.hasDrawn = b], the common end of a draw and of a discard. *)
Definition refresh_player (hasDrawn : bool) (player : Player) : Player :=
  let player := set_score (calculateHandScore (p_hand player)) player in
  let player := set_canDrop (canPlayerDrop player false) player in
  set_hasDrawn hasDrawn player.

(** [player.hand.push(card)]. *)
Definition push_card (card : Card) (player : Player) : Player :=
  set_hand (p_hand player ++ [card]) player.

Definition handleDraw (game : Game) (playerIndex : nat) (fromDiscard : bool) : M Game :=
  match g_players game !! playerIndex with
  | None => throw undefined_player
  | Some player =>
      if fromDiscard then
        match g_discardPile game with
        | [] => throw "Discard pile is empty"
        | drawnCard :: pile =>
            let game := set_discardPile pile game in
            let game := update_player playerIndex (push_card drawnCard) game in
            mret (update_player playerIndex (refresh_player true) game)
        end
      else
        game ← (if needsReshuffle (g_deck game) (g_discardPile game) 5 then
                  reshuffled ← reshuffleDeck (g_deck game) (g_discardPile game);
                  mret (set_discardPile reshuffled.2 (set_deck reshuffled.1 game))
                else mret game);
        match array_pop (g_deck game) with
        | (None, _) => throw "No cards available to draw"
        | (Some drawnCard, deck) =>
            let game := set_deck deck game in
            let game := update_player playerIndex (push_card drawnCard) game in
            let '(game, penalties) := applyHitPenalties game drawnCard (p_id player) in
            let game :=
              match penalties with
              | [] => game
              | _ :: _ => set_lastAction (PenaltiesAction (p_id player) penalties) game
              end in
            mret (update_player playerIndex (refresh_player true) game)
        end
  end.

(** The loop of [getNextActivePlayer]; it leaves through its guard after at
    most as many rounds as there are players, which is the fuel it gets. *)
Fixpoint nextActive_loop (players : list Player) (currentPlayerIndex nextIndex : nat)
    (fuel : nat) : nat :=
  match fuel with
  | O => nextIndex
  | S fuel' =>
      match players !! nextIndex with
      | Some p =>
          if p_isDropped p then
            let nextIndex := ((nextIndex + 1) `mod` length players)%nat in
            if (nextIndex =? currentPlayerIndex)%nat then nextIndex
            else nextActive_loop players currentPlayerIndex nextIndex fuel'
          else nextIndex
      | None => nextIndex
      end
  end.

Definition getNextActivePlayer (game : Game) (currentPlayerIndex : nat) : nat :=
  let nextIndex := ((currentPlayerIndex + 1) `mod` length (g_players game))%nat in
  nextActive_loop (g_players game) currentPlayerIndex nextIndex (length (g_players game)).

(** The body of the [forEach] that closes a discard:
    [if (p.penalties > 0) p.penalties -= 1; p.canDrop = canPlayerDrop(p, false)]. *)
Definition decrement_penalty (p : Player) : Player :=
  let p := if 0 <? p_penalties p then set_penalties (p_penalties p - 1) p else p in
  set_canDrop (canPlayerDrop p false) p.

Definition handleDiscard (game : Game) (playerIndex : nat) (cardId : string) : M Game :=
  match g_players game !! playerIndex with
  | None => throw undefined_player
  | Some player =>
      match findIndex (λ card, String.eqb (c_id card) cardId) (p_hand player) with
      | None => throw "Card not found in hand"
      | Some cardIndex =>
          match p_hand player !! cardIndex with
          | None => throw "Card not found in hand"
          | Some card =>
              let game := update_player playerIndex
                            (λ p, set_hand (delete cardIndex (p_hand p)) p) game in
              let game := set_discardPile (card :: g_discardPile game) game in
              let game := update_player playerIndex (refresh_player false) game in
              let game := set_players (map decrement_penalty (g_players game)) game in
              let game :=
                set_currentPlayerIndex (getNextActivePlayer game playerIndex) game in
              mret (set_lastAction (DiscardAction (p_id player) card) game)
          end
      end
  end.

Definition user_won (winnings : Z) (user : User) : User :=
  mkUser (u_username user) (u_balance user + winnings) (u_totalWinnings user + winnings)
         (u_totalWagered user) (u_gamesPlayed user) (u_gamesWon user + 1).

Definition user_played (stake : Z) (user : User) : User :=
  mkUser (u_username user) (u_balance user) (u_totalWinnings user)
         (u_totalWagered user + stake) (u_gamesPlayed user + 1) (u_gamesWon user).

Definition is_ai_id (id : string) : bool := String.prefix "ai-" id.

(** [User.findById(id)], an update of the document when it exists, and
    [user.save()]. *)
Definition update_user (id : string) (f : User → User) : M unit := λ w,
  (Ok (), set_users (alter f id (w_users w)) w).

Definition table_released (gameId : string) (table : Table) : Table :=
  mkTable (t_tableId table) (t_amount table) (Z.max 0 (t_currentPlayers table - 1))
          (filter (λ id, negb (String.eqb id gameId)) (t_activeGames table)).

(** [Table.findOne({ amount })] and the update of the table it finds. *)
Definition update_table (amount : Z) (f : Table → Table) : M unit := λ w,
  match findIndex (λ table, t_amount table =? amount) (w_tables w) with
  | Some i => (Ok (), set_tables (alter f i (w_tables w)) w)
  | None => (Ok (), w)
  end.

(** [for (const x of array) { await body(x) }]. *)
Fixpoint forEachM {A} (body : A → M unit) (array : list A) : M unit :=
  match array with
  | [] => mret ()
  | x :: rest => _ ← body x; forEachM body rest
  end.

Definition endGame (game : Game) (winnerId : string) (multiplier : Z) : M Game :=
  let game := set_ended winnerId multiplier game in
  let winnings := g_pot game * multiplier in
  _ ← (if negb (is_ai_id winnerId) then update_user winnerId (user_won winnings)
       else mret ());
  _ ← forEachM (λ player,
                  if negb (is_ai_id (p_id player))
                  then update_user (p_id player) (user_played (g_stake game))
                  else mret ())
               (g_players game);
  _ ← update_table (g_stake game) (table_released (g_id game));
  mret game.

(** [game.players.filter(p => !p.isDropped)]. *)
Definition activePlayers (game : Game) : list Player :=
  filter (λ p, negb (p_isDropped p)) (g_players game).

Definition handleDrop (game : Game) (playerIndex : nat) : M Game :=
  match g_players game !! playerIndex with
  | None => throw undefined_player
  | Some player =>
      let score := calculateHandScore (p_hand player) in
      let isFirstTurn := isFirstTurn_for game player in
      let multiplier := calculateWinningMultiplier score isFirstTurn in
      let game := update_player playerIndex
                    (λ p, set_isDropped true (set_score score p)) game in
      let game := set_lastAction (DropAction (p_id player) score multiplier) game in
      if (length (activePlayers game) <=? 1)%nat then endGame game (p_id player) multiplier
      else mret (set_currentPlayerIndex (getNextActivePlayer game playerIndex) game)
  end.

Definition handleSpread (game : Game) (playerIndex : nat) (cardIds : option (list string))
  : M Game :=
  throw "Spread action not implemented in this version".

(** One round of the [while] of [processAITurns] for each unit of
    [maxAITurns]; the test of the loop reads the status, then the player at
    [currentPlayerIndex], then the counter. *)
Fixpoint processAITurns_loop (game : Game) (currentPlayerIndex : nat) (maxAITurns : nat)
  : M Game :=
  if negb (bool_decide (g_status game = Playing)) then mret game else
  match g_players game !! currentPlayerIndex with
  | None => throw undefined_player
  | Some aiPlayer =>
      if negb (p_isAI aiPlayer) then mret game else
      match maxAITurns with
      | O => mret game
      | S maxAITurns =>
          if p_isDropped aiPlayer then
            processAITurns_loop game (getNextActivePlayer game currentPlayerIndex) maxAITurns
          else
            let personality := getAIPersonality (p_id aiPlayer) in
            let drawSource := decideDrawSource game aiPlayer (pers_difficulty personality) in
            _ ← getAIThinkingTime;
            game ← handleDraw game currentPlayerIndex
                     (match drawSource with DrawDiscard => true | DrawDeck => false end);
            match g_players game !! currentPlayerIndex with
            | None => throw undefined_player
            | Some aiPlayer =>
                match decideCardToDiscard (p_hand aiPlayer) game (pers_difficulty personality) with
                | None => throw "Assignment to constant variable."
                | Some cardToDiscard =>
                    if negb (truthy cardToDiscard)
                    then throw "Assignment to constant variable."
                    else
                      game ← handleDiscard game currentPlayerIndex cardToDiscard;
                      match g_players game !! currentPlayerIndex with
                      | None => throw undefined_player
                      | Some aiPlayer =>
                          if p_canDrop aiPlayer
                             && shouldDrop aiPlayer game (pers_difficulty personality)
                          then
                            _ ← getAIThinkingTime;
                            handleDrop game currentPlayerIndex
                          else
                            let currentPlayerIndex := g_currentPlayerIndex game in
                            let activeNonAI :=
                              filter (λ p, negb (p_isAI p) && negb (p_isDropped p))
                                     (g_players game) in
                            if (length activeNonAI =? 0)%nat then
                              match findIndex (λ p, p_isAI p && negb (p_isDropped p))
                                              (g_players game) with
                              | Some aiIndex => handleDrop game aiIndex
                              | None => mret game
                              end
                            else processAITurns_loop game currentPlayerIndex maxAITurns
                      end
                end
            end
      end
  end.

Definition processAITurns (game : Game) : M Game :=
  processAITurns_loop game (g_currentPlayerIndex game) 10.

Definition hidden_card (card : Card) : Card :=
  mkCard (c_id card) "?" "?" 0 true.

Definition sanitizeGameForPlayer (game : Game) (playerId : string) : Game :=
  set_players
    (map (λ player,
            if negb (String.eqb (p_id player) playerId) && negb (p_isDropped player)
            then set_hand (map hidden_card (p_hand player)) player
            else player)
         (g_players game))
    game.

(** What a handler answers: [res.status(code).json({ error })], or the game as
    the requester may see it. *)
Inductive Response :=
  | ErrorResponse (code : nat) (error : string)
  | GameResponse (game : Game).

Record ActionRequest := mkActionRequest {
  r_gameId : string;
  r_userId : string;
  r_action : string;
  r_data : MoveData
}.

Definition save (game : Game) : M unit := λ w,
  (Ok (), set_games (<[g_id game := game]> (w_games w)) w).

Definition performAction (req : ActionRequest) (w : World) : Response * World :=
  let userId := r_userId req in
  match w_games w !! r_gameId req with
  | None => (ErrorResponse 404 "Game not found", w)
  | Some game =>
      if negb (bool_decide (g_status game = Playing))
      then (ErrorResponse 400 "Game is not in progress", w) else
      match findIndex (λ p, String.eqb (p_id p) userId) (g_players game) with
      | None => (ErrorResponse 400 "Not a player in this game", w)
      | Some playerIndex =>
          match isValidMove game userId (r_action req) (r_data req) with
          | Invalid error => (ErrorResponse 400 error, w)
          | Valid =>
              let action := r_action req in
              let handler : option (M Game) :=
                if String.eqb action "draw" then
                  Some (handleDraw game playerIndex
                          (bool_decide (d_source (r_data req) = Some "discard")))
                else if String.eqb action "discard" then
                  Some (match d_cardId (r_data req) with
                        | Some cardId => handleDiscard game playerIndex cardId
                        | None => throw "Card not found in hand"
                        end)
                else if String.eqb action "drop" then Some (handleDrop game playerIndex)
                else if String.eqb action "spread" then
                  Some (handleSpread game playerIndex (d_cardIds (r_data req)))
                else None in
              match handler with
              | None => (ErrorResponse 400 "Invalid action", w)
              | Some handle =>
                  let run : M Game :=
                    updatedGame ← handle;
                    updatedGame ←
                      (if bool_decide (g_status updatedGame = Playing)
                       then processAITurns updatedGame else mret updatedGame);
                    _ ← save updatedGame;
                    mret updatedGame in
                  match run w with
                  | (Ok updatedGame, w') =>
                      (GameResponse (sanitizeGameForPlayer updatedGame userId), w')
                  | (Throw message, w') =>
                      (ErrorResponse 500
                         (if truthy message then message
                          else "Server error performing action"),
                       w')
                  end
              end
          end
      end
  end.

(** [new Game({...})] draws the [_id] of the document. *)
Definition new_id : M string := λ w,
  (Ok (pretty (w_nextId w)),
   mkWorld (w_games w) (w_users w) (w_tables w) (w_random w) (S (w_nextId w))).

Definition new_player (id username : string) (isAI : bool) : Player :=
  mkPlayer id username isAI [] false false 0 0 0 false.


(** The game [createGame] stores, for the user [userId] (already checked to
    exist and to afford the stake).  The document is built from the array
    [players] before the last loop of the handler assigns [canDrop] in that
    array; the document holds its own copies of the players by then, so the
    stored players keep [canDrop = false]. *)
Definition createGame_game (userId : string) (user : User) (stake : Z) : M Game :=
  deck ← createDeck;
  let players :=
    new_player userId (u_username user) false
    :: map (λ i, let aiId := "ai-" +:+ pretty (i + 1)%nat in
                 new_player aiId (pers_name (getAIPersonality aiId) +:+ " AI") true)
           (seq 0 3) in
  let '(hands, remainingDeck) := dealCards deck 4 in
  let players :=
    imap (λ i player,
            let player := set_hand (default [] (hands !! i)) player in
            set_score (calculateHandScore (p_hand player)) player)
         players in
  match array_pop remainingDeck with
  | (None, _) => throw "Game validation failed"
  | (Some top, remainingDeck) =>
      let discardPile := [top] in
      id ← new_id;
      mret (mkGame id players 0 remainingDeck discardPile Playing stake (stake * 4)
                   None 1 true None)
  end.



(** [exports.joinGame]: the user takes the seat of the first computer player
    of a game that is still waiting. *)
Definition joinGame (gameId userId : string) (w : World) : Response * World :=
  match w_games w !! gameId with
  | None => (ErrorResponse 404 "Game not found", w)
  | Some game =>
      if negb (bool_decide (g_status game = Waiting))
      then (ErrorResponse 400 "Game has already started", w) else
      match w_users w !! userId with
      | None => (ErrorResponse 404 "User not found", w)
      | Some user =>
          if u_balance user <? g_stake game
          then (ErrorResponse 400 "Insufficient balance", w) else
          match findIndex (λ p, String.eqb (p_id p) userId) (g_players game) with
          | Some existingPlayerIndex => (GameResponse (sanitizeGameForPlayer game userId), w)
          | None =>
              if (4 <=? length (filter (λ p, negb (p_isAI p)) (g_players game)))%nat
              then (ErrorResponse 400 "Game is full", w) else
              match findIndex p_isAI (g_players game) with
              | None => (ErrorResponse 400 "No AI player to replace", w)
              | Some aiPlayerIndex =>
                  let run : M Game :=
                    _ ← update_user userId
                          (λ u, mkUser (u_username u) (u_balance u - g_stake game)
                                       (u_totalWinnings u) (u_totalWagered u)
                                       (u_gamesPlayed u) (u_gamesWon u));
                    match g_players game !! aiPlayerIndex with
                    | None => throw undefined_player
                    | Some aiPlayer =>
                        let player :=
                          mkPlayer userId (u_username user) false (p_hand aiPlayer) false
                                   (canPlayerDrop aiPlayer false)
                                   (calculateHandScore (p_hand aiPlayer)) 0 0 false in
                        let game :=
                          set_players (<[aiPlayerIndex := player]> (g_players game)) game in
                        _ ← save game;
                        mret game
                    end in
                  match run w with
                  | (Ok game, w') => (GameResponse (sanitizeGameForPlayer game userId), w')
                  | (Throw _, w') => (ErrorResponse 500 "Server error joining game", w')
                  end
              end
          end
      end
  end.

(** ** The transitions of a game

    Every change the controller makes to a game in play is one of the three
    handlers applied at some seat, or a reshuffle of the discard pile into the
    deck; a game is reachable when [createGame] built it or a transition
    leads to it from a reachable game. *)

Inductive action_step (playerIndex : nat) (game game' : Game) : Prop :=
  | draw_step (fromDiscard : bool) (w w' : World) :
      handleDraw game playerIndex fromDiscard w = (Ok game', w') →
      action_step playerIndex game game'
  | discard_step (cardId : string) (w w' : World) :
      handleDiscard game playerIndex cardId w = (Ok game', w') →
      action_step playerIndex game game'
  | drop_step (w w' : World) :
      handleDrop game playerIndex w = (Ok game', w') →
      action_step playerIndex game game'.

Inductive engine_step (game game' : Game) : Prop :=
  | player_step (playerIndex : nat) :
      g_status game = Playing →
      action_step playerIndex game game' →
      engine_step game game'
  | reshuffle_step (w w' : World) (reshuffled : list Card * list Card) :
      g_status game = Playing →
      reshuffleDeck (g_deck game) (g_discardPile game) w = (Ok reshuffled, w') →
      game' = set_discardPile reshuffled.2 (set_deck reshuffled.1 game) →
      engine_step game game'.

Inductive reachable : Game → Prop :=
  | reachable_created (userId : string) (user : User) (stake : Z) (w w' : World)
      (game : Game) :
      createGame_game userId user stake w = (Ok game, w') →
      reachable game
  | reachable_step (game game' : Game) :
      reachable game →
      engine_step game game' →
      reachable game'.

(** What [applyHitPenalties] does to one player of the array [players]. *)
Definition penalize (card : Card) (playerId : string) (players : list Player)
    (player : Player) : Player :=
  if String.eqb (p_id player) playerId then player else
  match wouldHitSpread card player players with
  | None => player
  | Some _ => set_hitCount (p_hitCount player + 1) (set_penalties (2 + p_hitCount player) player)
  end.

(** [p'] is [p] but for its penalties and its hit count. *)
Definition penalty_only (p p' : Player) : Prop :=
  p' = set_hitCount (p_hitCount p') (set_penalties (p_penalties p') p).

(** The fields of a game that no draw and no discard assigns. *)
Definition same_table (game game' : Game) : Prop :=
  g_id game' = g_id game ∧ g_status game' = g_status game
  ∧ g_stake game' = g_stake game ∧ g_pot game' = g_pot game
  ∧ g_winner game' = g_winner game
  ∧ g_winningMultiplier game' = g_winningMultiplier game.

(** The cards of a game, zone after zone: the hands in seat order, the deck,
    the discard pile. *)
Definition all_cards (game : Game) : list Card :=
  concat (map p_hand (g_players game)) ++ g_deck game ++ g_discardPile game.

Definition cards_in_hands (game : Game) : nat :=
  sum_list (map (λ p, length (p_hand p)) (g_players game)).

(** ** Notions used to state what holds of every game

    What holds of a seat, and of the turn and the end of a game. *)
Definition seat_invariant (p : Player) : Prop :=
  p_score p = calculateHandScore (p_hand p) ∧ 0 ≤ p_penalties p ∧ 0 ≤ p_hitCount p.

Definition turn_invariant (game : Game) : Prop :=
  match g_status game with
  | Waiting => False
  | Playing =>
      (2 ≤ length (activePlayers game))%nat
      ∧ p_isDropped <$> g_players game !! g_currentPlayerIndex game = Some false
  | Ended =>
      (length (activePlayers game) ≤ 1)%nat
      ∧ ∃ winner,
          g_winner game = Some winner
          ∧ In (winner, true) (map (λ p, (p_id p, p_isDropped p)) (g_players game))
  end.

Definition seated_game (game : Game) : Prop :=
  (∃ userId,
     map (λ p, (p_id p, p_isAI p)) (g_players game)
     = [(userId, false); ("ai-1", true); ("ai-2", true); ("ai-3", true)])
  ∧ Forall seat_invariant (g_players game)
  ∧ (g_currentPlayerIndex game < length (g_players game))%nat
  ∧ turn_invariant game.

(** The seats of [players] that are not a computer player's and carry the
    id [id]. *)
Definition seats_played (id : string) (players : list Player) : nat :=
  length (filter (λ p, negb (is_ai_id (p_id p)) && String.eqb (p_id p) id) players).

(** ** Notions used to state properties of the spreads *)

(** All the elements of a list have the same key as its first one. *)
Definition all_same {A} (keyOf : A → string) (l : list A) : bool :=
  match l with
  | [] => true
  | first :: _ => forallb (λ x, String.eqb (keyOf x) (keyOf first)) l
  end.

(** Each value is one more than the value before it. *)
Definition chain (values : list Z) : bool :=
  forallb (λ '(prev, next), next =? prev + 1) (zip values (drop 1 values)).

(** ** Sample tables

    Three positions of a four-seat game over the forty cards, and a world
    around them.  [card n] is the card with id [card-n]: hearts are 0 to 9
    (A, 2, ..., 7, J, Q, K), then diamonds, clubs and spades. *)

Local Open Scope nat_scope.

Definition card (n : nat) : Card :=
  default (mkCard "" "" "" 0%Z false) (orderedDeck !! n).

Definition seated (id username : string) (isAI : bool) (hand : list nat)
    (isDropped : bool) : Player :=
  mkPlayer id username isAI (map card hand) isDropped false
           (calculateHandScore (map card hand)) 0%Z 0%Z false.

Definition table_of (players : list Player) (deck discardPile : list nat) : Game :=
  mkGame "game-1" players 0 (map card deck) (map card discardPile) Playing 5%Z 20%Z
         None 1%Z true None.

(** Right after the deal: ai-1 holds the sevens of hearts, diamonds and spades,
    nobody else holds a spread, and the seven of clubs is next on the deck. *)
Definition opening_game : Game :=
  table_of
    [seated "u1" "alice" false [0; 12; 24; 37; 19] false;
     seated "ai-1" "Rookie AI" true [6; 16; 36; 1; 13] false;
     seated "ai-2" "Challenger AI" true [2; 14; 27; 38; 9] false;
     seated "ai-3" "Expert AI" true [3; 15; 20; 31; 28] false]
    [4; 5; 7; 8; 10; 11; 17; 18; 21; 22; 23; 25; 29; 30; 32; 33; 34; 35; 26]
    [39].

(** Later in a game: ai-1 has dropped, ai-2 holds the three sevens, and the
    seven of clubs is next on the deck. *)
Definition late_game : Game :=
  table_of
    [seated "u1" "alice" false [0; 12; 24; 37; 19] false;
     seated "ai-1" "Rookie AI" true [2; 14; 27; 38; 9] true;
     seated "ai-2" "Challenger AI" true [6; 16; 36; 1; 13] false;
     seated "ai-3" "Expert AI" true [3; 15; 20; 31; 28] false]
    [4; 5; 7; 10; 11; 17; 21; 22; 23; 25; 30; 32; 33; 34; 35; 26]
    [39; 8; 18; 29].

(** Near the end: ai-1 and ai-2 have dropped, and the human player has drawn
    and holds four aces and two twos, 8 points. *)
Definition closing_game : Game :=
  table_of
    [seated "u1" "alice" false [0; 10; 20; 30; 1; 11] false;
     seated "ai-1" "Rookie AI" true [2; 3; 4; 5; 6] true;
     seated "ai-2" "Challenger AI" true [12; 13; 15; 16; 17] true;
     seated "ai-3" "Expert AI" true [21; 22; 23; 24; 25] false]
    [7; 8; 9; 14; 18; 19; 26; 27; 28; 29; 31; 32]
    [39; 38; 37; 36; 35; 34; 33].

(** The seven of hearts and the five of diamonds make 12 points. *)
Definition twelve_points : Player := seated "u1" "alice" false [6; 14] false.

(** [opening_game] when it is the turn of ai-1, who can offer its three
    sevens as a spread. *)
Definition spread_turn : Game := set_currentPlayerIndex 1 opening_game.

(** A computation that, whatever its outcome, leaves the collection of the
    games as it found it. *)
Definition keeps_games {A} (m : M A) : Prop :=
  ∀ w, w_games (m w).2 = w_games w.

(** The same game with the flags [hasDrawn] set as [flags] tells. *)
Definition with_hasDrawn (flags : Player → bool) (game : Game) : Game :=
  set_players (map (λ p, set_hasDrawn (flags p) p) (g_players game)) game.

Definition alice : User := mkUser "alice" 95%Z 0%Z 0%Z 0%Z 0%Z.

Definition sample_world (game : Game) : World :=
  mkWorld {[ g_id game := game ]} {[ "u1" := alice ]}
          [mkTable "table-3" 5%Z 1%Z [g_id game]] (λ k, 7 * k + 3) 2.

(** [late_game] after u1 has drawn the seven of clubs from the deck. *)
Definition late_game_drawn : Game :=
  Eval vm_compute in
    match handleDraw late_game 0 false (sample_world late_game) with
    | (Ok game, _) => game
    | (Throw _, _) => late_game
    end.

(** The game [createGame] deals to alice in [sample_world], and that game
    after her first draw from the deck. *)
Definition dealt_game : Game :=
  Eval vm_compute in
    match createGame_game "u1" alice 5 (sample_world opening_game) with
    | (Ok game, _) => game
    | (Throw _, _) => opening_game
    end.

Definition dealt_game_drawn : Game :=
  Eval vm_compute in
    match handleDraw dealt_game 0 false (sample_world dealt_game) with
    | (Ok game, _) => game
    | (Throw _, _) => dealt_game
    end.

Local Close Scope nat_scope.

(** * Properties *)

(** ** The monad *)

Lemma bind_Ok {A B} (m : M A) (f : A → M B) (w w' : World) (b : B) :
  (m ≫= f) w = (Ok b, w') →
  ∃ a w1, m w = (Ok a, w1) ∧ f a w1 = (Ok b, w').
Proof.
  unfold mbind, M_bind. destruct (m w) as [[a|e] w1]; intros H.
  - by exists a, w1.
  - discriminate.
Qed.

Lemma mret_Ok {A} (a b : A) (w w' : World) :
  mret (M := M) a w = (Ok b, w') → b = a ∧ w' = w.
Proof. unfold mret, M_ret. by intros [= -> ->]. Qed.

Lemma mret_run {A} (a : A) (w : World) : mret (M := M) a w = (Ok a, w).
Proof. done. Qed.

Lemma throw_Ok {A} (e : string) (w w' : World) (a : A) :
  throw e w = (Ok a, w') → False.
Proof. discriminate. Qed.

(** Breaks a successful run of a handler into the runs of its parts. *)
Ltac run_inv H :=
  repeat (first
    [ apply mret_Ok in H as [? ?]; subst
    | apply throw_Ok in H; destruct H
    | let a := fresh "a" in let w := fresh "w" in
      let H1 := fresh "Hrun" in
      apply bind_Ok in H as (a & w & H1 & H) ]).

(** ** Sorting and array helpers *)

Lemma sort_insert_perm {A} (gtb : A → A → bool) (x : A) (l : list A) :
  sort_insert gtb x l ≡ₚ x :: l.
Proof.
  induction l as [|y l IH]; simpl; [done|].
  destruct (gtb x y); [|done].
  rewrite IH. apply Permutation_swap.
Qed.

Lemma js_sort_perm {A} (gtb : A → A → bool) (l : list A) : js_sort gtb l ≡ₚ l.
Proof.
  induction l as [|x l IH]; simpl; [done|].
  unfold js_sort in *. simpl. by rewrite sort_insert_perm, IH.
Qed.

Lemma array_pop_Some {A} (l rest : list A) (x : A) :
  array_pop l = (Some x, rest) → l = rest ++ [x].
Proof.
  unfold array_pop. intros [= Hlast <-].
  destruct l as [|y l] using rev_ind; [done|].
  rewrite last_snoc in Hlast. injection Hlast as ->.
  by rewrite removelast_last.
Qed.

Lemma array_pop_None {A} (l rest : list A) :
  array_pop l = (None, rest) → l = [].
Proof.
  unfold array_pop. intros [= Hlast _]. by apply last_None in Hlast.
Qed.

Lemma findIndex_Some {A} (pred : A → bool) (l : list A) (i : nat) :
  findIndex pred l = Some i → ∃ x, l !! i = Some x ∧ pred x = true.
Proof.
  revert i. induction l as [|y l IH]; intros i; simpl; [done|].
  destruct (pred y) eqn:Hy.
  - intros [= <-]. by exists y.
  - destruct (findIndex pred l) as [k|]; simpl; [|done].
    intros [= <-]. by apply IH.
Qed.

Lemma find_findIndex {A} (pred : A → bool) (l : list A) :
  find pred l = (findIndex pred l ≫= λ i, l !! i).
Proof.
  induction l as [|y l IH]; simpl; [done|].
  destruct (pred y); [done|]. rewrite IH.
  by destruct (findIndex pred l).
Qed.

Lemma find_Some {A} (pred : A → bool) (l : list A) (x : A) :
  find pred l = Some x → x ∈ l ∧ pred x = true.
Proof.
  induction l as [|y l IH]; simpl; [done|].
  destruct (pred y) eqn:Hy.
  - intros [= ->]. split; [left|done].
  - intros H. destruct (IH H). split; [by right|done].
Qed.

(** ** Drop eligibility and the multiplier *)

Lemma calculateHandScore_app (hand1 hand2 : list Card) :
  calculateHandScore (hand1 ++ hand2)
  = calculateHandScore hand1 + calculateHandScore hand2.
Proof.
  unfold calculateHandScore. rewrite foldl_app.
  generalize (foldl (λ sum card, sum + c_value card) 0 hand1) as acc.
  induction hand2 as [|c l IH] using rev_ind; intros acc; simpl; [lia|].
  rewrite !foldl_app. simpl. rewrite IH. lia.
Qed.

Lemma canPlayerDrop_cases (player : Player) (isFirstTurn : bool) :
  (canPlayerDrop player isFirstTurn = true ↔
     ¬ 0 < p_penalties player ∧
     (calculateHandScore (p_hand player) ≤ 11
      ∨ (isFirstTurn = true ∧ calculateHandScore (p_hand player) ≤ 41)
      ∨ calculateHandScore (p_hand player) ≤ 50))
  ∧ (0 < p_penalties player → canPlayerDrop player isFirstTurn = false)
  ∧ (50 < calculateHandScore (p_hand player) → canPlayerDrop player isFirstTurn = false).
Proof.
  unfold canPlayerDrop.
  destruct (Z.ltb_spec 0 (p_penalties player)) as [Hpen|Hpen].
  { split; [|done]. split; [done|]. intros [Hno _]. lia. }
  destruct (Z.leb_spec (calculateHandScore (p_hand player)) 11) as [H11|H11].
  { split; [|split; [lia|lia]]. split; [|done]. intros _. split; [lia|by left]. }
  destruct isFirstTurn; simpl.
  - destruct (Z.leb_spec (calculateHandScore (p_hand player)) 41) as [H41|H41].
    + split; [|split; [lia|lia]]. split; [|done]. intros _. split; [lia|]. right. by left.
    + destruct (Z.leb_spec (calculateHandScore (p_hand player)) 50) as [H50|H50].
      * split; [|split; [lia|lia]]. split; [|done]. intros _. split; [lia|]. by do 2 right.
      * split; [|done]. split; [done|]. intros [_ [?|[[_ ?]|?]]]; lia.
  - destruct (Z.leb_spec (calculateHandScore (p_hand player)) 50) as [H50|H50].
    + split; [|split; [lia|lia]]. split; [|done]. intros _. split; [lia|]. by do 2 right.
    + split; [|done]. split; [done|]. intros [_ [?|[[? _]|?]]]; [lia|done|lia].
Qed.

(** C1: [canPlayerDrop player isFirstTurn] is true exactly when the player has
    no pending penalty and the score of the hand is at most 11, or at most 41
    on the first turn, or at most 50; it is false whenever a penalty is
    pending and whenever the score exceeds 50. *)
Theorem canPlayerDrop_spec (player : Player) (isFirstTurn : bool) :
  (canPlayerDrop player isFirstTurn = true ↔
     ¬ 0 < p_penalties player ∧
     (calculateHandScore (p_hand player) ≤ 11
      ∨ (isFirstTurn = true ∧ calculateHandScore (p_hand player) ≤ 41)
      ∨ calculateHandScore (p_hand player) ≤ 50))
  ∧ (0 < p_penalties player → canPlayerDrop player isFirstTurn = false)
  ∧ (50 < calculateHandScore (p_hand player) → canPlayerDrop player isFirstTurn = false).
Proof. apply canPlayerDrop_cases. Qed.

Lemma calculateWinningMultiplier_cases (score : Z) (isFirstTurn : bool) :
  (score ≤ 11 → calculateWinningMultiplier score isFirstTurn = 3)
  ∧ (isFirstTurn = true → score = 41 → calculateWinningMultiplier score isFirstTurn = 3)
  ∧ (11 < score → ¬ (isFirstTurn = true ∧ score = 41) → score = 50 →
     calculateWinningMultiplier score isFirstTurn = 2)
  ∧ (11 < score → ¬ (isFirstTurn = true ∧ score = 41) → score ≠ 50 →
     calculateWinningMultiplier score isFirstTurn = 1).
Proof.
  unfold calculateWinningMultiplier.
  destruct (Z.leb_spec score 11), isFirstTurn, (Z.eqb_spec score 41),
    (Z.eqb_spec score 50); simpl; repeat split; intros; try lia; try done.
  all: exfalso; tauto.
Qed.

(** ** The account ledger at the end of a game *)

Lemma update_user_run (id : string) (f : User → User) (w : World) :
  update_user id f w = (Ok (), set_users (alter f id (w_users w)) w).
Proof. done. Qed.

(** Recording a played game for every human seat leaves the games and every
    balance as they are. *)
Lemma record_played_run (stake : Z) (players : list Player) (w : World) :
  ∃ w', forEachM (λ player,
                    if negb (is_ai_id (p_id player))
                    then update_user (p_id player) (user_played stake)
                    else mret ()) players w = (Ok (), w')
        ∧ w_games w' = w_games w
        ∧ ∀ id, u_balance <$> (w_users w' !! id) = u_balance <$> (w_users w !! id).
Proof.
  revert w. induction players as [|p ps IH]; intros w; simpl.
  { by exists w. }
  unfold mbind, M_bind.
  destruct (negb (is_ai_id (p_id p))).
  - rewrite update_user_run. cbv beta iota.
    destruct (IH (set_users (alter (user_played stake) (p_id p) (w_users w)) w))
      as (w' & -> & Hg & Hb).
    exists w'. split; [done|]. split; [done|].
    intros id. rewrite Hb. simpl.
    destruct (decide (id = p_id p)) as [->|Hne].
    + rewrite lookup_alter_eq. by destruct (w_users w !! p_id p).
    + by rewrite lookup_alter_ne.
  - rewrite mret_run. cbv beta iota.
    destruct (IH w) as (w' & -> & Hg & Hb). by exists w'.
Qed.

Lemma update_table_run (amount : Z) (f : Table → Table) (w : World) :
  ∃ w', update_table amount f w = (Ok (), w')
        ∧ w_games w' = w_games w ∧ w_users w' = w_users w.
Proof.
  unfold update_table. destruct (findIndex _ _); eauto.
Qed.

(** [endGame] always completes: the game is ended with the given winner and
    multiplier, and a human winner is credited the pot times the multiplier. *)
Lemma endGame_run (game : Game) (winnerId : string) (multiplier : Z) (w : World) :
  ∃ w', endGame game winnerId multiplier w = (Ok (set_ended winnerId multiplier game), w')
        ∧ w_games w' = w_games w
        ∧ ∀ id,
            u_balance <$> (w_users w' !! id)
            = (λ user, if negb (is_ai_id winnerId) && bool_decide (id = winnerId)
                       then u_balance user + g_pot game * multiplier
                       else u_balance user) <$> (w_users w !! id).
Proof.
  unfold endGame. unfold mbind at 1, M_bind at 1.
  set (w1 := if negb (is_ai_id winnerId)
             then set_users (alter (user_won (g_pot game * multiplier)) winnerId (w_users w)) w
             else w).
  assert ((if negb (is_ai_id winnerId)
           then update_user winnerId
                  (user_won (g_pot (set_ended winnerId multiplier game) * multiplier))
           else mret ()) w = (Ok (), w1)) as ->.
  { subst w1. by destruct (negb (is_ai_id winnerId)). }
  unfold mbind at 1, M_bind at 1.
  destruct (record_played_run (g_stake (set_ended winnerId multiplier game))
              (g_players (set_ended winnerId multiplier game)) w1) as (w2 & -> & Hg2 & Hb2).
  unfold mbind at 1, M_bind at 1.
  destruct (update_table_run (g_stake (set_ended winnerId multiplier game))
              (table_released (g_id (set_ended winnerId multiplier game))) w2)
    as (w3 & -> & Hg3 & Hu3).
  exists w3. split; [done|]. split.
  { rewrite Hg3, Hg2. subst w1. by destruct (negb (is_ai_id winnerId)). }
  intros id. rewrite Hu3, Hb2. subst w1.
  destruct (negb (is_ai_id winnerId)); simpl.
  - destruct (decide (id = winnerId)) as [->|Hne].
    + rewrite lookup_alter_eq, bool_decide_eq_true_2 by done.
      by destruct (w_users w !! winnerId).
    + rewrite lookup_alter_ne, bool_decide_eq_false_2 by done.
      by destruct (w_users w !! id).
  - by destruct (w_users w !! id).
Qed.

(** ** Hit penalties *)

Lemma penalty_only_refl (p : Player) : penalty_only p p.
Proof. by destruct p. Qed.

Lemma penalize_penalty_only (card : Card) (playerId : string) (players : list Player)
    (p : Player) :
  penalty_only p (penalize card playerId players p).
Proof.
  unfold penalize. destruct (String.eqb _ _); [apply penalty_only_refl|].
  destruct (wouldHitSpread _ _ _); [|apply penalty_only_refl].
  by destruct p.
Qed.

Lemma penalty_only_fields (p p' : Player) :
  penalty_only p p' →
  p_id p' = p_id p ∧ p_hand p' = p_hand p ∧ p_isDropped p' = p_isDropped p
  ∧ p_score p' = p_score p ∧ p_isAI p' = p_isAI p.
Proof. intros ->. by destruct p. Qed.

(** [wouldHitSpread] reads the ids and the hands only. *)
Lemma wouldHitSpread_ext (card : Card) (target target' : Player)
    (players players' : list Player) :
  p_id target = p_id target' →
  Forall2 (λ p p', p_id p = p_id p' ∧ p_hand p = p_hand p') players players' →
  wouldHitSpread card target players = wouldHitSpread card target' players'.
Proof.
  intros Hid Hall. induction Hall as [|p p' ps ps' [Hp Hh] _ IH]; simpl; [done|].
  rewrite <- Hid, <- Hp, <- Hh, IH. done.
Qed.

Lemma applyHitPenalties_fold (card : Card) (playerId : string) (players : list Player)
    (k : nat) :
  (k ≤ length players)%nat →
  (foldl (applyHitPenalty card playerId) (players, []) (seq 0 k)).1
  = map (penalize card playerId players) (take k players) ++ drop k players.
Proof.
  induction k as [|k IH]; intros Hk.
  { done. }
  rewrite seq_S, foldl_app. simpl.
  destruct (foldl (applyHitPenalty card playerId) (players, []) (seq 0 k))
    as [players_k penalties_k] eqn:Hfold.
  simpl in IH. specialize (IH ltac:(lia)). subst players_k.
  destruct (lookup_lt_is_Some_2 players k ltac:(lia)) as [p Hp].
  assert (length (map (penalize card playerId players) (take k players)) = k) as Hlen.
  { rewrite length_map, length_take. lia. }
  unfold applyHitPenalty.
  rewrite lookup_app_r by lia. rewrite Hlen, Nat.sub_diag.
  rewrite (drop_S _ _ _ Hp). simpl.
  rewrite (take_S_r _ _ _ Hp), map_app. simpl.
  assert (wouldHitSpread card p
            (map (penalize card playerId players) (take k players) ++ p :: drop (S k) players)
          = wouldHitSpread card p players) as ->.
  { apply wouldHitSpread_ext; [done|].
    set (F := penalize card playerId players).
    pose proof (take_drop_middle _ _ _ Hp) as Heq.
    rewrite <- Heq at 3.
    apply Forall2_app; [|apply Forall2_same_length_lookup_2; [done|]].
    - apply Forall2_fmap_l, Forall_Forall2_diag, Forall_forall. intros q _.
      destruct (penalty_only_fields _ _ (penalize_penalty_only card playerId players q))
        as (? & ? & _). done.
    - intros i x y Hx Hy. by simplify_eq. }
  set (F := penalize card playerId players) in *.
  assert (F p = if String.eqb (p_id p) playerId then p else
                match wouldHitSpread card p players with
                | None => p
                | Some _ =>
                    set_hitCount (p_hitCount p + 1) (set_penalties (2 + p_hitCount p) p)
                end) as -> by done.
  destruct (String.eqb (p_id p) playerId).
  { simpl. by rewrite <- app_assoc. }
  destruct (wouldHitSpread card p players) as [[? spread]|].
  - simpl. rewrite insert_app_r_alt by lia. rewrite Hlen, Nat.sub_diag. simpl.
    by rewrite <- app_assoc.
  - simpl. by rewrite <- app_assoc.
Qed.

(** The players after [applyHitPenalties]: each one penalized, or not, by the
    test the source runs for it on the array it was given. *)
Lemma applyHitPenalties_players (game : Game) (card : Card) (playerId : string) :
  (applyHitPenalties game card playerId).1
  = set_players (map (penalize card playerId (g_players game)) (g_players game)) game.
Proof.
  unfold applyHitPenalties.
  pose proof (applyHitPenalties_fold card playerId (g_players game)
                (length (g_players game)) ltac:(lia)) as H.
  destruct (foldl _ _ _) as [players penalties]. simpl in *.
  by rewrite H, firstn_all, drop_all, app_nil_r.
Qed.

(** ** Shuffling and dealing move cards, they neither make nor lose any *)

Lemma insert_cons_perm {A} (l : list A) (j : nat) (y a : A) :
  l !! j = Some y → y :: <[j := a]> l ≡ₚ a :: l.
Proof.
  revert j. induction l as [|z l IH]; intros [|j] Hj; simplify_eq/=.
  - apply Permutation_swap.
  - rewrite Permutation_swap, (IH _ Hj). apply Permutation_swap.
Qed.

Lemma swap_perm {A} (i j : nat) (l : list A) : swap i j l ≡ₚ l.
Proof.
  unfold swap. destruct (l !! i) as [x|] eqn:Hi; [|done].
  destruct (l !! j) as [y|] eqn:Hj; [|done].
  apply (Permutation_cons_inv (a := y)).
  assert (<[i := y]> l !! j = Some y) as Hj'.
  { destruct (decide (i = j)) as [->|Hne].
    - apply list_lookup_insert_eq. by eapply lookup_lt_Some.
    - by rewrite list_lookup_insert_ne. }
  rewrite (insert_cons_perm _ _ _ _ Hj').
  by rewrite (insert_cons_perm _ _ _ _ Hi).
Qed.

(** The world after a computation that only draws random numbers. *)
Definition same_documents (w w' : World) : Prop :=
  w_games w' = w_games w ∧ w_users w' = w_users w ∧ w_tables w' = w_tables w
  ∧ w_nextId w' = w_nextId w.

Lemma shuffle_loop_run {A} (currentIndex : nat) (shuffled : list A) (w : World) :
  ∃ result w', shuffle_loop currentIndex shuffled w = (Ok result, w')
               ∧ result ≡ₚ shuffled ∧ same_documents w w'.
Proof.
  revert shuffled w. induction currentIndex as [|n IH]; intros shuffled w; simpl.
  { exists shuffled, w. by repeat split. }
  unfold mbind, M_bind, random_below. cbv beta iota.
  edestruct IH as (result & w' & -> & Hperm & Hdocs).
  exists result, w'. split; [done|]. split; [|done].
  by rewrite Hperm, swap_perm.
Qed.

Lemma shuffle_run {A} (array : list A) (w : World) :
  ∃ result w', shuffle array w = (Ok result, w')
               ∧ result ≡ₚ array ∧ same_documents w w'.
Proof. apply shuffle_loop_run. Qed.

Lemma reshuffleDeck_run (deck discardPile : list Card) (w : World) :
  ∃ reshuffled w', reshuffleDeck deck discardPile w = (Ok reshuffled, w')
                   ∧ reshuffled.1 ++ reshuffled.2 ≡ₚ deck ++ discardPile
                   ∧ same_documents w w'.
Proof.
  unfold reshuffleDeck. destruct discardPile as [|top [|second rest]].
  - exists (deck, []), w. by repeat split.
  - exists (deck, [top]), w. by repeat split.
  - unfold mbind, M_bind.
    destruct (shuffle_run (deck ++ second :: rest) w) as (newDeck & w' & -> & Hperm & Hdocs).
    exists (newDeck, [top]), w'. split; [done|]. split; [|done].
    simpl. rewrite Hperm. rewrite <- app_assoc. apply Permutation_app_head.
    symmetry. apply Permutation_cons_append.
Qed.

Lemma concat_alter_push {A} (hands : list (list A)) (j : nat) (card : A) :
  (j < length hands)%nat →
  concat (alter (λ h, h ++ [card]) j hands) ≡ₚ card :: concat hands.
Proof.
  revert j. induction hands as [|h hands IH]; intros [|j] Hj; simpl in *; try lia.
  - rewrite <- app_assoc. simpl. symmetry. apply Permutation_middle.
  - rewrite (IH j) by lia. symmetry. apply Permutation_middle.
Qed.

Lemma deal_card_perm (st : list (list Card) * list Card) (j : nat) :
  (j < length st.1)%nat →
  concat (deal_card st j).1 ++ (deal_card st j).2 ≡ₚ concat st.1 ++ st.2
  ∧ length (deal_card st j).1 = length st.1.
Proof.
  destruct st as [hands deckCopy]. unfold deal_card. intros Hj.
  destruct (array_pop deckCopy) as [[card|] rest] eqn:Hpop; simpl in *; [|done].
  apply array_pop_Some in Hpop as ->. split.
  - rewrite concat_alter_push by done. simpl.
    rewrite (Permutation_app_comm rest [card]). simpl. apply Permutation_middle.
  - by rewrite length_alter.
Qed.

Lemma deal_round_perm (st : list (list Card) * list Card) (n : nat) :
  (n ≤ length st.1)%nat →
  concat (foldl deal_card st (seq 0 n)).1 ++ (foldl deal_card st (seq 0 n)).2
    ≡ₚ concat st.1 ++ st.2
  ∧ length (foldl deal_card st (seq 0 n)).1 = length st.1.
Proof.
  induction n as [|n IH]; intros Hn; [done|].
  rewrite seq_S, foldl_app. simpl.
  destruct (IH ltac:(lia)) as [Hperm Hlen].
  destruct (deal_card_perm (foldl deal_card st (seq 0 n)) n ltac:(lia)) as [Hperm' Hlen'].
  split; [by rewrite Hperm'|by rewrite Hlen'].
Qed.

Lemma dealCards_perm (deck : list Card) (playerCount : nat) :
  concat (dealCards deck playerCount).1 ++ (dealCards deck playerCount).2 ≡ₚ deck
  ∧ length (dealCards deck playerCount).1 = playerCount.
Proof.
  unfold dealCards.
  assert (∀ (rounds : list nat) (st : list (list Card) * list Card),
            length st.1 = playerCount →
            let st' := foldl (λ st _, foldl deal_card st (seq 0 playerCount)) st rounds in
            concat st'.1 ++ st'.2 ≡ₚ concat st.1 ++ st.2 ∧ length st'.1 = playerCount)
    as Hrounds.
  { induction rounds as [|r rounds IH]; intros st Hlen; simpl; [done|].
    destruct (deal_round_perm st playerCount ltac:(lia)) as [Hperm Hlen'].
    destruct (IH (foldl deal_card st (seq 0 playerCount)) ltac:(lia)) as [Hperm'' Hlen''].
    split; [by rewrite Hperm''|done]. }
  destruct (Hrounds (seq 0 5) (replicate playerCount [], deck)) as [Hperm Hlen].
  { simpl. by rewrite length_replicate. }
  split; [|done]. rewrite Hperm. simpl.
  assert (concat (replicate playerCount ([] : list Card)) = []) as ->; [|done].
  clear. induction playerCount as [|n IH]; [done|]. simpl. apply IH.
Qed.

(** ** What a successful handler has done *)

Lemma handleDraw_Ok (game : Game) (i : nat) (fromDiscard : bool) (w w' : World)
    (game' : Game) :
  handleDraw game i fromDiscard w = (Ok game', w') →
  ∃ player drawnCard F,
    g_players game !! i = Some player
    ∧ drawnCard :: g_deck game' ++ g_discardPile game'
        ≡ₚ g_deck game ++ g_discardPile game
    ∧ (if fromDiscard then F = (λ p, p)
       else F = penalize drawnCard (p_id player)
                  (alter (push_card drawnCard) i (g_players game)))
    ∧ g_players game'
      = alter (refresh_player true) i
          (map F (alter (push_card drawnCard) i (g_players game)))
    ∧ g_currentPlayerIndex game' = g_currentPlayerIndex game
    ∧ same_table game game' ∧ same_documents w w'.
Proof.
  unfold handleDraw. intros Hrun.
  destruct (g_players game !! i) as [player|] eqn:Hplayer; [|by run_inv Hrun].
  exists player. destruct fromDiscard.
  - destruct (g_discardPile game) as [|drawnCard pile] eqn:Hpile; [by run_inv Hrun|].
    run_inv Hrun. exists drawnCard, (λ p, p). simpl.
    rewrite map_id. repeat split; try done.
    apply Permutation_middle.
  - apply bind_Ok in Hrun as (game1 & w1 & Hshuffle & Hrun).
    assert (g_deck game1 ++ g_discardPile game1 ≡ₚ g_deck game ++ g_discardPile game
            ∧ g_players game1 = g_players game
            ∧ g_currentPlayerIndex game1 = g_currentPlayerIndex game
            ∧ same_table game game1 ∧ same_documents w w1)
      as (Hzones & Hplayers & Hindex & Htable & Hdocs).
    { destruct (needsReshuffle _ _ _).
      - apply bind_Ok in Hshuffle as (reshuffled & w2 & Hre & Hret).
        apply mret_Ok in Hret as [-> ->].
        destruct (reshuffleDeck_run (g_deck game) (g_discardPile game) w)
          as (r & w3 & Hre' & Hperm & Hdocs).
        rewrite Hre in Hre'. injection Hre' as <- <-.
        destruct Hdocs as (? & ? & ? & ?).
        simpl. split; [done|]. by repeat split.
      - apply mret_Ok in Hshuffle as [-> ->]. by repeat split. }
    destruct (array_pop (g_deck game1)) as [[drawnCard|] deck] eqn:Hpop;
      [|by run_inv Hrun].
    apply array_pop_Some in Hpop.
    pose proof (applyHitPenalties_players
                  (update_player i (push_card drawnCard) (set_deck deck game1))
                  drawnCard (p_id player)) as Hpen.
    destruct (applyHitPenalties _ _ _) as [game2 penalties]. simpl in Hpen. subst game2.
    exists drawnCard,
      (penalize drawnCard (p_id player) (alter (push_card drawnCard) i (g_players game))).
    destruct Htable as (? & ? & ? & ? & ? & ?). destruct Hdocs as (? & ? & ? & ?).
    destruct penalties; run_inv Hrun; simpl; rewrite Hplayers; repeat split; try done.
    all: rewrite <- Hzones, Hpop, <- app_assoc; simpl;
         rewrite (Permutation_app_comm deck (drawnCard :: _)); simpl;
         by rewrite (Permutation_app_comm _ deck).
Qed.

Lemma handleDiscard_Ok (game : Game) (i : nat) (cardId : string) (w w' : World)
    (game' : Game) :
  handleDiscard game i cardId w = (Ok game', w') →
  ∃ player cardIndex card,
    g_players game !! i = Some player
    ∧ p_hand player !! cardIndex = Some card ∧ c_id card = cardId
    ∧ g_deck game' = g_deck game
    ∧ g_discardPile game' = card :: g_discardPile game
    ∧ g_players game'
      = map decrement_penalty
          (alter (refresh_player false) i
             (alter (λ p, set_hand (delete cardIndex (p_hand p)) p) i (g_players game)))
    ∧ same_table game game' ∧ w' = w.
Proof.
  unfold handleDiscard. intros Hrun.
  destruct (g_players game !! i) as [player|] eqn:Hplayer; [|by run_inv Hrun].
  destruct (findIndex _ (p_hand player)) as [cardIndex|] eqn:Hfind; [|by run_inv Hrun].
  destruct (p_hand player !! cardIndex) as [card|] eqn:Hcard; [|by run_inv Hrun].
  run_inv Hrun. exists player, cardIndex, card.
  apply findIndex_Some in Hfind as (card' & Hcard' & Heq).
  rewrite Hcard in Hcard'. injection Hcard' as <-.
  apply String.eqb_eq in Heq. by repeat split.
Qed.

Lemma handleDrop_Ok (game : Game) (i : nat) (w w' : World) (game' : Game) :
  handleDrop game i w = (Ok game', w') →
  ∃ player,
    let score := calculateHandScore (p_hand player) in
    let multiplier := calculateWinningMultiplier score (isFirstTurn_for game player) in
    g_players game !! i = Some player
    ∧ g_players game' = alter (λ p, set_isDropped true (set_score score p)) i (g_players game)
    ∧ g_deck game' = g_deck game ∧ g_discardPile game' = g_discardPile game
    ∧ g_id game' = g_id game ∧ g_stake game' = g_stake game ∧ g_pot game' = g_pot game
    ∧ ((g_status game' = Ended
        ∧ g_winner game' = Some (p_id player)
        ∧ g_winningMultiplier game' = multiplier
        ∧ w_games w' = w_games w
        ∧ ∀ id,
            u_balance <$> (w_users w' !! id)
            = (λ user, if negb (is_ai_id (p_id player)) && bool_decide (id = p_id player)
                       then u_balance user + g_pot game * multiplier
                       else u_balance user) <$> (w_users w !! id))
       ∨ (g_status game' = g_status game ∧ w' = w)).
Proof.
  unfold handleDrop. intros Hrun.
  destruct (g_players game !! i) as [player|] eqn:Hplayer; [|by run_inv Hrun].
  exists player. simpl.
  destruct (length _ <=? 1)%nat.
  - edestruct endGame_run as (w1 & Hend & Hgames & Hbal).
    rewrite Hend in Hrun. injection Hrun as <- <-.
    repeat split; try done. left. by repeat split.
  - run_inv Hrun. repeat split; try done. by right.
Qed.

(** ** The forty cards *)

Lemma hands_alter_same (f : Player → Player) (i : nat) (players : list Player) :
  (∀ p, p_hand (f p) = p_hand p) →
  map p_hand (alter f i players) = map p_hand players.
Proof.
  intros Hf. revert i. induction players as [|p ps IH]; intros [|i]; simpl; [done..| |].
  - by rewrite Hf.
  - f_equal. apply IH.
Qed.

Lemma hands_map_same (f : Player → Player) (players : list Player) :
  (∀ p, p_hand (f p) = p_hand p) →
  map p_hand (map f players) = map p_hand players.
Proof.
  intros Hf. rewrite map_map. apply map_ext. intros p. apply Hf.
Qed.

Lemma hands_alter_push (card : Card) (i : nat) (players : list Player) (player : Player) :
  players !! i = Some player →
  concat (map p_hand (alter (push_card card) i players))
    ≡ₚ card :: concat (map p_hand players).
Proof.
  revert i. induction players as [|p ps IH]; intros [|i] Hi; simplify_eq/=.
  - rewrite <- app_assoc. simpl. symmetry. apply Permutation_middle.
  - rewrite (IH _ Hi). symmetry. apply Permutation_middle.
Qed.

Lemma hands_alter_delete (k i : nat) (players : list Player) (player : Player)
    (card : Card) :
  players !! i = Some player →
  p_hand player !! k = Some card →
  card :: concat (map p_hand (alter (λ p, set_hand (delete k (p_hand p)) p) i players))
    ≡ₚ concat (map p_hand players).
Proof.
  revert i. induction players as [|p ps IH]; intros [|i] Hi Hk; simplify_eq/=.
  - rewrite app_comm_cons. apply Permutation_app_tail.
    symmetry. by apply delete_Permutation.
  - rewrite <- (IH _ Hi Hk). apply Permutation_middle.
Qed.

Lemma refresh_player_hand (b : bool) (p : Player) : p_hand (refresh_player b p) = p_hand p.
Proof. done. Qed.

Lemma decrement_penalty_hand (p : Player) : p_hand (decrement_penalty p) = p_hand p.
Proof. unfold decrement_penalty. by destruct (0 <? p_penalties p). Qed.

Lemma penalize_hand (card : Card) (playerId : string) (players : list Player) (p : Player) :
  p_hand (penalize card playerId players p) = p_hand p.
Proof.
  by destruct (penalty_only_fields _ _ (penalize_penalty_only card playerId players p))
    as (_ & ? & _).
Qed.

Lemma handleDraw_cards (game : Game) (i : nat) (fromDiscard : bool) (w w' : World)
    (game' : Game) :
  handleDraw game i fromDiscard w = (Ok game', w') →
  all_cards game' ≡ₚ all_cards game.
Proof.
  intros Hrun.
  apply handleDraw_Ok in Hrun
    as (player & drawnCard & F & Hplayer & Hzones & HF & Hplayers & _).
  unfold all_cards. rewrite Hplayers.
  rewrite hands_alter_same by apply refresh_player_hand.
  rewrite hands_map_same.
  - rewrite (hands_alter_push _ _ _ _ Hplayer). simpl.
    rewrite <- Hzones. apply Permutation_middle.
  - intros p. destruct fromDiscard; subst F; [done|apply penalize_hand].
Qed.

Lemma handleDiscard_cards (game : Game) (i : nat) (cardId : string) (w w' : World)
    (game' : Game) :
  handleDiscard game i cardId w = (Ok game', w') →
  all_cards game' ≡ₚ all_cards game.
Proof.
  intros Hrun.
  apply handleDiscard_Ok in Hrun
    as (player & cardIndex & card & Hplayer & Hcard & _ & Hdeck & Hpile & Hplayers & _).
  unfold all_cards. rewrite Hplayers, Hdeck, Hpile.
  rewrite hands_map_same by apply decrement_penalty_hand.
  rewrite hands_alter_same by apply refresh_player_hand.
  rewrite <- (hands_alter_delete _ _ _ _ _ Hplayer Hcard).
  rewrite <- !Permutation_middle. done.
Qed.

Lemma handleDrop_cards (game : Game) (i : nat) (w w' : World) (game' : Game) :
  handleDrop game i w = (Ok game', w') →
  all_cards game' = all_cards game.
Proof.
  intros Hrun.
  apply handleDrop_Ok in Hrun as (player & _ & Hplayers & Hdeck & Hpile & _).
  unfold all_cards. rewrite Hplayers, Hdeck, Hpile.
  by rewrite hands_alter_same.
Qed.

Lemma engine_step_cards (game game' : Game) :
  engine_step game game' → all_cards game' ≡ₚ all_cards game.
Proof.
  intros [i _ [fromDiscard w w' Hrun|cardId w w' Hrun|w w' Hrun]
         |w w' reshuffled _ Hrun ->].
  - by eapply handleDraw_cards.
  - by eapply handleDiscard_cards.
  - by erewrite handleDrop_cards.
  - destruct (reshuffleDeck_run (g_deck game) (g_discardPile game) w)
      as (r & w1 & Hrun' & Hperm & _).
    rewrite Hrun in Hrun'. injection Hrun' as <- <-.
    unfold all_cards. simpl. by rewrite Hperm.
Qed.

Lemma createGame_game_cards (userId : string) (user : User) (stake : Z) (w w' : World)
    (game : Game) :
  createGame_game userId user stake w = (Ok game, w') →
  all_cards game ≡ₚ orderedDeck.
Proof.
  unfold createGame_game, createDeck. intros Hrun.
  apply bind_Ok in Hrun as (deck & w1 & Hshuffle & Hrun).
  destruct (shuffle_run orderedDeck w) as (deck' & w1' & Hshuffle' & Hdeck & _).
  rewrite Hshuffle in Hshuffle'. injection Hshuffle' as <- <-.
  destruct (dealCards_perm deck 4) as [Hdeal Hlen].
  destruct (dealCards deck 4) as [hands remainingDeck]. simpl in Hdeal, Hlen.
  destruct (array_pop remainingDeck) as [[top|] rest] eqn:Hpop; [|by run_inv Hrun].
  apply array_pop_Some in Hpop as ->.
  run_inv Hrun.
  destruct hands as [|h0 [|h1 [|h2 [|h3 [|]]]]]; try discriminate Hlen.
  rewrite <- Hdeck, <- Hdeal.
  match goal with
  | |- all_cards ?g ≡ₚ _ =>
      change (all_cards g) with (concat [h0; h1; h2; h3] ++ rest ++ [top])
  end.
  reflexivity.
Qed.

Lemma reachable_cards (game : Game) : reachable game → all_cards game ≡ₚ orderedDeck.
Proof.
  induction 1 as [userId user stake w w' game Hrun|game game' _ IH Hstep].
  - by eapply createGame_game_cards.
  - by rewrite (engine_step_cards _ _ Hstep).
Qed.

Lemma orderedDeck_ids : NoDup (map c_id orderedDeck).
Proof. apply (bool_decide_unpack _). by vm_compute. Qed.

Lemma cards_in_hands_length (game : Game) :
  cards_in_hands game = length (concat (map p_hand (g_players game))).
Proof.
  unfold cards_in_hands. rewrite length_concat. f_equal.
  by rewrite map_map.
Qed.

(** C2: in every game reachable from a newly created game by draws, discards,
    drops and reshuffles made while the game is in play, the hands, the deck
    and the discard pile hold 40 cards together, and no card id occurs twice
    among them, be it in two zones or in one. *)
Theorem deck_integrity (game : Game) :
  reachable game →
  (cards_in_hands game + length (g_deck game) + length (g_discardPile game) = 40)%nat
  ∧ NoDup (map c_id (all_cards game)).
Proof.
  intros Hreach. apply reachable_cards in Hreach. split.
  - rewrite cards_in_hands_length.
    apply Permutation_length in Hreach. unfold all_cards in Hreach.
    rewrite !length_app in Hreach.
    transitivity (length orderedDeck); [lia|by vm_compute].
  - rewrite Hreach. apply orderedDeck_ids.
Qed.

(** ** The pot and the payout *)

Lemma engine_step_pot (game game' : Game) :
  engine_step game game' →
  g_pot game' = g_pot game ∧ g_stake game' = g_stake game.
Proof.
  intros [i _ [fromDiscard w w' Hrun|cardId w w' Hrun|w w' Hrun]
         |w w' reshuffled _ Hrun ->].
  - apply handleDraw_Ok in Hrun as (? & ? & ? & _ & _ & _ & _ & _ & Htable & _).
    by destruct Htable as (_ & _ & ? & ? & _).
  - apply handleDiscard_Ok in Hrun as (? & ? & ? & _ & _ & _ & _ & _ & _ & Htable & _).
    by destruct Htable as (_ & _ & ? & ? & _).
  - by apply handleDrop_Ok in Hrun as (? & _ & _ & _ & _ & _ & ? & ? & _).
  - done.
Qed.

Lemma createGame_game_pot (userId : string) (user : User) (stake : Z) (w w' : World)
    (game : Game) :
  createGame_game userId user stake w = (Ok game, w') →
  g_pot game = g_stake game * 4.
Proof.
  unfold createGame_game. intros Hrun.
  apply bind_Ok in Hrun as (deck & w1 & _ & Hrun).
  destruct (dealCards deck 4) as [hands remainingDeck].
  destruct (array_pop remainingDeck) as [[top|] rest]; [|by apply throw_Ok in Hrun].
  apply bind_Ok in Hrun as (id & w2 & _ & Hrun).
  apply mret_Ok in Hrun as [-> _]. reflexivity.
Qed.

Lemma reachable_pot (game : Game) : reachable game → g_pot game = g_stake game * 4.
Proof.
  induction 1 as [userId user stake w w' game Hrun|game game' _ IH Hstep].
  - by eapply createGame_game_pot.
  - destruct (engine_step_pot _ _ Hstep) as [-> ->]. done.
Qed.

Lemma active_alter (f g : Player → Player) (i : nat) (players : list Player) :
  (∀ p, p_isDropped (f p) = p_isDropped (g p)) →
  length (filter (λ p, negb (p_isDropped p)) (alter f i players))
  = length (filter (λ p, negb (p_isDropped p)) (alter g i players)).
Proof.
  intros Hfg. revert i.
  induction players as [|p ps IH]; intros [|i]; simpl; [done..| |].
  - rewrite !filter_cons, Hfg. by destruct (decide _).
  - rewrite !filter_cons. destruct (decide _); simpl; [f_equal|]; apply IH.
Qed.

(** C4: [calculateWinningMultiplier] is 3 for a score of at most 11, 3 for a
    score of 41 on the first turn, 2 for a score of 50 and 1 otherwise; the
    pot of a game is four times its stake; and a drop by a human player that
    leaves at most one player in the game ends it, names the dropper the
    winner and credits the balance of the dropper with the pot times the
    multiplier of the dropped hand. *)
Theorem drop_payout :
  (∀ score isFirstTurn,
     (score ≤ 11 → calculateWinningMultiplier score isFirstTurn = 3)
     ∧ (isFirstTurn = true → score = 41 → calculateWinningMultiplier score isFirstTurn = 3)
     ∧ (11 < score → ¬ (isFirstTurn = true ∧ score = 41) → score = 50 →
        calculateWinningMultiplier score isFirstTurn = 2)
     ∧ (11 < score → ¬ (isFirstTurn = true ∧ score = 41) → score ≠ 50 →
        calculateWinningMultiplier score isFirstTurn = 1))
  ∧ (∀ game, reachable game → g_pot game = g_stake game * 4)
  ∧ (∀ game i player user w,
       g_pot game = g_stake game * 4 →
       g_players game !! i = Some player →
       is_ai_id (p_id player) = false →
       w_users w !! p_id player = Some user →
       (length (activePlayers (update_player i (set_isDropped true) game)) ≤ 1)%nat →
       ∃ game' w' user',
         handleDrop game i w = (Ok game', w')
         ∧ g_status game' = Ended
         ∧ g_winner game' = Some (p_id player)
         ∧ g_winningMultiplier game'
           = calculateWinningMultiplier (calculateHandScore (p_hand player))
               (isFirstTurn_for game player)
         ∧ w_users w' !! p_id player = Some user'
         ∧ u_balance user'
           = u_balance user
             + g_stake game * 4
               * calculateWinningMultiplier (calculateHandScore (p_hand player))
                   (isFirstTurn_for game player)).
Proof.
  split; [apply calculateWinningMultiplier_cases|].
  split; [apply reachable_pot|].
  intros game i player user w Hpot Hplayer Hhuman Huser Hactive.
  unfold handleDrop. rewrite Hplayer.
  set (score := calculateHandScore (p_hand player)).
  set (multiplier := calculateWinningMultiplier score (isFirstTurn_for game player)).
  set (game1 := set_lastAction _ _).
  assert ((length (activePlayers game1) <=? 1)%nat = true) as ->.
  { apply Nat.leb_le. unfold activePlayers in *. subst game1. simpl in *.
    by rewrite (active_alter _ (set_isDropped true)). }
  destruct (endGame_run game1 (p_id player) multiplier w) as (w' & Hend & _ & Hbal).
  specialize (Hbal (p_id player)).
  rewrite Huser, Hhuman, bool_decide_eq_true_2 in Hbal by done. simpl in Hbal.
  destruct (w_users w' !! p_id player) as [user'|] eqn:Huser'; [|done].
  injection Hbal as Hbal.
  exists (set_ended (p_id player) multiplier game1), w', user'.
  rewrite Hend, Hbal. subst game1. simpl. rewrite Hpot. by repeat split.
Qed.

(** With a stake of 5, a drop at 8 points after another player has dropped
    pays 60. *)
Lemma drop_payout_sixty :
  calculateHandScore (map card [0; 10; 20; 30; 1; 11]%nat) = 8
  ∧ ∃ game' w' user',
      handleDrop closing_game 0 (sample_world closing_game) = (Ok game', w')
      ∧ g_status game' = Ended
      ∧ g_winningMultiplier game' = 3
      ∧ w_users w' !! "u1" = Some user'
      ∧ u_balance user' = 95 + 60.
Proof.
  split; [reflexivity|].
  destruct (proj2 (proj2 drop_payout) closing_game 0%nat
              (seated "u1" "alice" false [0; 10; 20; 30; 1; 11]%nat false) alice
              (sample_world closing_game))
    as (game' & w' & user' & Hrun & Hstatus & _ & Hmult & Huser & Hbal);
    [reflexivity | reflexivity | reflexivity | reflexivity | vm_compute; lia |].
  exists game', w', user'.
  repeat split; [exact Hrun | exact Hstatus | exact Hmult | exact Huser | exact Hbal].
Defined.

(** ** Dropping at 12 points *)

(** C7, as the code has it: a hand of exactly 12 points held by a player with
    no pending penalty can be dropped on any turn, first or not, like every
    hand of at most 50 points. *)
Theorem score_12_droppable (player : Player) (isFirstTurn : bool) :
  ¬ 0 < p_penalties player →
  calculateHandScore (p_hand player) = 12 →
  canPlayerDrop player isFirstTurn = true.
Proof.
  intros Hpen Hscore. apply canPlayerDrop_cases. split; [done|].
  right. right. lia.
Qed.

Lemma score_12_droppable_witness :
  calculateHandScore (p_hand twelve_points) = 12
  ∧ canPlayerDrop twelve_points false = true.
Proof.
  split; [reflexivity|].
  apply (score_12_droppable twelve_points false); [vm_compute; discriminate|reflexivity].
Defined.

(** C7 fails as stated: outside the first turn, with no penalty, a hand of 12
    points is accepted by [canPlayerDrop]. *)
Lemma score_12_not_refused :
  p_penalties twelve_points = 0
  ∧ calculateHandScore (p_hand twelve_points) = 12
  ∧ canPlayerDrop twelve_points false = true.
Proof. by vm_compute. Qed.

(** ** The view of a player *)

(** C9, as the code has it: in the view of a player, every card in the hand of
    another player who has not dropped is replaced by a card with the same
    id, suit "?", rank "?", value 0 and the hidden flag set; the viewer and
    the players who have dropped are shown as they are. *)
Theorem sanitized_view (game : Game) (playerId : string) (i : nat) (player : Player) :
  g_players game !! i = Some player →
  ∃ player',
    g_players (sanitizeGameForPlayer game playerId) !! i = Some player'
    ∧ (p_id player ≠ playerId → p_isDropped player = false →
       length (p_hand player') = length (p_hand player)
       ∧ ∀ k card, p_hand player !! k = Some card →
                   p_hand player' !! k = Some (mkCard (c_id card) "?" "?" 0 true))
    ∧ (p_id player = playerId ∨ p_isDropped player = true → player' = player).
Proof.
  intros Hplayer. unfold sanitizeGameForPlayer. simpl.
  rewrite list_lookup_fmap, Hplayer. simpl. eexists. split; [done|]. split.
  - intros Hid Hactive. apply String.eqb_neq in Hid. rewrite Hid, Hactive. simpl.
    split; [by rewrite length_map|].
    intros k c Hc. by rewrite list_lookup_fmap, Hc.
  - intros [Hid|Hdropped].
    + apply String.eqb_eq in Hid. by rewrite Hid.
    + rewrite Hdropped. by rewrite andb_false_r.
Qed.

Lemma sanitized_view_witness :
  ∃ player',
    g_players (sanitizeGameForPlayer late_game "u1") !! 2%nat = Some player'
    ∧ p_hand player' !! 0%nat = Some (mkCard "card-6" "?" "?" 0 true).
Proof.
  destruct (sanitized_view late_game "u1" 2
              (seated "ai-2" "Challenger AI" true [6; 16; 36; 1; 13]%nat false) eq_refl)
    as (player' & Hlookup & Hmasked & _).
  exists player'. split; [exact Hlookup|].
  apply (proj2 (Hmasked ltac:(discriminate) eq_refl) 0%nat (card 6)). reflexivity.
Defined.

(** C9 fails as stated: ai-1 has dropped, and the view of u1 shows the first
    card of ai-1 as the three of hearts it is. *)
Lemma dropped_hand_is_shown :
  ∃ player,
    g_players (sanitizeGameForPlayer late_game "u1") !! 1%nat = Some player
    ∧ p_id player = "ai-1"
    ∧ p_hand player !! 0%nat = Some (mkCard "card-2" "hearts" "3" 3 false).
Proof. eexists. by vm_compute. Qed.

(** ** Validation *)

Lemma findIndex_map {A} (pred : A → bool) (f : A → A) (l : list A) :
  (∀ x, pred (f x) = pred x) →
  findIndex pred (map f l) = findIndex pred l.
Proof.
  intros Hf. induction l as [|x l IH]; simpl; [done|].
  by rewrite Hf, IH.
Qed.

Lemma find_map {A} (pred : A → bool) (f : A → A) (l : list A) :
  (∀ x, pred (f x) = pred x) →
  find pred (map f l) = f <$> find pred l.
Proof.
  intros Hf. induction l as [|x l IH]; simpl; [done|].
  rewrite Hf, IH. by destruct (pred x).
Qed.

(** The validation of a move does not read the flag [hasDrawn]: its verdict
    on a draw, a discard, a drop or a spread is the same whether or not the
    player has drawn this turn. *)
Lemma validation_ignores_hasDrawn (flags : Player → bool) (game : Game)
    (playerId action : string) (data : MoveData) :
  isValidMove (with_hasDrawn flags game) playerId action data
  = isValidMove game playerId action data.
Proof.
  unfold isValidMove, with_hasDrawn. simpl.
  rewrite findIndex_map, find_map by done.
  destruct (findIndex _ (g_players game)) as [index|]; [|done].
  destruct (find _ (g_players game)) as [player|]; [|done]. simpl.
  destruct (p_isDropped player); [done|].
  destruct (negb _); [done|].
  assert (isFirstTurn_for
            (set_players (map (λ p, set_hasDrawn (flags p) p) (g_players game)) game)
            (set_hasDrawn (flags player) player)
          = isFirstTurn_for game player) as Hfirst.
  { unfold isFirstTurn_for. simpl.
    induction (g_players game) as [|p ps IH]; simpl; [done|]. by rewrite IH. }
  unfold validateDrop. rewrite Hfirst. done.
Qed.

(** C5, the code at the failing input.  In [opening_game], right after the
    deal, u1 has the turn and has not drawn: [hasDrawn] is false.  The
    validation accepts a discard and a drop from u1, and [performAction]
    applies the discard: it answers with the game, in which u1 is left with
    four cards.  Once u1 has drawn, [hasDrawn] is true, and the validation
    accepts a second draw.  The handlers write the flag and nothing reads
    it. *)
Theorem turn_order_not_enforced :
  (p_hasDrawn <$> g_players opening_game !! 0%nat) = Some false
  ∧ isValidMove opening_game "u1" "discard" (mkMoveData (Some "card-0") None None) = Valid
  ∧ isValidMove opening_game "u1" "drop" (mkMoveData None None None) = Valid
  ∧ match (performAction (mkActionRequest "game-1" "u1" "discard"
                            (mkMoveData (Some "card-0") None None))
                         (sample_world opening_game)).1 with
    | GameResponse view => length ∘ p_hand <$> g_players view !! 0%nat
    | ErrorResponse _ _ => None
    end = Some 4%nat
  ∧ ∃ game' w',
      handleDraw opening_game 0 false (sample_world opening_game) = (Ok game', w')
      ∧ (p_hasDrawn <$> g_players game' !! 0%nat) = Some true
      ∧ isValidMove game' "u1" "draw" (mkMoveData None None (Some "deck")) = Valid.
Proof.
  split; [by vm_compute|]. split; [by vm_compute|]. split; [by vm_compute|].
  split; [by vm_compute|].
  eexists _, _. by vm_compute.
Qed.

(** C8: when [isValidMove] rejects the request, [performAction] leaves the
    games, the users and the tables as they were, and once the game is found
    in play with the requester seated in it, the answer is the error of the
    validation with status 400.  [isValidMove] itself only computes a result
    from the game and the request. *)
Theorem rejected_move_changes_nothing (req : ActionRequest) (w : World) (game : Game)
    (error : string) :
  w_games w !! r_gameId req = Some game →
  isValidMove game (r_userId req) (r_action req) (r_data req) = Invalid error →
  (performAction req w).2 = w
  ∧ (g_status game = Playing →
     is_Some (findIndex (λ p, String.eqb (p_id p) (r_userId req)) (g_players game)) →
     (performAction req w).1 = ErrorResponse 400 error).
Proof.
  intros Hgame Hinvalid. unfold performAction. rewrite Hgame.
  destruct (bool_decide (g_status game = Playing)) eqn:Hstatus; simpl.
  - destruct (findIndex _ (g_players game)) as [playerIndex|] eqn:Hindex.
    + rewrite Hinvalid. done.
    + split; [done|]. by intros _ [? ?].
  - split; [done|]. intros Hplaying.
    by rewrite bool_decide_eq_true_2 in Hstatus.
Qed.

Lemma rejected_move_witness :
  performAction (mkActionRequest "game-1" "u1" "discard"
                   (mkMoveData (Some "card-1") None None))
                (sample_world opening_game)
  = (ErrorResponse 400 "Card not in hand", sample_world opening_game).
Proof.
  destruct (rejected_move_changes_nothing
              (mkActionRequest "game-1" "u1" "discard"
                 (mkMoveData (Some "card-1") None None))
              (sample_world opening_game) opening_game "Card not in hand"
              eq_refl eq_refl) as [Hworld Hanswer].
  specialize (Hanswer eq_refl (ex_intro _ 0%nat eq_refl)).
  rewrite <- Hworld at 2. rewrite <- Hanswer.
  by destruct (performAction _ _).
Defined.

(** ** The discard of the computer players *)

Lemma decideCardToDiscard_choice (hand : list Card) (game : Game) (difficulty : Difficulty) :
  hand ≠ [] →
  ∃ card, card ∈ hand ∧ decideCardToDiscard hand game difficulty = Some (c_id card).
Proof.
  intros Hhand. unfold decideCardToDiscard.
  destruct hand as [|first [|second rest]]; [done| |].
  { exists first. split; [left|done]. }
  set (hand := first :: second :: rest).
  set (candidates := js_sort _ _).
  assert (∀ best, best ∈ candidates → cand_card best ∈ hand) as Hbest.
  { intros best Hin. subst candidates. rewrite js_sort_perm in Hin.
    unfold analyzeDiscardCandidates in Hin.
    apply list_elem_of_fmap in Hin as (c & -> & Hc). done. }
  destruct candidates as [|best others].
  { exists first. split; [left|done]. }
  destruct (truthy (c_id (cand_card best))).
  - exists (cand_card best). split; [|done]. apply Hbest. left.
  - exists first. split; [left|done].
Qed.

Lemma handleDraw_hand (game : Game) (i : nat) (fromDiscard : bool) (w w' : World)
    (game' : Game) :
  handleDraw game i fromDiscard w = (Ok game', w') →
  ∃ player player' drawnCard,
    g_players game !! i = Some player
    ∧ g_players game' !! i = Some player'
    ∧ p_hand player' = p_hand player ++ [drawnCard].
Proof.
  intros Hrun.
  apply handleDraw_Ok in Hrun
    as (player & drawnCard & F & Hplayer & _ & HF & Hplayers & _).
  exists player, (refresh_player true (F (push_card drawnCard player))), drawnCard.
  split; [done|]. rewrite Hplayers.
  rewrite list_lookup_alter, list_lookup_fmap, list_lookup_alter, Hplayer.
  rewrite !decide_True by done. simpl.
  split; [done|].
  destruct fromDiscard; subst F; [done|]. by rewrite penalize_hand.
Qed.

(** C10: for a hand that is not empty, [decideCardToDiscard] returns the id of
    a card of that hand, the only card when the hand has one; so after the
    draw of a computer player, the card its turn goes on to discard is a card
    of its hand. *)
Theorem discard_choice_in_hand :
  (∀ hand game difficulty,
     hand ≠ [] →
     ∃ card, card ∈ hand ∧ decideCardToDiscard hand game difficulty = Some (c_id card))
  ∧ (∀ only game difficulty, decideCardToDiscard [only] game difficulty = Some (c_id only))
  ∧ (∀ game i fromDiscard w game' w' difficulty,
       handleDraw game i fromDiscard w = (Ok game', w') →
       ∃ aiPlayer card,
         g_players game' !! i = Some aiPlayer
         ∧ card ∈ p_hand aiPlayer
         ∧ decideCardToDiscard (p_hand aiPlayer) game' difficulty = Some (c_id card)).
Proof.
  split; [apply decideCardToDiscard_choice|]. split; [done|].
  intros game i fromDiscard w game' w' difficulty Hrun.
  apply handleDraw_hand in Hrun as (player & aiPlayer & drawnCard & _ & Hai & Hhand).
  destruct (decideCardToDiscard_choice (p_hand aiPlayer) game' difficulty)
    as (card & Hin & Hchoice).
  { rewrite Hhand. by destruct (p_hand player). }
  by exists aiPlayer, card.
Qed.

(** ai-1 at the opening: it lets go of the four of diamonds, the highest card
    outside its three sevens. *)
Lemma discard_choice_witness :
  ∃ chosen,
    chosen ∈ map card [6; 16; 36; 1; 13]%nat
    ∧ decideCardToDiscard (map card [6; 16; 36; 1; 13]%nat) opening_game EASY
      = Some (c_id chosen)
    ∧ c_id chosen = "card-13".
Proof.
  destruct (proj1 discard_choice_in_hand (map card [6; 16; 36; 1; 13]%nat)
              opening_game EASY ltac:(discriminate)) as (chosen & Hin & Hchoice).
  exists chosen. split; [exact Hin|]. split; [exact Hchoice|].
  assert (Some (c_id chosen) = Some "card-13") as Heq
    by (rewrite <- Hchoice; vm_compute; reflexivity).
  by injection Heq.
Defined.

(** ** Hit penalties on a draw *)

(** The seat [j] after a draw at seat [i]. *)
Lemma handleDraw_seat (game : Game) (i j : nat) (fromDiscard : bool) (w w' : World)
    (game' : Game) (p : Player) :
  handleDraw game i fromDiscard w = (Ok game', w') →
  g_players game !! j = Some p →
  ∃ player drawnCard,
    g_players game !! i = Some player
    ∧ g_players game' !! j
      = Some (if decide (i = j) then refresh_player true (push_card drawnCard p)
              else if fromDiscard then p
              else penalize drawnCard (p_id player)
                     (alter (push_card drawnCard) i (g_players game)) p).
Proof.
  intros Hrun Hp.
  apply handleDraw_Ok in Hrun
    as (player & drawnCard & F & Hplayer & _ & HF & Hplayers & _).
  exists player, drawnCard. split; [done|]. rewrite Hplayers.
  destruct (decide (i = j)) as [->|Hne].
  - rewrite list_lookup_alter_eq, list_lookup_fmap, list_lookup_alter_eq, Hp. simpl.
    destruct fromDiscard; subst F; [done|].
    unfold penalize. simpl.
    rewrite Hp in Hplayer. injection Hplayer as ->. by rewrite String.eqb_refl.
  - rewrite list_lookup_alter_ne, list_lookup_fmap, list_lookup_alter_ne, Hp by done.
    simpl. by destruct fromDiscard; subst F.
Qed.

(** C3, at [opening_game]: u1 draws the seven of clubs from the deck.  It
    hits the three sevens of ai-1 and no other spread, yet ai-1 keeps
    penalties 0 and hit count 0, while ai-2 and ai-3, who hold no spread, get
    penalties 2 and hit count 1. *)
Theorem hit_penalty_skips_owner :
  ∃ game' w',
    handleDraw opening_game 0 false (sample_world opening_game) = (Ok game', w')
    ∧ map (λ p, (p_id p, length (findExistingSpreads (p_hand p)),
                 p_penalties p, p_hitCount p))
          (g_players opening_game)
      = [("u1", 0%nat, 0, 0); ("ai-1", 1%nat, 0, 0);
         ("ai-2", 0%nat, 0, 0); ("ai-3", 0%nat, 0, 0)]
    ∧ existsb (cardHitsSpread (card 26))
              (findExistingSpreads (map card [6; 16; 36; 1; 13]%nat)) = true
    ∧ map (λ p, (p_id p, p_penalties p, p_hitCount p)) (g_players game')
      = [("u1", 0, 0); ("ai-1", 0, 0); ("ai-2", 2, 1); ("ai-3", 2, 1)]
    ∧ (last <$> (p_hand <$> g_players game' !! 0%nat)) = Some (Some (card 26)).
Proof. eexists _, _. split; [by vm_compute|]. by vm_compute. Qed.

(** ** Players who have dropped *)

Lemma decrement_penalty_fields (p : Player) :
  p_hand (decrement_penalty p) = p_hand p
  ∧ p_score (decrement_penalty p) = p_score p
  ∧ p_isDropped (decrement_penalty p) = p_isDropped p
  ∧ p_id (decrement_penalty p) = p_id p
  ∧ p_hitCount (decrement_penalty p) = p_hitCount p
  ∧ p_penalties (decrement_penalty p)
    = if 0 <? p_penalties p then p_penalties p - 1 else p_penalties p.
Proof. unfold decrement_penalty. by destruct (0 <? p_penalties p). Qed.

(** The seat [j] after a discard at another seat [i]. *)
Lemma handleDiscard_other_seat (game : Game) (i j : nat) (cardId : string) (w w' : World)
    (game' : Game) (p : Player) :
  handleDiscard game i cardId w = (Ok game', w') →
  i ≠ j →
  g_players game !! j = Some p →
  g_players game' !! j = Some (decrement_penalty p).
Proof.
  intros Hrun Hne Hp.
  apply handleDiscard_Ok in Hrun as (? & ? & ? & _ & _ & _ & _ & _ & Hplayers & _).
  by rewrite Hplayers, list_lookup_fmap, !list_lookup_alter_ne, Hp.
Qed.

(** C6, as the code has it: a draw, a discard or a drop made by a player who
    has not dropped leaves the hand, the score and the dropped flag of every
    player who has dropped as they are; the penalties of a dropped player are
    not frozen, and a discard takes 1 from them whenever they are positive. *)
Theorem dropped_seat_keeps_hand_and_score (game game' : Game) (i j : nat)
    (actor p : Player) :
  action_step i game game' →
  g_players game !! i = Some actor →
  p_isDropped actor = false →
  g_players game !! j = Some p →
  p_isDropped p = true →
  ∃ p',
    g_players game' !! j = Some p'
    ∧ p_hand p' = p_hand p ∧ p_score p' = p_score p ∧ p_isDropped p' = true
    ∧ ∀ cardId w w',
        handleDiscard game i cardId w = (Ok game', w') →
        p_penalties p' = if 0 <? p_penalties p then p_penalties p - 1 else p_penalties p.
Proof.
  intros Hstep Hactor Hactive Hp Hdropped.
  assert (i ≠ j) as Hne by (intros ->; congruence).
  assert (∀ p', g_players game' !! j = Some p' →
            ∀ cardId w w',
              handleDiscard game i cardId w = (Ok game', w') →
              p_penalties p'
              = if 0 <? p_penalties p then p_penalties p - 1 else p_penalties p)
    as Hdiscard.
  { intros p' Hp' cardId w w' Hrun.
    pose proof (handleDiscard_other_seat _ _ _ _ _ _ _ _ Hrun Hne Hp) as Hseat.
    rewrite Hp' in Hseat. injection Hseat as ->. apply decrement_penalty_fields. }
  assert (∀ q, penalty_only p q →
            p_hand q = p_hand p ∧ p_score q = p_score p ∧ p_isDropped q = true)
    as Hframe.
  { intros q Hq. apply penalty_only_fields in Hq as (_ & ? & ? & ? & _).
    repeat split; congruence. }
  destruct Hstep as [fromDiscard w w' Hrun|cardId w w' Hrun|w w' Hrun].
  - destruct (handleDraw_seat _ _ _ _ _ _ _ _ Hrun Hp) as (player & drawnCard & _ & Hseat).
    rewrite decide_False in Hseat by done.
    eexists. split; [exact Hseat|].
    split_and!; [..|by apply Hdiscard]; apply Hframe;
      destruct fromDiscard;
      first [apply penalty_only_refl | apply penalize_penalty_only].
  - pose proof (handleDiscard_other_seat _ _ _ _ _ _ _ _ Hrun Hne Hp) as Hseat.
    exists (decrement_penalty p). split; [done|].
    destruct (decrement_penalty_fields p) as (? & ? & Hd & _).
    split_and!; [done|done|congruence|by apply Hdiscard].
  - apply handleDrop_Ok in Hrun as (player & _ & Hplayers & _).
    assert (g_players game' !! j = Some p) as Hseat.
    { by rewrite Hplayers, list_lookup_alter_ne. }
    exists p. split; [done|]. split_and!; [done|done|done|by apply Hdiscard].
Qed.

Lemma dropped_seat_witness :
  ∃ p',
    g_players late_game_drawn !! 1%nat = Some p'
    ∧ p_hand p' = map card [2; 14; 27; 38; 9]%nat
    ∧ p_score p' = 38
    ∧ p_isDropped p' = true.
Proof.
  destruct (dropped_seat_keeps_hand_and_score late_game late_game_drawn 0 1
              (seated "u1" "alice" false [0; 12; 24; 37; 19]%nat false)
              (seated "ai-1" "Rookie AI" true [2; 14; 27; 38; 9]%nat true))
    as (p' & Hseat & Hhand & Hscore & Hdropped & _);
    [|reflexivity|reflexivity|reflexivity|reflexivity|].
  - eapply (draw_step 0 late_game late_game_drawn false (sample_world late_game)).
    vm_compute. reflexivity.
  - exists p'. split; [exact Hseat|]. split; [exact Hhand|]. split; [|exact Hdropped].
    rewrite Hscore. vm_compute. reflexivity.
Defined.

(** C6 fails as stated: in [late_game] ai-1 has dropped with no penalty; the
    draw of u1 from the deck sets the penalties of ai-1 to 2, and the discard
    of u1 that follows brings them to 1. *)
Lemma dropped_penalties_change :
  ∃ game1 w1 game2 w2,
    handleDraw late_game 0 false (sample_world late_game) = (Ok game1, w1)
    ∧ handleDiscard game1 0 "card-0" w1 = (Ok game2, w2)
    ∧ ((λ p, (p_id p, p_isDropped p, p_penalties p)) <$> g_players late_game !! 1%nat)
      = Some ("ai-1", true, 0)
    ∧ ((λ p, (p_id p, p_isDropped p, p_penalties p)) <$> g_players game1 !! 1%nat)
      = Some ("ai-1", true, 2)
    ∧ ((λ p, (p_id p, p_isDropped p, p_penalties p)) <$> g_players game2 !! 1%nat)
      = Some ("ai-1", true, 1).
Proof.
  eexists _, _, _, _. split; [by vm_compute|]. split; [by vm_compute|]. by vm_compute.
Qed.

Lemma deck_integrity_witness :
  (cards_in_hands dealt_game_drawn + length (g_deck dealt_game_drawn)
   + length (g_discardPile dealt_game_drawn) = 40)%nat
  ∧ NoDup (map c_id (all_cards dealt_game_drawn)).
Proof.
  apply deck_integrity.
  apply (reachable_step dealt_game).
  - eapply (reachable_created "u1" alice 5 (sample_world opening_game)).
    vm_compute. reflexivity.
  - apply (player_step _ _ 0); [reflexivity|].
    eapply (draw_step 0 dealt_game dealt_game_drawn false (sample_world dealt_game)).
    vm_compute. reflexivity.
Defined.

(** * Further properties of the card library *)

(** X1: [shuffle] never fails, returns a permutation of the array it is given,
    whatever [Math.random] draws, and touches no document. *)
Theorem shuffle_permutes {A} (array : list A) (w : World) :
  ∃ result w',
    shuffle array w = (Ok result, w')
    ∧ result ≡ₚ array ∧ length result = length array ∧ same_documents w w'.
Proof.
  destruct (shuffle_run array w) as (result & w' & Hrun & Hperm & Hdocs).
  exists result, w'. split_and!; [done|done|by rewrite Hperm|done].
Qed.

Lemma array_pop_snoc {A} (l : list A) (x : A) : array_pop (l ++ [x]) = (Some x, l).
Proof. unfold array_pop. by rewrite last_snoc, removelast_last. Qed.

Lemma dealCards_four_hands (front : list Card)
    (d0 d1 d2 d3 d4 d5 d6 d7 d8 d9 d10 d11 d12 d13 d14 d15 d16 d17 d18 d19 : Card) :
  dealCards (front ++ [d19; d18; d17; d16; d15; d14; d13; d12; d11; d10;
                       d9; d8; d7; d6; d5; d4; d3; d2; d1; d0]) 4
  = ([[d0; d4; d8; d12; d16]; [d1; d5; d9; d13; d17];
      [d2; d6; d10; d14; d18]; [d3; d7; d11; d15; d19]], front).
Proof.
  unfold dealCards. cbn [seq foldl replicate].
  repeat match goal with
  | |- context [deal_card (?hands, ?l ++ ?x :: ?y :: ?r) ?j] =>
      change (l ++ x :: y :: r) with (l ++ [x] ++ (y :: r));
      rewrite (app_assoc l [x] (y :: r))
  end.
  unfold deal_card.
  repeat (rewrite ?app_assoc; rewrite array_pop_snoc; cbn [alter list_alter app]).
  reflexivity.
Qed.

(** X2: with four players and at least twenty cards, [dealCards] deals round
    robin from the end of the deck: the last card goes to the first player,
    the one before to the second, and so on for five rounds; the cards in
    front stay in the deck, in their order. *)
Theorem dealCards_round_robin (front : list Card)
    (d0 d1 d2 d3 d4 d5 d6 d7 d8 d9 d10 d11 d12 d13 d14 d15 d16 d17 d18 d19 : Card) :
  dealCards (front ++ [d19; d18; d17; d16; d15; d14; d13; d12; d11; d10;
                       d9; d8; d7; d6; d5; d4; d3; d2; d1; d0]) 4
  = ([[d0; d4; d8; d12; d16]; [d1; d5; d9; d13; d17];
      [d2; d6; d10; d14; d18]; [d3; d7; d11; d15; d19]], front).
Proof. apply dealCards_four_hands. Qed.

Lemma deal_card_length (st : list (list Card) * list Card) (j : nat) :
  length (deal_card st j).2 = (length st.2 - 1)%nat.
Proof.
  destruct st as [hands deckCopy]. unfold deal_card.
  destruct (array_pop deckCopy) as [[card|] rest] eqn:Hpop; simpl.
  - apply array_pop_Some in Hpop as ->. rewrite length_app. simpl. lia.
  - apply array_pop_None in Hpop as ->. done.
Qed.

Lemma deal_round_length (st : list (list Card) * list Card) (n : nat) :
  length (foldl deal_card st (seq 0 n)).2 = (length st.2 - n)%nat.
Proof.
  induction n as [|n IH]; [simpl; lia|].
  rewrite seq_S, foldl_app. simpl. rewrite deal_card_length, IH. lia.
Qed.

(** X3: [dealCards] neither makes nor loses a card, for any deck and any
    number of players: the hands and the deck it returns are a permutation of
    the deck it was given; there is one hand for each player; and a deck that
    is too short is dealt as far as it goes, without failing. *)
Theorem dealCards_conserves (deck : list Card) (playerCount : nat) :
  concat (dealCards deck playerCount).1 ++ (dealCards deck playerCount).2 ≡ₚ deck
  ∧ length (dealCards deck playerCount).1 = playerCount
  ∧ length (dealCards deck playerCount).2 = (length deck - 5 * playerCount)%nat
  ∧ length (concat (dealCards deck playerCount).1)
    = Nat.min (5 * playerCount) (length deck).
Proof.
  destruct (dealCards_perm deck playerCount) as [Hperm Hlen].
  assert (length (dealCards deck playerCount).2 = (length deck - 5 * playerCount)%nat)
    as Hrest.
  { unfold dealCards. cbn [seq foldl]. rewrite !deal_round_length. simpl. lia. }
  split_and!; [done|done|done|].
  apply Permutation_length in Hperm. rewrite length_app in Hperm. lia.
Qed.

(** X4: whatever [Math.random] draws, [createDeck] returns the forty cards:
    ids all different, every suit and rank of the game, each pair of a suit
    and a rank once, the value its rank has in the table, no card hidden. *)
Theorem createDeck_forty (w : World) :
  ∃ deck w',
    createDeck w = (Ok deck, w')
    ∧ length deck = 40%nat
    ∧ NoDup (map c_id deck)
    ∧ NoDup (map (λ c, (c_suit c, c_rank c)) deck)
    ∧ Forall (λ c, c_suit c ∈ suits ∧ c_rank c ∈ ranks
                   ∧ c_value c = values_at (c_rank c) ∧ c_isHidden c = false) deck
    ∧ same_documents w w'.
Proof.
  destruct (shuffle_run orderedDeck w) as (deck & w' & Hrun & Hperm & Hdocs).
  exists deck, w'. split; [exact Hrun|].
  split; [rewrite Hperm; by vm_compute|].
  split; [rewrite Hperm; apply orderedDeck_ids|].
  split; [rewrite Hperm; apply (bool_decide_unpack _); by vm_compute|].
  split; [|done]. rewrite Hperm.
  apply (bool_decide_unpack _). by vm_compute.
Qed.

Lemma reshuffleDeck_cases (deck discardPile : list Card) (w : World) :
  ∃ newDeck newPile w',
    reshuffleDeck deck discardPile w = (Ok (newDeck, newPile), w')
    ∧ same_documents w w'
    ∧ match discardPile with
      | [] | [_] => newDeck = deck ∧ newPile = discardPile ∧ w' = w
      | topDiscard :: cardsToShuffle =>
          newPile = [topDiscard] ∧ newDeck ≡ₚ deck ++ cardsToShuffle
      end.
Proof.
  unfold reshuffleDeck. destruct discardPile as [|top [|second rest]].
  - exists deck, [], w. by repeat split.
  - exists deck, [top], w. by repeat split.
  - unfold mbind, M_bind.
    destruct (shuffle_run (deck ++ second :: rest) w) as (newDeck & w' & -> & Hperm & Hdocs).
    by exists newDeck, [top], w'.
Qed.

(** X5: [reshuffleDeck] returns its arguments as they are when the discard
    pile has at most one card; otherwise the new discard pile is the top
    discard alone and the new deck is a permutation of the old deck and the
    rest of the pile.  It never fails and touches no document. *)
Theorem reshuffleDeck_spec (deck discardPile : list Card) (w : World) :
  ∃ newDeck newPile w',
    reshuffleDeck deck discardPile w = (Ok (newDeck, newPile), w')
    ∧ same_documents w w'
    ∧ match discardPile with
      | [] | [_] => newDeck = deck ∧ newPile = discardPile ∧ w' = w
      | topDiscard :: cardsToShuffle =>
          newPile = [topDiscard] ∧ newDeck ≡ₚ deck ++ cardsToShuffle
      end.
Proof. apply reshuffleDeck_cases. Qed.

Lemma calculateHandScore_cons (card : Card) (hand : list Card) :
  calculateHandScore (card :: hand) = c_value card + calculateHandScore hand.
Proof. apply (calculateHandScore_app [card] hand). Qed.

Lemma calculateHandScore_perm (hand1 hand2 : list Card) :
  hand1 ≡ₚ hand2 → calculateHandScore hand1 = calculateHandScore hand2.
Proof.
  induction 1 as [|c l l' _ IH|c c' l|l l' l'' _ IH1 _ IH2].
  - done.
  - by rewrite !calculateHandScore_cons, IH.
  - rewrite !calculateHandScore_cons. lia.
  - by rewrite IH1.
Qed.

(** Binary64 adds whole numbers up to 400 and up to 10 exactly: checked on
    each pair. *)
Lemma binary64_add_exact (a b : Z) :
  0 ≤ a ≤ 400 → 0 ≤ b ≤ 10 →
  (Z_to_float a + Z_to_float b)%float = Z_to_float (a + b).
Proof.
  intros Ha Hb.
  assert (forallb (λ a, forallb (λ b, PrimFloat.Leibniz.eqb
                                        (Z_to_float a + Z_to_float b)%float
                                        (Z_to_float (a + b)))
                                (seqZ 0 11))
                  (seqZ 0 401) = true) as Hall by (vm_compute; reflexivity).
  rewrite forallb_forall in Hall.
  specialize (Hall a). rewrite forallb_forall in Hall.
  apply FloatAxioms.Leibniz.eqb_spec, Hall.
  - apply list_elem_of_In, elem_of_seqZ. lia.
  - apply list_elem_of_In, elem_of_seqZ. lia.
Qed.

Lemma foldl_binary64_exact (hand : list Card) (acc : Z) :
  0 ≤ acc → acc + 10 * Z.of_nat (length hand) ≤ 400 →
  Forall (λ c, 0 ≤ c_value c ≤ 10) hand →
  foldl (λ sum card, (sum + Z_to_float (c_value card))%float) (Z_to_float acc) hand
  = Z_to_float (foldl (λ sum card, sum + c_value card) acc hand).
Proof.
  revert acc. induction hand as [|c hand IH]; intros acc Hlow Hhigh Hvalues; [done|].
  apply Forall_cons in Hvalues as [Hc Hvalues].
  cbn [foldl length] in *. rewrite binary64_add_exact by lia.
  apply IH; [lia|lia|done].
Qed.

(** On cards worth 0 to 10 each, forty at most, the binary64 sum of the
    source is the sum in whole numbers. *)
Lemma calculateHandScore_binary64_exact (hand : list Card) :
  Forall (λ c, 0 ≤ c_value c ≤ 10) hand → (length hand ≤ 40)%nat →
  calculateHandScore_binary64 hand = Z_to_float (calculateHandScore hand).
Proof.
  intros Hvalues Hlength. apply (foldl_binary64_exact hand 0); [lia|lia|done].
Qed.

(** X6: the score of a hand does not depend on the order of its cards.  For
    cards worth 0 to 10 each, forty at most (every hand of the game, masked
    cards included), the binary64 sum the source computes is the sum in whole
    numbers, so two hands with the same cards have the same score, as the
    source adds it and in whole numbers.  Without such a bound binary64
    rounds, and the order matters. *)
Theorem calculateHandScore_order (hand1 hand2 : list Card) :
  Forall (λ c, 0 ≤ c_value c ≤ 10) hand1 → (length hand1 ≤ 40)%nat →
  hand1 ≡ₚ hand2 →
  calculateHandScore_binary64 hand1 = Z_to_float (calculateHandScore hand1)
  ∧ calculateHandScore_binary64 hand1 = calculateHandScore_binary64 hand2
  ∧ calculateHandScore hand1 = calculateHandScore hand2.
Proof.
  intros Hvalues Hlength Hperm.
  pose proof (calculateHandScore_perm _ _ Hperm) as Hscore.
  split; [by apply calculateHandScore_binary64_exact|]. split; [|done].
  rewrite !calculateHandScore_binary64_exact, Hscore; try done.
  - by rewrite <- Hperm.
  - by rewrite <- Hperm.
Qed.

Lemma calculateHandScore_order_witness :
  calculateHandScore_binary64 (map card [0; 37; 12]%nat)
  = Z_to_float (calculateHandScore (map card [0; 37; 12]%nat))
  ∧ calculateHandScore_binary64 (map card [0; 37; 12]%nat)
    = calculateHandScore_binary64 (map card [12; 0; 37]%nat)
  ∧ calculateHandScore (map card [0; 37; 12]%nat)
    = calculateHandScore (map card [12; 0; 37]%nat).
Proof.
  apply (calculateHandScore_order (map card [0; 37; 12]%nat) (map card [12; 0; 37]%nat)).
  - apply (bool_decide_unpack _). vm_compute. reflexivity.
  - vm_compute. lia.
  - change (map card [0; 37; 12]%nat) with ([card 0; card 37] ++ [card 12]).
    change (map card [12; 0; 37]%nat) with ([card 12] ++ [card 0; card 37]).
    apply Permutation_app_comm.
Defined.

Lemma sort_insert_sorted {A} (gtb : A → A → bool) (R : A → A → Prop) (x : A)
    (l : list A) :
  Transitive R →
  (∀ a b, gtb a b = true → R b a) →
  (∀ a b, gtb a b = false → R a b) →
  StronglySorted R l →
  StronglySorted R (sort_insert gtb x l).
Proof.
  intros Htrans Hgt Hle. induction 1 as [|y ys Hsorted IH Hall]; simpl.
  { repeat constructor. }
  destruct (gtb x y) eqn:Hxy.
  - constructor; [done|].
    rewrite sort_insert_perm. constructor; [by apply Hgt|done].
  - constructor; [by constructor|].
    constructor; [by apply Hle|].
    eapply Forall_impl; [exact Hall|]. simpl. intros z Hz.
    by transitivity y; [apply Hle|].
Qed.

Lemma js_sort_sorted {A} (gtb : A → A → bool) (R : A → A → Prop) (l : list A) :
  Transitive R →
  (∀ a b, gtb a b = true → R b a) →
  (∀ a b, gtb a b = false → R a b) →
  StronglySorted R (js_sort gtb l).
Proof.
  intros Htrans Hgt Hle. unfold js_sort.
  induction l as [|x l IH]; simpl; [constructor|].
  by apply sort_insert_sorted.
Qed.

(** X7: [sortCardsByValue] returns the same cards, by values that never
    decrease for an ascending sort and never increase for a descending one. *)
Theorem sortCardsByValue_sorted (cards : list Card) (ascending : bool) :
  sortCardsByValue cards ascending ≡ₚ cards
  ∧ StronglySorted
      (λ a b, if ascending then c_value a ≤ c_value b else c_value b ≤ c_value a)
      (sortCardsByValue cards ascending).
Proof.
  split; [apply js_sort_perm|].
  unfold sortCardsByValue. apply js_sort_sorted.
  - intros a b c. destruct ascending; lia.
  - intros a b. destruct ascending; intros H%Z.ltb_lt; lia.
  - intros a b. destruct ascending; intros H%Z.ltb_ge; lia.
Qed.

(** X8: [removeCardById] takes out the first card with the given id and
    returns it, leaving the other cards in their order; when no card has the
    id it returns [null] and leaves the array as it is. *)
Theorem removeCardById_spec (cards : list Card) (cardId : string) :
  match removeCardById cards cardId with
  | (Some card, rest) =>
      c_id card = cardId
      ∧ findCardById cards cardId = Some card
      ∧ (∃ index, cards !! index = Some card ∧ rest = delete index cards
                  ∧ ∀ k c, (k < index)%nat → cards !! k = Some c → c_id c ≠ cardId)
      ∧ cards ≡ₚ card :: rest
  | (None, rest) =>
      rest = cards ∧ findCardById cards cardId = None
      ∧ ∀ c, c ∈ cards → c_id c ≠ cardId
  end.
Proof.
  unfold removeCardById, findCardById. rewrite find_findIndex.
  induction cards as [|c cards IH]; simpl; [by split_and!; [..|intros ? ?%elem_of_nil]|].
  destruct (String.eqb_spec (c_id c) cardId) as [Hid|Hid]; simpl.
  { split_and!; [done|done| |done]. exists 0%nat. split_and!; [done|done|intros; lia]. }
  destruct (findIndex _ cards) as [index|]; simpl in *.
  - destruct (cards !! index) as [card|] eqn:Hcard; simpl in *.
    + destruct IH as (? & ? & (index' & Hlookup & Hrest & Hfirst) & Hperm).
      split_and!; [done|done| |].
      * exists (S index'). split_and!; [done|by rewrite Hrest|].
        intros [|k] c' Hk Hc'; simpl in *; [by simplify_eq|].
        apply (Hfirst k); [lia|done].
      * rewrite (Permutation_swap c card). by apply Permutation_skip.
    + destruct IH as (_ & _ & Hnone). split_and!; [done|done|].
      intros c' [->|Hin]%elem_of_cons; [done|by apply Hnone].
  - destruct IH as (_ & _ & Hnone). split_and!; [done|done|].
    intros c' [->|Hin]%elem_of_cons; [done|by apply Hnone].
Qed.

(** ** Grouping by a key *)

Lemma group_get_push {V} (key key' : string) (v : V) (groups : list (string * list V)) :
  group_get key' (group_push key v groups)
  = if String.eqb key' key then group_get key groups ++ [v] else group_get key' groups.
Proof.
  induction groups as [|[k vs] groups IH]; simpl.
  { by destruct (String.eqb key' key). }
  destruct (String.eqb_spec key k) as [->|Hk]; simpl.
  - by destruct (String.eqb key' k).
  - rewrite IH. destruct (String.eqb_spec key' k) as [->|Hk']; [|done].
    by destruct (String.eqb_spec k key) as [->|_].
Qed.

Lemma group_push_keys {V} (key : string) (v : V) (groups : list (string * list V)) :
  map fst (group_push key v groups)
  = if bool_decide (key ∈ map fst groups) then map fst groups
    else map fst groups ++ [key].
Proof.
  induction groups as [|[k vs] groups IH]; simpl; [done|].
  destruct (String.eqb_spec key k) as [->|Hk]; simpl.
  - rewrite bool_decide_eq_true_2; [done|left].
  - rewrite IH. destruct (bool_decide (key ∈ map fst groups)) eqn:Hin.
    + apply bool_decide_eq_true in Hin.
      rewrite bool_decide_eq_true_2; [done|by right].
    + apply bool_decide_eq_false in Hin.
      rewrite bool_decide_eq_false_2; [done|].
      intros [?|?]%elem_of_cons; done.
Qed.

Lemma group_push_nonempty {V} (key : string) (v : V) (groups : list (string * list V)) :
  Forall (λ kv, kv.2 ≠ []) groups →
  Forall (λ kv, kv.2 ≠ []) (group_push key v groups).
Proof.
  induction 1 as [|[k vs] groups Hvs Hgroups IH]; simpl.
  { by repeat constructor. }
  destruct (String.eqb key k); constructor; try done.
  simpl. by destruct vs.
Qed.

Lemma group_get_elem {V} (key : string) (vs : list V) (groups : list (string * list V)) :
  NoDup (map fst groups) → (key, vs) ∈ groups → group_get key groups = vs.
Proof.
  induction groups as [|[k ws] groups IH]; simpl; intros Hnodup Hin.
  { by apply elem_of_nil in Hin. }
  apply NoDup_cons in Hnodup as [Hk Hnodup].
  apply elem_of_cons in Hin as [[= -> ->]|Hin]; [by rewrite String.eqb_refl|].
  destruct (String.eqb_spec key k) as [->|_]; [|by apply IH].
  destruct Hk. apply list_elem_of_fmap. by exists (k, vs).
Qed.

(** The groups after the elements of [l] have been pushed under their keys. *)
Lemma group_fold {V} (keyOf : V → string) (l : list V) (groups : list (string * list V)) :
  let result := foldl (λ groups x, group_push (keyOf x) x groups) groups l in
  (∀ key, group_get key result = group_get key groups ++ filter (λ x, keyOf x = key) l)
  ∧ (NoDup (map fst groups) → NoDup (map fst result))
  ∧ (∀ key, key ∈ map fst result ↔ key ∈ map fst groups ∨ key ∈ map keyOf l)
  ∧ (Forall (λ kv, kv.2 ≠ []) groups → Forall (λ kv, kv.2 ≠ []) result).
Proof.
  revert groups. induction l as [|x l IH]; intros groups; simpl.
  { split_and!; [intros; by rewrite app_nil_r|done| |done].
    intros key. split; [by left|]. intros [?|?%elem_of_nil]; done. }
  destruct (IH (group_push (keyOf x) x groups)) as (Hget & Hnodup & Hkeys & Hne).
  split_and!.
  - intros key. rewrite Hget, group_get_push, filter_cons.
    destruct (String.eqb_spec key (keyOf x)) as [->|Hkey].
    + rewrite decide_True by done. by rewrite <- app_assoc.
    + by rewrite decide_False.
  - intros Hgroups. apply Hnodup. rewrite group_push_keys.
    case_bool_decide; [done|].
    apply NoDup_app. split_and!; [done| |apply NoDup_singleton].
    intros key Hin ->%list_elem_of_singleton. done.
  - intros key. rewrite Hkeys, group_push_keys.
    case_bool_decide as Hin; rewrite ?elem_of_app, ?list_elem_of_singleton, elem_of_cons;
      [|tauto].
    split; [tauto|]. intros [?|[->|?]]; tauto.
  - intros Hgroups. by apply Hne, group_push_nonempty.
Qed.

(** X9: [groupCardsByRank] and [groupCardsBySuit] file every card under its
    rank, or its suit: the group of a key holds exactly the cards with that
    key, in the order of the array, and a key is listed, once, exactly when
    some card has it. *)
Theorem groupCards_spec (cards : list Card) :
  (∀ rank, group_get rank (groupCardsByRank cards)
           = filter (λ c, c_rank c = rank) cards)
  ∧ NoDup (map fst (groupCardsByRank cards))
  ∧ (∀ rank, rank ∈ map fst (groupCardsByRank cards) ↔ rank ∈ map c_rank cards)
  ∧ (∀ suit, group_get suit (groupCardsBySuit cards)
             = filter (λ c, c_suit c = suit) cards)
  ∧ NoDup (map fst (groupCardsBySuit cards))
  ∧ (∀ suit, suit ∈ map fst (groupCardsBySuit cards) ↔ suit ∈ map c_suit cards).
Proof.
  destruct (group_fold c_rank cards []) as (Hget & Hnodup & Hkeys & _).
  destruct (group_fold c_suit cards []) as (Hget' & Hnodup' & Hkeys' & _).
  split_and!; [apply Hget|apply Hnodup, NoDup_nil_2| |apply Hget'
               |apply Hnodup', NoDup_nil_2|].
  - intros rank. rewrite Hkeys. simpl. rewrite elem_of_nil. tauto.
  - intros suit. rewrite Hkeys'. simpl. rewrite elem_of_nil. tauto.
Qed.

(** ** Valid spreads *)

Lemma sort_insert_map {A} (key : A → Z) (x : A) (l : list A) :
  map key (sort_insert (λ a b, 0 <? key a - key b) x l)
  = sort_insert (λ a b, 0 <? a - b) (key x) (map key l).
Proof.
  induction l as [|y l IH]; simpl; [done|].
  destruct (0 <? key x - key y); simpl; [by rewrite IH|done].
Qed.

Lemma js_sort_map {A} (key : A → Z) (l : list A) :
  map key (js_sort (λ a b, 0 <? key a - key b) l)
  = js_sort (λ a b, 0 <? a - b) (map key l).
Proof.
  unfold js_sort. induction l as [|x l IH]; simpl; [done|].
  by rewrite sort_insert_map, IH.
Qed.

Lemma js_sort_values_perm (l l' : list Z) :
  l ≡ₚ l' → js_sort (λ a b, 0 <? a - b) l = js_sort (λ a b, 0 <? a - b) l'.
Proof.
  intros Hperm.
  apply (StronglySorted_unique Z.le).
  - apply js_sort_sorted; [apply _|intros a b H%Z.ltb_lt; lia|intros a b H%Z.ltb_ge; lia].
  - apply js_sort_sorted; [apply _|intros a b H%Z.ltb_lt; lia|intros a b H%Z.ltb_ge; lia].
  - by rewrite !js_sort_perm.
Qed.

Lemma chain_map (ordered : list Card) :
  forallb (λ '(prev, next), c_value next =? c_value prev + 1)
          (zip ordered (drop 1 ordered))
  = chain (map c_value ordered).
Proof.
  unfold chain. destruct ordered as [|x l]; [done|]. simpl. rewrite !drop_0.
  revert x. induction l as [|y l IH]; intros x; simpl; [done|].
  by rewrite IH.
Qed.

Lemma all_same_true {A} (keyOf : A → string) (l : list A) :
  all_same keyOf l = true ↔ ∀ x y, x ∈ l → y ∈ l → keyOf x = keyOf y.
Proof.
  destruct l as [|first l]; simpl.
  { split; [|done]. by intros _ x y ?%elem_of_nil. }
  rewrite String.eqb_refl. simpl. rewrite forallb_forall. split.
  - intros Hall x y Hx Hy.
    assert (∀ z, z ∈ first :: l → keyOf z = keyOf first) as Hfirst.
    { intros z [->|Hz]%elem_of_cons; [done|].
      apply String.eqb_eq, Hall. by apply list_elem_of_In. }
    by rewrite (Hfirst x), (Hfirst y).
  - intros Hall x Hx%list_elem_of_In. apply String.eqb_eq, Hall; [by right|left].
Qed.

Lemma all_same_perm {A} (keyOf : A → string) (l l' : list A) :
  l ≡ₚ l' → all_same keyOf l = all_same keyOf l'.
Proof.
  intros Hperm.
  destruct (all_same keyOf l) eqn:Hl, (all_same keyOf l') eqn:Hl'; try done.
  - pose proof (proj1 (all_same_true keyOf l) Hl) as Hall.
    rewrite <- Hl'. symmetry. apply all_same_true.
    intros x y Hx Hy. apply Hall; by rewrite Hperm.
  - pose proof (proj1 (all_same_true keyOf l') Hl') as Hall.
    rewrite <- Hl. apply all_same_true.
    intros x y Hx Hy. apply Hall; by rewrite <- Hperm.
Qed.

(** [isValidSpread] through the list of the values of its valid cards. *)
Lemma isValidSpread_values (cards : list Card) :
  isValidSpread cards
  = let validCards := filter (λ card, truthy (c_rank card) && truthy (c_suit card)) cards in
    let values := js_sort (λ a b, 0 <? a - b) (map c_value validCards) in
    negb (length cards <? 3)%nat && negb (length validCards <? 3)%nat
    && (all_same c_rank validCards
        || (all_same c_suit validCards
            && (length (remove_dups values) =? length values)%nat
            && chain values)).
Proof.
  unfold isValidSpread. simpl.
  destruct (length cards <? 3)%nat; [done|]. simpl.
  set (validCards := filter _ cards).
  destruct (length validCards <? 3)%nat eqn:Hlen; [done|]. simpl.
  destruct validCards as [|first rest] eqn:Hvalid; [done|].
  rewrite <- Hvalid.
  assert (forallb (λ card, String.eqb (c_rank card) (c_rank first)) validCards
          = all_same c_rank validCards) as -> by by rewrite Hvalid.
  assert (forallb (λ card, String.eqb (c_suit card) (c_suit first)) validCards
          = all_same c_suit validCards) as -> by by rewrite Hvalid.
  destruct (all_same c_rank validCards); [done|]. simpl.
  destruct (all_same c_suit validCards); [|done]. simpl.
  rewrite chain_map, js_sort_map.
  by destruct (length _ =? length _)%nat.
Qed.

(** X10: [isValidSpread] does not depend on the order in which the cards are
    listed. *)
Theorem isValidSpread_order (cards cards' : list Card) :
  cards ≡ₚ cards' → isValidSpread cards = isValidSpread cards'.
Proof.
  intros Hperm. rewrite !isValidSpread_values. simpl.
  assert (filter (λ card, truthy (c_rank card) && truthy (c_suit card)) cards
          ≡ₚ filter (λ card, truthy (c_rank card) && truthy (c_suit card)) cards')
    as Hvalid by by rewrite Hperm.
  rewrite (Permutation_length Hperm), (Permutation_length Hvalid).
  rewrite (all_same_perm c_rank _ _ Hvalid), (all_same_perm c_suit _ _ Hvalid).
  by rewrite (js_sort_values_perm _ _ (Permutation_map c_value Hvalid)).
Qed.

(** The three, four and five of spades, in two orders. *)
Lemma isValidSpread_order_witness :
  isValidSpread (map card [34; 32; 33]%nat) = true
  ∧ isValidSpread (map card [32; 33; 34]%nat) = true.
Proof.
  assert (isValidSpread (map card [34; 32; 33]%nat)
          = isValidSpread (map card [32; 33; 34]%nat)) as Heq.
  { apply isValidSpread_order.
    change (map card [34; 32; 33]%nat) with ([card 34] ++ [card 32; card 33]).
    change (map card [32; 33; 34]%nat) with ([card 32; card 33] ++ [card 34]).
    apply Permutation_app_comm. }
  split; [rewrite Heq|]; vm_compute; reflexivity.
Defined.

(** * Further properties of the rules *)

Lemma find_None {A} (pred : A → bool) (l : list A) :
  find pred l = None ↔ ∀ x, x ∈ l → pred x = false.
Proof.
  induction l as [|y l IH]; simpl.
  { split; [|done]. by intros _ x ?%elem_of_nil. }
  destruct (pred y) eqn:Hy.
  - split; [done|]. intros Hall. rewrite Hall in Hy; [done|left].
  - rewrite IH. split.
    + intros Hall x [->|Hx]%elem_of_cons; [done|by apply Hall].
    + intros Hall x Hx. apply Hall. by right.
Qed.

(** X11: [wouldHitSpread] answers with a hit exactly when the card hits an
    existing spread of a player whose id is not the one of [targetPlayer]:
    the player and the spread it names are such a pair, and it answers
    [{ hit: false }] only when there is none. *)
Theorem wouldHitSpread_spec (card : Card) (targetPlayer : Player) (allPlayers : list Player) :
  match wouldHitSpread card targetPlayer allPlayers with
  | Some (playerId, spread) =>
      ∃ player,
        player ∈ allPlayers ∧ p_id player = playerId
        ∧ playerId ≠ p_id targetPlayer
        ∧ spread ∈ findExistingSpreads (p_hand player)
        ∧ cardHitsSpread card spread = true
  | None =>
      ∀ player spread,
        player ∈ allPlayers → p_id player ≠ p_id targetPlayer →
        spread ∈ findExistingSpreads (p_hand player) →
        cardHitsSpread card spread = false
  end.
Proof.
  induction allPlayers as [|q players IH]; simpl.
  { by intros player spread ?%elem_of_nil. }
  destruct (String.eqb_spec (p_id q) (p_id targetPlayer)) as [Hid|Hid].
  { destruct (wouldHitSpread card targetPlayer players) as [[playerId spread]|].
    - destruct IH as (player & ? & ?). exists player. split; [by right|done].
    - intros player spread [->|Hin]%elem_of_cons Hne; [done|by apply IH]. }
  destruct (find (cardHitsSpread card) (findExistingSpreads (p_hand q)))
    as [spread|] eqn:Hfind.
  { apply find_Some in Hfind as [Hin Hhit]. exists q. split_and!; try done. left. }
  destruct (wouldHitSpread card targetPlayer players) as [[playerId spread]|].
  - destruct IH as (player & ? & ?). exists player. split; [by right|done].
  - intros player spread [->|Hin]%elem_of_cons Hne Hspread; [|by eapply IH].
    by eapply find_None in Hfind.
Qed.

(** Every seat after a draw at seat [i], for the one card drawn. *)
Lemma handleDraw_seats (game : Game) (i : nat) (fromDiscard : bool) (w w' : World)
    (game' : Game) :
  handleDraw game i fromDiscard w = (Ok game', w') →
  ∃ drawer drawnCard,
    g_players game !! i = Some drawer
    ∧ drawnCard :: g_deck game' ++ g_discardPile game'
        ≡ₚ g_deck game ++ g_discardPile game
    ∧ ∀ j p,
        g_players game !! j = Some p →
        g_players game' !! j
        = Some (if decide (i = j) then refresh_player true (push_card drawnCard p)
                else if fromDiscard then p
                else penalize drawnCard (p_id drawer)
                       (alter (push_card drawnCard) i (g_players game)) p).
Proof.
  intros Hrun.
  apply handleDraw_Ok in Hrun
    as (player & drawnCard & F & Hplayer & Hzones & HF & Hplayers & _).
  exists player, drawnCard. split; [done|]. split; [done|].
  intros j p Hp. rewrite Hplayers.
  destruct (decide (i = j)) as [->|Hne].
  - rewrite list_lookup_alter_eq, list_lookup_fmap, list_lookup_alter_eq, Hp. simpl.
    destruct fromDiscard; subst F; [done|].
    unfold penalize. simpl.
    rewrite Hp in Hplayer. injection Hplayer as ->. by rewrite String.eqb_refl.
  - rewrite list_lookup_alter_ne, list_lookup_fmap, list_lookup_alter_ne, Hp by done.
    simpl. by destruct fromDiscard; subst F.
Qed.

(** X12: what a draw does to the penalties.  A successful draw at seat [i]
    moves one card, the drawn card, from the deck and the discard pile to the
    end of the hand of the drawer.  With that card, the player at any seat
    [j] has penalties [2 + hitCount] and one more hit when the draw was from
    the deck, the player's id is not the drawer's and [wouldHitSpread] reports
    a hit for that player on the players as they are with the drawn card in
    the drawer's hand; in every other case, so for the drawer and after any
    draw from the discard pile, penalties and hit count are the ones
    before. *)
Theorem draw_penalties (game : Game) (i : nat) (fromDiscard : bool) (w w' : World)
    (game' : Game) :
  handleDraw game i fromDiscard w = (Ok game', w') →
  ∃ drawer drawer' drawnCard,
    g_players game !! i = Some drawer
    ∧ g_players game' !! i = Some drawer'
    ∧ p_hand drawer' = p_hand drawer ++ [drawnCard]
    ∧ drawnCard :: g_deck game' ++ g_discardPile game'
        ≡ₚ g_deck game ++ g_discardPile game
    ∧ ∀ j p,
        g_players game !! j = Some p →
        ∃ p',
          g_players game' !! j = Some p'
          ∧ let penalized :=
              negb fromDiscard && negb (String.eqb (p_id p) (p_id drawer))
              && bool_decide (is_Some (wouldHitSpread drawnCard p
                                         (alter (push_card drawnCard) i
                                                (g_players game)))) in
            p_penalties p' = (if penalized then 2 + p_hitCount p else p_penalties p)
            ∧ p_hitCount p' = (if penalized then p_hitCount p + 1 else p_hitCount p)
            ∧ p_id p' = p_id p.
Proof.
  intros Hrun.
  destruct (handleDraw_seats _ _ _ _ _ _ Hrun)
    as (drawer & drawnCard & Hdrawer & Hzones & Hseats).
  exists drawer, (refresh_player true (push_card drawnCard drawer)), drawnCard.
  split; [done|]. split.
  { rewrite (Hseats i drawer Hdrawer). by rewrite decide_True. }
  split; [done|]. split; [done|].
  intros j p Hp. eexists. split; [exact (Hseats j p Hp)|]. simpl.
  destruct (decide (i = j)) as [->|Hne].
  { rewrite Hp in Hdrawer. injection Hdrawer as ->.
    rewrite String.eqb_refl, andb_false_r. done. }
  destruct fromDiscard; [done|]. simpl. unfold penalize.
  destruct (String.eqb (p_id p) (p_id drawer)); [done|]. simpl.
  destruct (wouldHitSpread _ _ _) as [hit|].
  - by rewrite bool_decide_eq_true_2.
  - rewrite bool_decide_eq_false_2; [done|]. by intros [? ?].
Qed.

(** u1 draws the seven of clubs in [late_game]: it ends the hand of u1, and
    ai-3 has penalties 2 and one hit. *)
Lemma draw_penalties_witness :
  ∃ drawer' p',
    g_players late_game_drawn !! 0%nat = Some drawer'
    ∧ last (p_hand drawer') = Some (card 26)
    ∧ g_players late_game_drawn !! 3%nat = Some p'
    ∧ p_penalties p' = 2 ∧ p_hitCount p' = 1.
Proof.
  destruct (draw_penalties late_game 0 false (sample_world late_game)
              (handleDraw late_game 0 false (sample_world late_game)).2
              late_game_drawn)
    as (drawer & drawer' & drawnCard & Hdrawer & Hdrawer' & Hhand & _ & Hseats);
    [vm_compute; reflexivity|].
  destruct (Hseats 3%nat (seated "ai-3" "Expert AI" true [3; 15; 20; 31; 28]%nat false))
    as (p' & Hseat & _); [reflexivity|].
  exists drawer', p'. split; [exact Hdrawer'|].
  assert ((last ∘ p_hand <$> g_players late_game_drawn !! 0%nat) = Some (Some (card 26)))
    as Hlast by (vm_compute; reflexivity).
  rewrite Hdrawer' in Hlast. injection Hlast as Hlast.
  split; [exact Hlast|]. split; [exact Hseat|].
  assert (((λ q, (p_penalties q, p_hitCount q)) <$> g_players late_game_drawn !! 3%nat)
          = Some (2, 1)) as Heq by (vm_compute; reflexivity).
  rewrite Hseat in Heq. injection Heq as -> ->. split; reflexivity.
Defined.

(** ** Combinations and playable spreads *)

Lemma elem_of_concat_map {A B} (f : A → list B) (l : list A) (y : B) :
  y ∈ concat (map f l) ↔ ∃ x, x ∈ l ∧ y ∈ f x.
Proof.
  rewrite list_elem_of_In, in_concat. split.
  - intros (ys & (x & <- & Hx)%in_map_iff & Hy).
    exists x. by rewrite !list_elem_of_In.
  - intros (x & Hx & Hy). exists (f x). rewrite <- !list_elem_of_In.
    split; [|done]. apply list_elem_of_In, in_map. by apply list_elem_of_In.
Qed.

Lemma elem_of_map_iff {A B} (f : A → B) (l : list A) (y : B) :
  y ∈ map f l ↔ ∃ x, y = f x ∧ x ∈ l.
Proof.
  rewrite list_elem_of_In, in_map_iff. split.
  - intros (x & <- & Hx). exists x. by rewrite list_elem_of_In.
  - intros (x & -> & Hx). exists x. by rewrite <- list_elem_of_In.
Qed.

Lemma getCombinations_sublists {A} (arr : list A) (size : nat) (combo : list A) :
  (1 ≤ size)%nat →
  combo ∈ getCombinations arr size ↔ combo `sublist_of` arr ∧ length combo = size.
Proof.
  intros Hsize. destruct size as [|size]; [lia|clear Hsize].
  revert arr combo. induction size as [|size IH]; intros arr combo.
  { simpl. rewrite elem_of_map_iff. split.
    - intros (x & -> & Hx). split; [|done].
      apply list_elem_of_split in Hx as (l1 & l2 & ->).
      apply sublist_inserts_l. constructor. apply sublist_nil_l.
    - intros [Hsub Hlen]. destruct combo as [|x [|]]; simplify_eq/=.
      exists x. split; [done|].
      apply sublist_cons_l in Hsub as (k1 & k2 & -> & _).
      apply elem_of_app. right. left. }
  change (getCombinations arr (S (S size)))
    with (if (length arr <? S (S size))%nat then []
          else concat (map (λ i, match arr !! i with
                                 | Some x => map (cons x)
                                               (getCombinations (drop (S i) arr) (S size))
                                 | None => []
                                 end)
                           (seq 0 (length arr - S (S size) + 1)))).
  destruct (Nat.ltb_spec (length arr) (S (S size))) as [Hshort|Hlong].
  { split; [by intros ?%elem_of_nil|].
    intros [Hsub%sublist_length Hlen]. lia. }
  rewrite elem_of_concat_map. split.
  - intros (i & Hi & Hcombo).
    destruct (arr !! i) as [x|] eqn:Hx; [|by apply elem_of_nil in Hcombo].
    apply elem_of_map_iff in Hcombo as (rest & -> & Hrest).
    apply IH in Hrest as [Hsub Hlen]. split; [|simpl; lia].
    rewrite <- (take_drop_middle _ _ _ Hx).
    apply sublist_inserts_l. by constructor.
  - intros [Hsub Hlen]. destruct combo as [|x rest]; [done|].
    apply sublist_cons_l in Hsub as (k1 & k2 & -> & Hrest).
    pose proof (sublist_length _ _ Hrest) as Hle.
    rewrite length_app in Hlong. simpl in *.
    exists (length k1). split.
    + apply elem_of_seq. rewrite length_app. simpl. lia.
    + rewrite list_lookup_middle by done.
      apply elem_of_map_iff. exists rest. split; [done|].
      apply IH. split; [|lia].
      assert (drop (S (length k1)) (k1 ++ x :: k2) = k2) as ->; [|done].
      rewrite cons_middle, app_assoc. apply drop_app_length'.
      rewrite length_app. simpl. lia.
Qed.

(** X13: for a size of at least 1, [getCombinations] lists exactly the
    selections of [size] elements of the array taken in the order of the
    array: each combination is a sublist of that length, and each such
    sublist is listed. *)
Theorem getCombinations_spec {A} (arr : list A) (size : nat) (combo : list A) :
  (1 ≤ size)%nat →
  combo ∈ getCombinations arr size ↔ combo `sublist_of` arr ∧ length combo = size.
Proof. apply getCombinations_sublists. Qed.

Lemma getCombinations_spec_witness :
  [card 0; card 2] ∈ getCombinations [card 0; card 1; card 2] 2.
Proof.
  apply (proj2 (getCombinations_spec [card 0; card 1; card 2] 2 [card 0; card 2]
                  ltac:(lia))).
  split; [|reflexivity].
  apply sublist_skip, sublist_cons, sublist_skip, sublist_nil.
Defined.

Lemma isValidSpread_length (cards : list Card) :
  isValidSpread cards = true → (3 ≤ length cards)%nat.
Proof.
  unfold isValidSpread. destruct (Nat.ltb_spec (length cards) 3); [done|lia].
Qed.

(** X14: [findPlayableSpreads] lists exactly the valid spreads that can be
    picked from the hand in the order of the hand: every entry is a sublist of
    the hand, of three cards or more, accepted by [isValidSpread], with the
    sum of its values as score; and every sublist of the hand that
    [isValidSpread] accepts is the cards of some entry. *)
Theorem findPlayableSpreads_spec (hand : list Card) :
  (∀ spread,
     spread ∈ findPlayableSpreads hand →
     ps_cards spread `sublist_of` hand
     ∧ (3 ≤ length (ps_cards spread))%nat
     ∧ isValidSpread (ps_cards spread) = true
     ∧ ps_score spread = calculateHandScore (ps_cards spread))
  ∧ (∀ combo,
       combo `sublist_of` hand → isValidSpread combo = true →
       ∃ spread, spread ∈ findPlayableSpreads hand ∧ ps_cards spread = combo).
Proof.
  unfold findPlayableSpreads. split.
  - intros spread (size & Hsize & Hin)%elem_of_concat_map.
    apply elem_of_seq in Hsize.
    apply list_elem_of_omap in Hin as (combo & Hcombo & Hvalid).
    apply getCombinations_sublists in Hcombo as [Hsub Hlen]; [|lia].
    destruct (isValidSpread combo) eqn:Hok; [|done].
    injection Hvalid as <-. simpl. split_and!; [done|lia|done|done].
  - intros combo Hsub Hvalid.
    pose proof (isValidSpread_length _ Hvalid) as Hlen.
    pose proof (sublist_length _ _ Hsub) as Hle.
    eexists. split; [|shelve].
    apply elem_of_concat_map. exists (length combo). split.
    + apply elem_of_seq. lia.
    + apply list_elem_of_omap. exists combo. split.
      * apply getCombinations_sublists; [lia|done].
      * rewrite Hvalid. reflexivity.
    Unshelve. reflexivity.
Qed.

(** ** Validation and application *)

Lemma isValidMove_Valid (game : Game) (playerId action : string) (data : MoveData) :
  isValidMove game playerId action data = Valid →
  ∃ player,
    findIndex (λ p, String.eqb (p_id p) playerId) (g_players game)
    = Some (g_currentPlayerIndex game)
    ∧ g_players game !! g_currentPlayerIndex game = Some player
    ∧ p_id player = playerId ∧ p_isDropped player = false
    ∧ ((action = "draw" ∧ validateDraw game player data = Valid)
       ∨ (action = "discard" ∧ validateDiscard game player data = Valid)
       ∨ (action = "drop" ∧ validateDrop game player data = Valid)
       ∨ (action = "spread" ∧ validateSpread game player data = Valid)).
Proof.
  unfold isValidMove. rewrite find_findIndex.
  destruct (findIndex _ (g_players game)) as [index|] eqn:Hindex; [|done]. simpl.
  destruct (g_players game !! index) as [player|] eqn:Hplayer; [|done].
  destruct (p_isDropped player) eqn:Hdropped; [done|].
  destruct (Nat.eqb_spec (g_currentPlayerIndex game) index) as [->|]; [|done]. simpl.
  intros Hvalid. exists player.
  apply findIndex_Some in Hindex as Hfound. destruct Hfound as (q & Hq & Hid).
  rewrite Hplayer in Hq. injection Hq as <-. apply String.eqb_eq in Hid.
  split_and!; [done..|].
  destruct (String.eqb_spec action "draw"); [by left|].
  destruct (String.eqb_spec action "discard"); [by right; left|].
  destruct (String.eqb_spec action "drop"); [by right; right; left|].
  destruct (String.eqb_spec action "spread"); [by right; right; right|done].
Qed.

(** X15: a move is accepted only from the player whose turn it is: when
    [isValidMove] answers valid, the player with the given id sits at
    [currentPlayerIndex], has not dropped, and the action is one of draw,
    discard, drop and spread. *)
Theorem valid_move_is_current (game : Game) (playerId action : string) (data : MoveData) :
  isValidMove game playerId action data = Valid →
  ∃ player,
    g_players game !! g_currentPlayerIndex game = Some player
    ∧ p_id player = playerId
    ∧ p_isDropped player = false
    ∧ action ∈ ["draw"; "discard"; "drop"; "spread"].
Proof.
  intros (player & _ & Hplayer & Hid & Hactive & Haction)%isValidMove_Valid.
  exists player. split_and!; [done..|].
  destruct Haction as [[-> _]|[[-> _]|[[-> _]|[-> _]]]]; set_solver.
Qed.

Lemma valid_move_is_current_witness :
  ∃ player,
    g_players opening_game !! 0%nat = Some player
    ∧ p_id player = "u1" ∧ p_isDropped player = false.
Proof.
  destruct (valid_move_is_current opening_game "u1" "draw"
              (mkMoveData None None (Some "deck")) eq_refl)
    as (player & Hplayer & Hid & Hactive & _).
  by exists player.
Defined.

Lemma existsb_findIndex {A} (pred : A → bool) (l : list A) :
  existsb pred l = true → is_Some (findIndex pred l).
Proof.
  induction l as [|x l IH]; simpl; [done|].
  destruct (pred x); [by eexists|]. simpl. intros [i ->]%IH. by eexists.
Qed.

(** X16: a discard that [isValidMove] accepts is applied without an
    exception and without a change to the world: the card named leaves the
    hand of the player, whose score is the score of the remaining hand, and
    lies on top of the discard pile; the deck is as before. *)
Theorem valid_discard_applies (game : Game) (playerId : string) (data : MoveData)
    (w : World) :
  isValidMove game playerId "discard" data = Valid →
  ∃ cardId cardIndex card player player' game',
    d_cardId data = Some cardId
    ∧ handleDiscard game (g_currentPlayerIndex game) cardId w = (Ok game', w)
    ∧ g_players game !! g_currentPlayerIndex game = Some player
    ∧ p_hand player !! cardIndex = Some card ∧ c_id card = cardId
    ∧ g_players game' !! g_currentPlayerIndex game = Some player'
    ∧ p_hand player' = delete cardIndex (p_hand player)
    ∧ p_score player' = calculateHandScore (p_hand player')
    ∧ p_hasDrawn player' = false
    ∧ g_discardPile game' = card :: g_discardPile game
    ∧ g_deck game' = g_deck game.
Proof.
  intros (player & _ & Hplayer & Hid & Hactive & Haction)%isValidMove_Valid.
  destruct Haction as [[? _]|[[_ Hvalid]|[[? _]|[? _]]]]; try done.
  unfold validateDiscard in Hvalid.
  destruct (d_cardId data) as [cardId|] eqn:Hcard; [|done].
  destruct (truthy cardId); [|done]. simpl in Hvalid.
  destruct (existsb _ (p_hand player)) eqn:Hexists; [|done].
  apply existsb_findIndex in Hexists as [cardIndex Hfind].
  pose proof Hfind as (card & Hlookup & Heq%String.eqb_eq)%findIndex_Some.
  eexists cardId, cardIndex, card, player, _, _.
  split; [done|]. split.
  { unfold handleDiscard. rewrite Hplayer, Hfind, Hlookup. reflexivity. }
  split; [done|]. split; [done|]. split; [done|]. split.
  { simpl. rewrite list_lookup_fmap, !list_lookup_alter_eq, Hplayer. reflexivity. }
  destruct (decrement_penalty_fields
              (refresh_player false (set_hand (delete cardIndex (p_hand player)) player)))
    as (Hhand & Hscore & _).
  rewrite Hhand, Hscore. split_and!; try done.
  unfold decrement_penalty. by destruct (0 <? _).
Qed.

Lemma valid_discard_applies_witness :
  ∃ game' chosen,
    handleDiscard opening_game 0 "card-0" (sample_world opening_game)
    = (Ok game', sample_world opening_game)
    ∧ c_id chosen = "card-0"
    ∧ g_discardPile game' = chosen :: g_discardPile opening_game.
Proof.
  destruct (valid_discard_applies opening_game "u1"
              (mkMoveData (Some "card-0") None None) (sample_world opening_game) eq_refl)
    as (cardId & cardIndex & chosen & player & player' & game' & Hid & Hrun & _ & _
        & Hchosen & _ & _ & _ & _ & Hpile & _).
  injection Hid as <-. exists game', chosen.
  split; [exact Hrun|]. split; [exact Hchosen|exact Hpile].
Defined.

Lemma handleDraw_failures (game : Game) (i : nat) (fromDiscard : bool) (w : World)
    (player : Player) :
  g_players game !! i = Some player →
  match handleDraw game i fromDiscard w with
  | (Throw message, w') =>
      w' = w
      ∧ ((fromDiscard = true ∧ g_discardPile game = []
          ∧ message = "Discard pile is empty")
         ∨ (fromDiscard = false ∧ g_deck game = []
            ∧ (length (g_discardPile game) ≤ 1)%nat
            ∧ message = "No cards available to draw"))
  | (Ok game', w') =>
      if fromDiscard then g_discardPile game ≠ []
      else g_deck game ≠ [] ∨ (1 < length (g_discardPile game))%nat
  end.
Proof.
  intros Hplayer. unfold handleDraw. rewrite Hplayer.
  destruct fromDiscard.
  { destruct (g_discardPile game); [|done]. split; [done|]. by left. }
  unfold mbind at 1, M_bind at 1.
  assert (∀ game1 w1,
            g_deck game1 ≠ [] →
            ∃ game' , (let (o, deck) := array_pop (g_deck game1) in
                       match o with
                       | Some drawnCard =>
                           let '(game, penalties) :=
                             applyHitPenalties
                               (update_player i (push_card drawnCard) (set_deck deck game1))
                               drawnCard (p_id player) in
                           mret
                             (update_player i (refresh_player true)
                                match penalties with
                                | [] => game
                                | _ :: _ =>
                                    set_lastAction
                                      (PenaltiesAction (p_id player) penalties) game
                                end)
                       | None => throw "No cards available to draw"
                       end) w1 = (Ok game', w1)) as Hpop.
  { intros game1 w1 Hdeck.
    destruct (array_pop (g_deck game1)) as [[drawnCard|] deck] eqn:Hpop.
    - destruct (applyHitPenalties _ _ _). by eexists.
    - by apply array_pop_None in Hpop. }
  unfold needsReshuffle.
  destruct (Nat.leb_spec (length (g_deck game)) 5) as [Hdeck|Hdeck];
    [destruct (Nat.ltb_spec 1 (length (g_discardPile game))) as [Hpile|Hpile]|];
    cbn [andb].
  - destruct (reshuffleDeck_cases (g_deck game) (g_discardPile game) w)
      as (newDeck & newPile & w' & Hrun & _ & Hspec).
    unfold mbind at 1, M_bind at 1. rewrite Hrun, mret_run. cbv beta iota.
    destruct (Hpop (set_discardPile (newDeck, newPile).2
                      (set_deck (newDeck, newPile).1 game)) w') as [game' ->].
    + simpl. destruct (g_discardPile game) as [|top [|second rest]];
        simpl in Hpile; try lia.
      destruct Hspec as [_ Hperm]. intros ->.
      apply Permutation_length in Hperm. rewrite length_app in Hperm. simpl in Hperm.
      lia.
    + by right.
  - rewrite mret_run. cbv beta iota.
    destruct (decide (g_deck game = [])) as [Hcards|Hcards].
    + rewrite Hcards. unfold array_pop, throw. simpl. split; [done|]. right.
      split_and!; [done|done|lia|done].
    + destruct (Hpop game w) as [game' ->]; [done|]. by left.
  - rewrite mret_run. cbv beta iota.
    destruct (Hpop game w) as [game' ->].
    + intros Hnil. rewrite Hnil in Hdeck. simpl in Hdeck. lia.
    + left. intros Hnil. rewrite Hnil in Hdeck. simpl in Hdeck. lia.
Qed.

(** X17: when [handleDraw] fails.  For a seat that exists, a draw from the
    discard pile throws exactly when the pile is empty, and a draw from the
    deck throws exactly when the deck is empty and the pile has at most one
    card, so that no reshuffle can fill the deck; a draw that throws leaves
    the world as it was. *)
Theorem handleDraw_fails_exactly (game : Game) (i : nat) (fromDiscard : bool) (w : World)
    (player : Player) :
  g_players game !! i = Some player →
  match handleDraw game i fromDiscard w with
  | (Throw message, w') =>
      w' = w
      ∧ ((fromDiscard = true ∧ g_discardPile game = []
          ∧ message = "Discard pile is empty")
         ∨ (fromDiscard = false ∧ g_deck game = []
            ∧ (length (g_discardPile game) ≤ 1)%nat
            ∧ message = "No cards available to draw"))
  | (Ok game', w') =>
      if fromDiscard then g_discardPile game ≠ []
      else g_deck game ≠ [] ∨ (1 < length (g_discardPile game))%nat
  end.
Proof. apply handleDraw_failures. Qed.

Lemma handleDraw_fails_exactly_witness :
  g_deck opening_game ≠ [] ∨ (1 < length (g_discardPile opening_game))%nat.
Proof.
  generalize (handleDraw_fails_exactly opening_game 0 false (sample_world opening_game)
                (seated "u1" "alice" false [0; 12; 24; 37; 19]%nat false) eq_refl).
  destruct (handleDraw opening_game 0 false (sample_world opening_game))
    as [[game'|message] w'] eqn:Hrun.
  - intros H. exact H.
  - vm_compute in Hrun. discriminate Hrun.
Defined.

(** X18: a draw that [isValidMove] accepts with the source 'deck' or
    'discard' is applied without an exception: the drawn card is added at the
    end of the hand of the player, and a draw from the discard pile takes
    the first card of the pile. *)
Theorem valid_draw_applies (game : Game) (playerId : string) (data : MoveData)
    (w : World) :
  isValidMove game playerId "draw" data = Valid →
  d_source data = Some "deck" ∨ d_source data = Some "discard" →
  ∃ game' w' player player' drawnCard,
    handleDraw game (g_currentPlayerIndex game)
      (bool_decide (d_source data = Some "discard")) w = (Ok game', w')
    ∧ g_players game !! g_currentPlayerIndex game = Some player
    ∧ g_players game' !! g_currentPlayerIndex game = Some player'
    ∧ p_hand player' = p_hand player ++ [drawnCard]
    ∧ (d_source data = Some "discard" →
       g_discardPile game = drawnCard :: g_discardPile game'
       ∧ g_deck game' = g_deck game).
Proof.
  intros (player & _ & Hplayer & Hid & Hactive & Haction)%isValidMove_Valid Hsource.
  destruct Haction as [[_ Hvalid]|[[? _]|[[? _]|[? _]]]]; try done.
  pose proof (handleDraw_failures game (g_currentPlayerIndex game)
                (bool_decide (d_source data = Some "discard")) w player Hplayer) as Hfail.
  destruct (handleDraw _ _ _ w) as [[game'|message] w'] eqn:Hrun.
  - pose proof Hrun as (p0 & player' & drawnCard & Hp0 & Hplayer' & Hhand)%handleDraw_hand.
    rewrite Hplayer in Hp0. injection Hp0 as <-.
    exists game', w', player, player', drawnCard. split_and!; try done.
    intros Hdiscard. rewrite Hdiscard, bool_decide_eq_true_2 in Hrun by done.
    unfold handleDraw in Hrun. rewrite Hplayer in Hrun.
    destruct (g_discardPile game) as [|top pile]; [done|].
    apply mret_Ok in Hrun as [-> _].
    cbn [g_players g_deck g_discardPile update_player set_players set_discardPile]
      in Hplayer' |- *.
    rewrite list_lookup_alter_eq, list_lookup_alter_eq, Hplayer in Hplayer'.
    simpl in Hplayer'. injection Hplayer' as <-. simpl in Hhand.
    by apply app_inv_head in Hhand as [= ->].
  - exfalso. unfold validateDraw in Hvalid.
    destruct Hfail as [_ [(Hd & Hpile & _)|(Hd & Hdeck & Hpile & _)]].
    + apply bool_decide_eq_true in Hd. rewrite Hd, Hpile in Hvalid.
      by rewrite bool_decide_eq_true_2 in Hvalid.
    + apply bool_decide_eq_false in Hd. destruct Hsource as [Hs|Hs]; [|done].
      rewrite Hs, Hdeck in Hvalid. simpl in Hvalid.
      destruct (Nat.leb_spec (length (g_discardPile game)) 1); [|lia].
      by destruct (g_discardPile game) as [|? [|]].
Qed.

Lemma valid_draw_applies_witness :
  ∃ game' w' drawnCard,
    handleDraw opening_game 0 true (sample_world opening_game) = (Ok game', w')
    ∧ g_discardPile opening_game = drawnCard :: g_discardPile game'.
Proof.
  destruct (valid_draw_applies opening_game "u1" (mkMoveData None None (Some "discard"))
              (sample_world opening_game) eq_refl (or_intror eq_refl))
    as (game' & w' & player & player' & drawnCard & Hrun & _ & _ & _ & Hpile).
  exists game', w', drawnCard. split; [exact Hrun|]. exact (proj1 (Hpile eq_refl)).
Defined.

(** X19: a spread is never applied.  A spread request that [isValidMove]
    accepts, on a game in play, makes [handleSpread] throw: [performAction]
    answers with status 500 and the message of the exception, and the games,
    the users and the tables stay as they were. *)
Theorem spread_is_never_applied (req : ActionRequest) (w : World) (game : Game) :
  w_games w !! r_gameId req = Some game →
  g_status game = Playing →
  r_action req = "spread" →
  isValidMove game (r_userId req) "spread" (r_data req) = Valid →
  performAction req w
  = (ErrorResponse 500 "Spread action not implemented in this version", w).
Proof.
  intros Hgame Hstatus Haction Hvalid. unfold performAction.
  rewrite Hgame, Hstatus, Haction, Hvalid. simpl.
  apply isValidMove_Valid in Hvalid as (player & -> & _). done.
Qed.

Lemma spread_is_never_applied_witness :
  performAction (mkActionRequest "game-1" "ai-1" "spread"
                   (mkMoveData None (Some ["card-6"; "card-16"; "card-36"]) None))
                (sample_world spread_turn)
  = (ErrorResponse 500 "Spread action not implemented in this version",
     sample_world spread_turn).
Proof.
  apply (spread_is_never_applied
           (mkActionRequest "game-1" "ai-1" "spread"
              (mkMoveData None (Some ["card-6"; "card-16"; "card-36"]) None))
           (sample_world spread_turn) spread_turn); [reflexivity..|].
  vm_compute. reflexivity.
Defined.

(** * Further properties of the controller *)

Lemma draw_engine_step (game game' : Game) (i : nat) (fromDiscard : bool) (w w' : World) :
  g_status game = Playing →
  handleDraw game i fromDiscard w = (Ok game', w') →
  engine_step game game' ∧ g_status game' = Playing.
Proof.
  intros Hstatus Hrun. split.
  - apply (player_step _ _ i); [done|]. by eapply draw_step.
  - apply handleDraw_Ok in Hrun as (? & ? & ? & _ & _ & _ & _ & _ & Htable & _).
    destruct Htable as (_ & -> & _). done.
Qed.

Lemma discard_engine_step (game game' : Game) (i : nat) (cardId : string) (w w' : World) :
  g_status game = Playing →
  handleDiscard game i cardId w = (Ok game', w') →
  engine_step game game' ∧ g_status game' = Playing.
Proof.
  intros Hstatus Hrun. split.
  - apply (player_step _ _ i); [done|]. by eapply discard_step.
  - apply handleDiscard_Ok in Hrun as (? & ? & ? & _ & _ & _ & _ & _ & _ & Htable & _).
    destruct Htable as (_ & -> & _). done.
Qed.

Lemma drop_engine_step (game game' : Game) (i : nat) (w w' : World) :
  g_status game = Playing →
  handleDrop game i w = (Ok game', w') →
  engine_step game game'.
Proof.
  intros Hstatus Hrun. apply (player_step _ _ i); [done|]. by eapply drop_step.
Qed.

Lemma processAITurns_loop_steps (maxAITurns : nat) (game : Game) (currentPlayerIndex : nat)
    (w w' : World) (game' : Game) :
  processAITurns_loop game currentPlayerIndex maxAITurns w = (Ok game', w') →
  rtc engine_step game game'.
Proof.
  revert game currentPlayerIndex w.
  induction maxAITurns as [|fuel IH]; intros game cpi w Hrun; simpl in Hrun.
  - repeat match type of Hrun with
    | (if ?b then _ else _) _ = _ => destruct b eqn:?
    | match ?x with _ => _ end _ = _ => destruct x eqn:?
    | mret _ _ = _ => apply mret_Ok in Hrun as [? ?]; subst
    | throw _ _ = _ => by apply throw_Ok in Hrun
    end; done.
  - destruct (bool_decide (g_status game = Playing)) eqn:Hstatus; cbn [negb] in Hrun; [|by apply mret_Ok in Hrun as [-> _]].
    apply bool_decide_eq_true in Hstatus.
    destruct (g_players game !! cpi) as [aiPlayer|]; [|by apply throw_Ok in Hrun].
    destruct (p_isAI aiPlayer); cbn [negb] in Hrun;
      [|by apply mret_Ok in Hrun as [-> _]].
    destruct (p_isDropped aiPlayer); [by eapply IH|].
    apply bind_Ok in Hrun as ([] & w1 & _ & Hrun).
    apply bind_Ok in Hrun as (game1 & w2 & Hdraw & Hrun).
    destruct (draw_engine_step _ _ _ _ _ _ Hstatus Hdraw) as [Hstep1 Hstatus1].
    eapply rtc_l; [exact Hstep1|].
    destruct (g_players game1 !! cpi) as [aiPlayer1|]; [|by apply throw_Ok in Hrun].
    destruct (decideCardToDiscard _ _ _) as [cardToDiscard|];
      [|by apply throw_Ok in Hrun].
    destruct (negb (truthy cardToDiscard)); [by apply throw_Ok in Hrun|].
    apply bind_Ok in Hrun as (game2 & w3 & Hdiscard & Hrun).
    destruct (discard_engine_step _ _ _ _ _ _ Hstatus1 Hdiscard) as [Hstep2 Hstatus2].
    eapply rtc_l; [exact Hstep2|].
    destruct (g_players game2 !! cpi) as [aiPlayer2|]; [|by apply throw_Ok in Hrun].
    destruct (p_canDrop aiPlayer2 && shouldDrop _ _ _).
    { apply bind_Ok in Hrun as ([] & w4 & _ & Hdrop).
      apply rtc_once. by eapply drop_engine_step. }
    destruct (length _ =? 0)%nat; [|by eapply IH].
    destruct (findIndex _ (g_players game2)) as [aiIndex|].
    + apply rtc_once. by eapply drop_engine_step.
    + by apply mret_Ok in Hrun as [-> _].
Qed.

(** X20: the turns of the computer players are turns of the game.  When
    [processAITurns] returns, the game it returns is reached from the game it
    was given by draws, discards and drops of the engine; so it holds the
    same cards, moved between the hands, the deck and the discard pile. *)
Theorem processAITurns_keeps_cards (game game' : Game) (w w' : World) :
  processAITurns game w = (Ok game', w') →
  rtc engine_step game game' ∧ all_cards game' ≡ₚ all_cards game.
Proof.
  intros Hrun%processAITurns_loop_steps. split; [done|].
  induction Hrun as [|g1 g2 g3 Hstep _ IH]; [done|].
  by rewrite IH, (engine_step_cards _ _ Hstep).
Qed.

(** With the turn at ai-1 in the opening game, the computer players play and
    the forty cards are still there. *)
Lemma processAITurns_keeps_cards_witness :
  ∃ game',
    (processAITurns (set_currentPlayerIndex 1 opening_game)
                    (sample_world opening_game)).1 = Ok game'
    ∧ all_cards game' ≡ₚ all_cards (set_currentPlayerIndex 1 opening_game).
Proof.
  destruct (processAITurns (set_currentPlayerIndex 1 opening_game)
                           (sample_world opening_game)) as [[game'|e] w'] eqn:Hrun.
  - exists game'. split; [reflexivity|].
    exact (proj2 (processAITurns_keeps_cards _ _ _ _ Hrun)).
  - vm_compute in Hrun. discriminate Hrun.
Defined.

(** ** What reaches the collection of the games *)

Lemma keeps_games_mret {A} (a : A) : keeps_games (mret a).
Proof. done. Qed.

Lemma keeps_games_throw {A} (message : string) : keeps_games (throw (A := A) message).
Proof. done. Qed.

Lemma keeps_games_bind {A B} (m : M A) (f : A → M B) :
  keeps_games m → (∀ a, keeps_games (f a)) → keeps_games (m ≫= f).
Proof.
  intros Hm Hf w. unfold mbind, M_bind. specialize (Hm w).
  destruct (m w) as [[a|e] w1]; simpl in *; [|done].
  by rewrite (Hf a w1).
Qed.

Lemma keeps_games_random (n : nat) : keeps_games (random_below n).
Proof. done. Qed.

Lemma keeps_games_Ok {A} (m : M A) (w w' : World) (a : A) :
  keeps_games m → m w = (Ok a, w') → w_games w' = w_games w.
Proof. intros Hm Hrun. specialize (Hm w). by rewrite Hrun in Hm. Qed.

Lemma keeps_games_documents {A} (m : M A) :
  (∀ w, same_documents w (m w).2) → keeps_games m.
Proof. intros Hm w. by destruct (Hm w). Qed.

Lemma keeps_games_shuffle {A} (array : list A) : keeps_games (shuffle array).
Proof.
  intros w. destruct (shuffle_run array w) as (result & w' & -> & _ & Hdocs).
  by destruct Hdocs.
Qed.

Lemma keeps_games_reshuffleDeck (deck discardPile : list Card) :
  keeps_games (reshuffleDeck deck discardPile).
Proof.
  intros w. destruct (reshuffleDeck_run deck discardPile w) as (r & w' & -> & _ & Hdocs).
  by destruct Hdocs.
Qed.

Lemma keeps_games_handleDraw (game : Game) (i : nat) (fromDiscard : bool) :
  keeps_games (handleDraw game i fromDiscard).
Proof.
  unfold handleDraw. destruct (g_players game !! i); [|apply keeps_games_throw].
  destruct fromDiscard.
  { destruct (g_discardPile game); [apply keeps_games_throw|apply keeps_games_mret]. }
  apply keeps_games_bind.
  - destruct (needsReshuffle _ _ _); [|apply keeps_games_mret].
    apply keeps_games_bind; [apply keeps_games_reshuffleDeck|].
    intros r. apply keeps_games_mret.
  - intros game1. destruct (array_pop (g_deck game1)) as [[drawnCard|] deck];
      [|apply keeps_games_throw].
    destruct (applyHitPenalties _ _ _). apply keeps_games_mret.
Qed.

Lemma keeps_games_handleDiscard (game : Game) (i : nat) (cardId : string) :
  keeps_games (handleDiscard game i cardId).
Proof.
  unfold handleDiscard. destruct (g_players game !! i) as [player|]; [|done].
  destruct (findIndex _ _) as [cardIndex|]; [|done].
  by destruct (p_hand player !! cardIndex).
Qed.

Lemma keeps_games_handleDrop (game : Game) (i : nat) : keeps_games (handleDrop game i).
Proof.
  unfold handleDrop. destruct (g_players game !! i) as [player|]; [|done].
  destruct (length _ <=? 1)%nat; [|done].
  intros w. edestruct endGame_run as (w' & -> & Hgames & _). done.
Qed.

Lemma keeps_games_processAITurns_loop (maxAITurns : nat) (game : Game) (cpi : nat) :
  keeps_games (processAITurns_loop game cpi maxAITurns).
Proof.
  revert game cpi. induction maxAITurns as [|fuel IH]; intros game cpi; simpl.
  - destruct (negb _); [done|]. destruct (g_players game !! cpi) as [ai|]; [|done].
    by destruct (negb _).
  - destruct (negb _); [done|]. destruct (g_players game !! cpi) as [ai|]; [|done].
    destruct (negb _); [done|]. destruct (p_isDropped ai); [apply IH|].
    apply keeps_games_bind; [done|]. intros _.
    apply keeps_games_bind; [apply keeps_games_handleDraw|]. intros game1.
    destruct (g_players game1 !! cpi) as [ai1|]; [|done].
    destruct (decideCardToDiscard _ _ _) as [cardToDiscard|]; [|done].
    destruct (negb _); [done|].
    apply keeps_games_bind; [apply keeps_games_handleDiscard|]. intros game2.
    destruct (g_players game2 !! cpi) as [ai2|]; [|done].
    destruct (_ && _).
    { apply keeps_games_bind; [done|]. intros _. apply keeps_games_handleDrop. }
    destruct (_ =? _)%nat; [|apply IH].
    destruct (findIndex _ _); [apply keeps_games_handleDrop|done].
Qed.

Lemma engine_step_id (game game' : Game) :
  engine_step game game' → g_id game' = g_id game.
Proof.
  intros [i _ [fromDiscard w w' Hrun|cardId w w' Hrun|w w' Hrun]
         |w w' reshuffled _ Hrun ->].
  - apply handleDraw_Ok in Hrun as (? & ? & ? & _ & _ & _ & _ & _ & Htable & _).
    by destruct Htable as (? & _).
  - apply handleDiscard_Ok in Hrun as (? & ? & ? & _ & _ & _ & _ & _ & _ & Htable & _).
    by destruct Htable as (? & _).
  - by apply handleDrop_Ok in Hrun as (? & _ & _ & _ & _ & ? & _).
  - done.
Qed.

Lemma rtc_engine_step_frame (game game' : Game) :
  rtc engine_step game game' →
  g_id game' = g_id game ∧ all_cards game' ≡ₚ all_cards game
  ∧ (reachable game → reachable game').
Proof.
  induction 1 as [|g1 g2 g3 Hstep _ (Hid & Hcards & Hreach)]; [done|].
  split_and!.
  - by rewrite Hid, (engine_step_id _ _ Hstep).
  - by rewrite Hcards, (engine_step_cards _ _ Hstep).
  - intros Hg1. apply Hreach. by eapply reachable_step.
Qed.

Lemma bind_Throw {A B} (m : M A) (f : A → M B) (w w' : World) (e : string) :
  (m ≫= f) w = (Throw e, w') →
  m w = (Throw e, w') ∨ ∃ a w1, m w = (Ok a, w1) ∧ f a w1 = (Throw e, w').
Proof.
  unfold mbind, M_bind. destruct (m w) as [[a|e'] w1]; intros H.
  - right. by exists a, w1.
  - left. by injection H as -> ->.
Qed.

(** The handler [performAction] runs for an action, [None] for an action it
    does not know. *)
Lemma performAction_handler_step (game game1 : Game) (playerIndex : nat) (action : string)
    (data : MoveData) (handle : M Game) (w w1 : World) :
  g_status game = Playing →
  (if String.eqb action "draw" then
     Some (handleDraw game playerIndex (bool_decide (d_source data = Some "discard")))
   else if String.eqb action "discard" then
     Some (match d_cardId data with
           | Some cardId => handleDiscard game playerIndex cardId
           | None => throw "Card not found in hand"
           end)
   else if String.eqb action "drop" then Some (handleDrop game playerIndex)
   else if String.eqb action "spread" then
     Some (handleSpread game playerIndex (d_cardIds data))
   else None) = Some handle →
  keeps_games handle
  ∧ (handle w = (Ok game1, w1) → engine_step game game1).
Proof.
  intros Hstatus Hhandler.
  destruct (String.eqb action "draw").
  { injection Hhandler as <-. split; [apply keeps_games_handleDraw|].
    intros Hrun. by eapply draw_engine_step. }
  destruct (String.eqb action "discard").
  { injection Hhandler as <-. destruct (d_cardId data) as [cardId|].
    - split; [apply keeps_games_handleDiscard|].
      intros Hrun. by eapply discard_engine_step.
    - split; [apply keeps_games_throw|done]. }
  destruct (String.eqb action "drop").
  { injection Hhandler as <-. split; [apply keeps_games_handleDrop|].
    intros Hrun. by eapply drop_engine_step. }
  destruct (String.eqb action "spread"); [|done].
  injection Hhandler as <-. split; [apply keeps_games_throw|done].
Qed.

(** The handler that ran, when the handler [performAction] picked for the
    action returned a game. *)
Lemma performAction_handler_cases (game game1 : Game) (playerIndex : nat) (action : string)
    (data : MoveData) (handle : M Game) (w w1 : World) :
  (if String.eqb action "draw" then
     Some (handleDraw game playerIndex (bool_decide (d_source data = Some "discard")))
   else if String.eqb action "discard" then
     Some (match d_cardId data with
           | Some cardId => handleDiscard game playerIndex cardId
           | None => throw "Card not found in hand"
           end)
   else if String.eqb action "drop" then Some (handleDrop game playerIndex)
   else if String.eqb action "spread" then
     Some (handleSpread game playerIndex (d_cardIds data))
   else None) = Some handle →
  handle w = (Ok game1, w1) →
  (action = "draw"
   ∧ handleDraw game playerIndex (bool_decide (d_source data = Some "discard")) w
     = (Ok game1, w1))
  ∨ (action = "discard"
     ∧ ∃ cardId, d_cardId data = Some cardId
                 ∧ handleDiscard game playerIndex cardId w = (Ok game1, w1))
  ∨ (action = "drop" ∧ handleDrop game playerIndex w = (Ok game1, w1)).
Proof.
  intros Hhandler Hhandle.
  destruct (String.eqb_spec action "draw") as [->|_].
  { injection Hhandler as <-. by left. }
  destruct (String.eqb_spec action "discard") as [->|_].
  { injection Hhandler as <-. right. left. split; [done|].
    destruct (d_cardId data) as [cardId|]; [by exists cardId|done]. }
  destruct (String.eqb_spec action "drop") as [->|_].
  { injection Hhandler as <-. right. right. done. }
  destruct (String.eqb action "spread"); [|done].
  by injection Hhandler as <-.
Qed.

(** X21: what [performAction] stores.  When it answers with a game, the
    loaded game was in play, the requester sits in it and [isValidMove]
    accepted the request.  The handler of the requested action, a draw from
    the requested source, a discard of the requested card or a drop, was
    applied to the loaded game at the seat of the requester; if the game it
    returned is still in play, [processAITurns] was applied to that game; and
    the game so obtained is the one stored, under its id, which is the id of
    the loaded game, in an otherwise unchanged collection of games.  So the
    stored game is reached from the loaded one by draws, discards and drops
    of the engine and holds the same cards; and the answer is the view of
    the stored game for the requester. *)
Theorem performAction_stores_engine_moves (req : ActionRequest) (w w' : World)
    (game view : Game) :
  w_games w !! r_gameId req = Some game →
  performAction req w = (GameResponse view, w') →
  ∃ playerIndex game1 w1 game' w2,
    g_status game = Playing
    ∧ findIndex (λ p, String.eqb (p_id p) (r_userId req)) (g_players game)
      = Some playerIndex
    ∧ isValidMove game (r_userId req) (r_action req) (r_data req) = Valid
    ∧ ((r_action req = "draw"
        ∧ handleDraw game playerIndex
            (bool_decide (d_source (r_data req) = Some "discard")) w
          = (Ok game1, w1))
       ∨ (r_action req = "discard"
          ∧ ∃ cardId, d_cardId (r_data req) = Some cardId
                      ∧ handleDiscard game playerIndex cardId w = (Ok game1, w1))
       ∨ (r_action req = "drop" ∧ handleDrop game playerIndex w = (Ok game1, w1)))
    ∧ (if bool_decide (g_status game1 = Playing)
       then processAITurns game1 w1 = (Ok game', w2)
       else game' = game1 ∧ w2 = w1)
    ∧ w' = set_games (<[g_id game' := game']> (w_games w2)) w2
    ∧ w_games w' = <[g_id game := game']> (w_games w)
    ∧ rtc engine_step game game'
    ∧ all_cards game' ≡ₚ all_cards game
    ∧ (reachable game → reachable game')
    ∧ view = sanitizeGameForPlayer game' (r_userId req).
Proof.
  intros Hgame. unfold performAction. rewrite Hgame.
  destruct (bool_decide (g_status game = Playing)) eqn:Hstatus; [|done].
  apply bool_decide_eq_true in Hstatus. cbn [negb].
  destruct (findIndex _ (g_players game)) as [playerIndex|] eqn:Hindex; [|done].
  destruct (isValidMove _ _ _ _) eqn:Hvalid; [|done].
  destruct (if String.eqb (r_action req) "draw" then _ else _) as [handle|] eqn:Hhandler;
    [|done].
  match goal with
  | |- context [match ?run w with _ => _ end] => destruct (run w) as [[updated|e] w1] eqn:Hrun
  end; [|done].
  intros [= <- <-].
  apply bind_Ok in Hrun as (game1 & w2 & Hhandle & Hrun).
  apply bind_Ok in Hrun as (game2 & w3 & Hai & Hrun).
  apply bind_Ok in Hrun as ([] & w4 & Hsave & Hrun).
  apply mret_Ok in Hrun as [-> ->].
  destruct (performAction_handler_step _ game1 _ _ _ _ w w2 Hstatus Hhandler)
    as [Hkeeps Hstep].
  specialize (Hstep Hhandle).
  pose proof (performAction_handler_cases _ _ _ _ _ _ _ _ Hhandler Hhandle) as Hcases.
  assert (rtc engine_step game1 game2 ∧ w_games w3 = w_games w2) as [Hsteps Hgames].
  { destruct (bool_decide (g_status game1 = Playing)).
    - split; [by apply processAITurns_loop_steps in Hai|].
      by eapply keeps_games_Ok; [apply keeps_games_processAITurns_loop|].
    - by apply mret_Ok in Hai as [-> ->]. }
  assert (rtc engine_step game game2) as Hall by by eapply rtc_l.
  destruct (rtc_engine_step_frame _ _ Hall) as (Hid & Hcards & Hreach).
  injection Hsave as <-.
  exists playerIndex, game1, w2, game2, w3.
  split; [done|]. split; [done|]. split; [done|]. split; [done|]. split.
  { destruct (bool_decide (g_status game1 = Playing)); [done|].
    by apply mret_Ok in Hai as [-> ->]. }
  split; [done|]. split.
  { simpl. by rewrite Hid, Hgames, (keeps_games_Ok _ _ _ _ Hkeeps Hhandle). }
  by split_and!.
Qed.

(** X22: when [performAction] answers with an error, no game has been
    stored; and unless the status is 500, nothing at all has changed. *)
Theorem performAction_error_stores_nothing (req : ActionRequest) (w w' : World)
    (code : nat) (message : string) :
  performAction req w = (ErrorResponse code message, w') →
  w_games w' = w_games w ∧ (code ≠ 500%nat → w' = w).
Proof.
  unfold performAction.
  destruct (w_games w !! r_gameId req) as [game|]; [|by intros [= <- <- <-]].
  destruct (bool_decide (g_status game = Playing)) eqn:Hstatus;
    [|by intros [= <- <- <-]].
  apply bool_decide_eq_true in Hstatus. cbn [negb].
  destruct (findIndex _ (g_players game)) as [playerIndex|]; [|by intros [= <- <- <-]].
  destruct (isValidMove _ _ _ _); [|by intros [= <- <- <-]].
  destruct (if String.eqb (r_action req) "draw" then _ else _) as [handle|] eqn:Hhandler;
    [|by intros [= <- <- <-]].
  match goal with
  | |- context [match ?run w with _ => _ end] => destruct (run w) as [[updated|e] w1] eqn:Hrun
  end; [done|].
  intros [= <- <- <-]. split; [|done].
  destruct (performAction_handler_step _ game _ _ _ _ w w Hstatus Hhandler) as [Hkeeps _].
  apply bind_Throw in Hrun as [Hrun|(game1 & w2 & Hhandle & Hrun)].
  { specialize (Hkeeps w). by rewrite Hrun in Hkeeps. }
  apply keeps_games_Ok in Hhandle as <-; [|done].
  apply bind_Throw in Hrun as [Hrun|(game2 & w3 & Hai & Hrun)].
  - destruct (bool_decide (g_status game1 = Playing)); [|done].
    pose proof (keeps_games_processAITurns_loop 10 game1 (g_currentPlayerIndex game1) w2)
      as Hloop.
    unfold processAITurns in Hrun. by rewrite Hrun in Hloop.
  - apply bind_Throw in Hrun as [Hrun|([] & w4 & _ & Hrun)]; done.
Qed.

(** u1 discards the ace of hearts at the opening; the three computer players
    then play their turns. *)
Lemma performAction_stores_engine_moves_witness :
  ∃ game',
    w_games (performAction (mkActionRequest "game-1" "u1" "discard"
                              (mkMoveData (Some "card-0") None None))
                           (sample_world opening_game)).2 !! "game-1" = Some game'
    ∧ all_cards game' ≡ₚ all_cards opening_game.
Proof.
  destruct (performAction (mkActionRequest "game-1" "u1" "discard"
                             (mkMoveData (Some "card-0") None None))
                          (sample_world opening_game))
    as [[code message|view] w'] eqn:Hrun.
  { vm_compute in Hrun. discriminate Hrun. }
  destruct (performAction_stores_engine_moves
              (mkActionRequest "game-1" "u1" "discard"
                 (mkMoveData (Some "card-0") None None))
              (sample_world opening_game) w' opening_game view eq_refl Hrun)
    as (playerIndex & game1 & w1 & game' & w2 & _ & _ & _ & _ & _ & _ & Hgames & _
        & Hcards & _).
  exists game'. split; [|exact Hcards].
  simpl. rewrite Hgames. apply lookup_insert_eq.
Defined.

Lemma performAction_error_stores_nothing_witness :
  w_games (performAction (mkActionRequest "game-1" "ai-1" "draw"
                            (mkMoveData None None (Some "deck")))
                         (sample_world opening_game)).2
  = w_games (sample_world opening_game).
Proof.
  destruct (performAction (mkActionRequest "game-1" "ai-1" "draw"
                             (mkMoveData None None (Some "deck")))
                          (sample_world opening_game))
    as [[code message|view] w'] eqn:Hrun.
  - exact (proj1 (performAction_error_stores_nothing _ _ _ _ _ Hrun)).
  - vm_compute in Hrun. discriminate Hrun.
Defined.

(** ** A new game *)

Lemma ai_seats :
  map (λ i, new_player ("ai-" +:+ pretty (i + 1)%nat)
              (pers_name (getAIPersonality ("ai-" +:+ pretty (i + 1)%nat)) +:+ " AI")
              true)
      (seq 0 3)
  = [new_player "ai-1" "Rookie AI" true; new_player "ai-2" "Challenger AI" true;
     new_player "ai-3" "Expert AI" true].
Proof. vm_compute. reflexivity. Qed.

Lemma list_snoc_of_length {A} (l : list A) (n : nat) :
  length l = S n → ∃ l' x, l = l' ++ [x] ∧ length l' = n.
Proof.
  destruct l as [|x l] using rev_ind; [done|].
  rewrite length_app. simpl. intros Hlen. exists l, x. split; [done|lia].
Qed.

Lemma last_twenty {A} (l : list A) :
  (20 ≤ length l)%nat →
  ∃ front d0 d1 d2 d3 d4 d5 d6 d7 d8 d9 d10 d11 d12 d13 d14 d15 d16 d17 d18 d19,
    l = front ++ [d19; d18; d17; d16; d15; d14; d13; d12; d11; d10;
                  d9; d8; d7; d6; d5; d4; d3; d2; d1; d0]
    ∧ length front = (length l - 20)%nat.
Proof.
  intros Hlen. exists (take (length l - 20) l).
  pose proof (take_drop (length l - 20) l) as Hsplit.
  assert (length (drop (length l - 20) l) = 20%nat) as Hdrop
    by (rewrite length_drop; lia).
  destruct (drop (length l - 20) l)
    as [|d19 [|d18 [|d17 [|d16 [|d15 [|d14 [|d13 [|d12 [|d11 [|d10
       [|d9 [|d8 [|d7 [|d6 [|d5 [|d4 [|d3 [|d2 [|d1 [|d0 [|]]]]]]]]]]]]]]]]]]]]];
    try discriminate Hdrop.
  exists d0, d1, d2, d3, d4, d5, d6, d7, d8, d9, d10, d11, d12, d13, d14, d15, d16,
    d17, d18, d19.
  split; [done|]. rewrite length_take. lia.
Qed.

(** The game [createGame] builds. *)
Lemma createGame_game_run (userId : string) (user : User) (stake : Z) (w : World) :
  ∃ game w',
    createGame_game userId user stake w = (Ok game, w')
    ∧ w_games w' = w_games w ∧ w_users w' = w_users w ∧ w_tables w' = w_tables w
    ∧ g_id game = pretty (w_nextId w)
    ∧ g_status game = Playing ∧ g_stake game = stake ∧ g_pot game = stake * 4
    ∧ g_currentPlayerIndex game = 0%nat ∧ g_winner game = None
    ∧ map (λ p, (p_id p, p_isAI p, length (p_hand p), p_isDropped p,
                 p_penalties p, p_hitCount p)) (g_players game)
      = [(userId, false, 5%nat, false, 0, 0); ("ai-1", true, 5%nat, false, 0, 0);
         ("ai-2", true, 5%nat, false, 0, 0); ("ai-3", true, 5%nat, false, 0, 0)]
    ∧ Forall (λ p, p_score p = calculateHandScore (p_hand p)) (g_players game)
    ∧ length (g_deck game) = 19%nat ∧ length (g_discardPile game) = 1%nat.
Proof.
  unfold createGame_game, createDeck.
  destruct (shuffle_run orderedDeck w) as (deck & w1 & Hshuffle & Hperm & Hdocs).
  unfold mbind at 1, M_bind at 1. rewrite Hshuffle.
  assert (length deck = 40%nat) as Hlen by (rewrite Hperm; by vm_compute).
  destruct (last_twenty deck ltac:(lia))
    as (front & d0 & d1 & d2 & d3 & d4 & d5 & d6 & d7 & d8 & d9 & d10 & d11 & d12 & d13
        & d14 & d15 & d16 & d17 & d18 & d19 & -> & Hfront).
  rewrite dealCards_four_hands. rewrite Hlen in Hfront.
  destruct (list_snoc_of_length front 19 Hfront) as (remainingDeck & top & -> & Hrest).
  rewrite array_pop_snoc, ai_seats.
  destruct Hdocs as (Hgames & Husers & Htables & Hnext).
  unfold mbind, M_bind, new_id, mret, M_ret.
  eexists _, _. split; [reflexivity|].
  cbn [w_games w_users w_tables w_nextId g_id g_status g_stake g_pot
       g_currentPlayerIndex g_winner g_deck g_discardPile].
  rewrite Hnext.
  split_and!;
    [exact Hgames | exact Husers | exact Htables | reflexivity | reflexivity
    | reflexivity | reflexivity | reflexivity | reflexivity | reflexivity
    | repeat constructor | lia | reflexivity].
Qed.


(** ** The next seat *)

Section next_seat.
Local Open Scope nat_scope.

Lemma mod_step (a k n : nat) : ((a + k) `mod` n + 1) `mod` n = (a + (k + 1)) `mod` n.
Proof. rewrite Nat.Div0.add_mod_idemp_l. f_equal. lia. Qed.

Lemma mod_round (cur n : nat) : cur < n → (cur + 1 + (n - 1)) `mod` n = cur.
Proof.
  intros. replace (cur + 1 + (n - 1)) with (cur + 1 * n) by lia.
  rewrite Nat.Div0.mod_add, Nat.mod_small; lia.
Qed.

Lemma mod_back (cur k n : nat) :
  cur < n → k + 2 ≤ n → (cur + 1 + (k + 1)) `mod` n = cur → k + 2 = n.
Proof.
  intros Hcur Hk Heq.
  destruct (decide (k + 2 = n)) as [|Hne]; [done|exfalso].
  destruct (decide (cur + k + 2 < n)).
  - rewrite Nat.mod_small in Heq by lia. lia.
  - assert (cur + 1 + (k + 1) = (cur + k + 2 - n) + 1 * n) as Hsum by lia.
    rewrite Hsum, Nat.Div0.mod_add, Nat.mod_small in Heq by lia. lia.
Qed.

(** The [while] of [getNextActivePlayer], entered at the seat [k] places
    after the one that follows [cur], the seats before it being dropped. *)
Lemma nextActive_loop_spec (players : list Player) (cur : nat) :
  cur < length players →
  ∀ fuel k,
    k = 0 ∨ k + 1 < length players →
    length players ≤ fuel + k →
    (∀ j, j < k →
       p_isDropped <$> players !! ((cur + 1 + j) `mod` length players) = Some true) →
    ∃ k',
      k' < length players
      ∧ nextActive_loop players cur ((cur + 1 + k) `mod` length players) fuel
        = (cur + 1 + k') `mod` length players
      ∧ (∀ j, j < k' →
           p_isDropped <$> players !! ((cur + 1 + j) `mod` length players) = Some true)
      ∧ (k' = length players - 1
         ∨ p_isDropped <$> players !! ((cur + 1 + k') `mod` length players) = Some false).
Proof.
  intros Hcur. set (n := length players) in *.
  induction fuel as [|fuel IH]; intros k Hk Hfuel Hdropped; [lia|].
  assert ((cur + 1 + k) `mod` n < n) as Hlt by (apply Nat.mod_upper_bound; lia).
  destruct (lookup_lt_is_Some_2 players _ Hlt) as [p Hp].
  cbn [nextActive_loop]. rewrite Hp. fold n.
  destruct (p_isDropped p) eqn:Hflag.
  - rewrite mod_step.
    destruct (Nat.eqb_spec ((cur + 1 + (k + 1)) `mod` n) cur) as [Heq|Hne].
    + exists (n - 1). split; [lia|]. split; [by rewrite mod_round|].
      split; [|by left].
      intros j Hj. destruct (decide (n = 1)) as [|Hn]; [lia|].
      assert (k + 2 = n) as Hround by (apply (mod_back cur); [done|lia|done]).
      destruct (decide (j < k)) as [|Hjk]; [by apply Hdropped|].
      assert (j = k) as -> by lia. by rewrite Hp; simpl; rewrite Hflag.
    + assert (n ≠ 1) as Hn.
      { intros Hone. apply Hne. rewrite Hone, Nat.mod_1_r. lia. }
      assert (k + 2 ≠ n) as Hround.
      { intros Hround. apply Hne. replace (k + 1) with (n - 1) by lia.
        by apply mod_round. }
      apply IH; [lia|lia|].
      intros j Hj. destruct (decide (j < k)) as [|Hjk]; [by apply Hdropped|].
      assert (j = k) as -> by lia. by rewrite Hp; simpl; rewrite Hflag.
  - exists k. split; [lia|]. split; [done|]. split; [done|].
    right. by rewrite Hp; simpl; rewrite Hflag.
Qed.

(** More rounds than there are seats change nothing. *)
Lemma nextActive_loop_fuel (players : list Player) (cur : nat) :
  cur < length players →
  ∀ fuel fuel' k,
    k = 0 ∨ k + 1 < length players →
    length players ≤ fuel + k → length players ≤ fuel' + k →
    nextActive_loop players cur ((cur + 1 + k) `mod` length players) fuel
    = nextActive_loop players cur ((cur + 1 + k) `mod` length players) fuel'.
Proof.
  intros Hcur. set (n := length players) in *.
  induction fuel as [|fuel IH]; intros fuel' k Hk Hfuel Hfuel'; [lia|].
  destruct fuel' as [|fuel']; [lia|].
  cbn [nextActive_loop]. fold n.
  destruct (players !! _) as [p|]; [|done].
  destruct (p_isDropped p); [|done].
  rewrite mod_step.
  destruct (Nat.eqb_spec ((cur + 1 + (k + 1)) `mod` n) cur) as [Heq|Hne]; [done|].
  assert (n ≠ 1) as Hn.
  { intros Hone. apply Hne. rewrite Hone, Nat.mod_1_r. lia. }
  assert (k + 2 ≠ n) as Hround.
  { intros Hround. apply Hne. replace (k + 1) with (n - 1) by lia.
    by apply mod_round. }
  apply IH; lia.
Qed.

(** X24: [getNextActivePlayer], asked for the seat after one of the seats of
    the game.  Going round the table from the seat that follows [cur], it
    answers the first seat that has not dropped; when every other seat has
    dropped it answers [cur] itself, dropped or not.  The search ends within
    as many rounds as there are seats. *)
Theorem getNextActivePlayer_spec (game : Game) (cur : nat) :
  cur < length (g_players game) →
  let n := length (g_players game) in
  let next := getNextActivePlayer game cur in
  (∃ k,
     k < n ∧ next = (cur + 1 + k) `mod` n
     ∧ (∀ j, j < k → p_isDropped <$> g_players game !! ((cur + 1 + j) `mod` n) = Some true)
     ∧ (k = n - 1 ∧ next = cur ∨ p_isDropped <$> g_players game !! next = Some false))
  ∧ ∀ fuel, n ≤ fuel →
      nextActive_loop (g_players game) cur ((cur + 1) `mod` n) fuel = next.
Proof.
  intros Hcur. cbv zeta. unfold getNextActivePlayer. split.
  - destruct (nextActive_loop_spec (g_players game) cur Hcur (length (g_players game)) 0)
      as (k & Hk & Hnext & Hdropped & Hlast); [by left|lia|lia|].
    rewrite Nat.add_0_r in Hnext.
    exists k. split; [done|]. split; [done|]. split; [done|].
    destruct Hlast as [->|Hactive].
    + left. split; [done|]. rewrite Hnext. by apply mod_round.
    + right. by rewrite Hnext.
  - intros fuel Hfuel.
    pose proof (nextActive_loop_fuel (g_players game) cur Hcur fuel
                  (length (g_players game)) 0) as Hsame.
    rewrite !Nat.add_0_r in Hsame. apply Hsame; [by left|lia|lia].
Qed.

(** In [closing_game] ai-1 and ai-2 have dropped: after u1 comes ai-3. *)
Lemma getNextActivePlayer_spec_witness :
  getNextActivePlayer closing_game 0 < 4
  ∧ nextActive_loop (g_players closing_game) 0 1 9 = getNextActivePlayer closing_game 0.
Proof.
  assert (0 < length (g_players closing_game)) as Hcur by (vm_compute; lia).
  destruct (getNextActivePlayer_spec closing_game 0 Hcur) as [(k & Hk & Hnext & _) Hfuel].
  split.
  - rewrite Hnext. apply Nat.mod_upper_bound. vm_compute. lia.
  - apply (Hfuel 9). vm_compute. lia.
Defined.

Lemma mod_seat (i s n : nat) :
  i < n → s < n → s ≠ i → ∃ j, j < n - 1 ∧ (i + 1 + j) `mod` n = s.
Proof.
  intros Hi Hs Hne. destruct (decide (i < s)).
  - exists (s - i - 1). split; [lia|].
    replace (i + 1 + (s - i - 1)) with s by lia. by apply Nat.mod_small.
  - exists (s + n - i - 1). split; [lia|].
    replace (i + 1 + (s + n - i - 1)) with (s + 1 * n) by lia.
    rewrite Nat.Div0.mod_add. by apply Nat.mod_small.
Qed.

Lemma one_active (i : nat) (players : list Player) :
  (∀ s p, s ≠ i → players !! s = Some p → p_isDropped p = true) →
  length (filter (λ p, negb (p_isDropped p)) players) ≤ 1.
Proof.
  revert i. induction players as [|p ps IH]; intros i Hall; [simpl; lia|].
  rewrite filter_cons. destruct i as [|i].
  - assert (filter (λ p, negb (p_isDropped p)) ps = []) as ->.
    { assert (∀ s q, ps !! s = Some q → p_isDropped q = true) as Hps.
      { intros s q Hq. by apply (Hall (S s)). }
      clear -Hps. induction ps as [|q qs IHqs]; [done|].
      rewrite filter_cons, (Hps 0 q) by done. simpl.
      apply IHqs. intros s q' Hq'. by apply (Hps (S s)). }
    destruct (decide _); simpl; lia.
  - rewrite (Hall 0 p) by done. simpl.
    apply (IH i). intros s q Hne Hq. apply (Hall (S s)); [lia|done].
Qed.

(** While two seats have not dropped, the seat [getNextActivePlayer] answers
    has not dropped. *)
Lemma next_seat_active (game : Game) (i : nat) :
  i < length (g_players game) →
  2 ≤ length (activePlayers game) →
  p_isDropped <$> g_players game !! getNextActivePlayer game i = Some false.
Proof.
  intros Hi Hactive.
  destruct (nextActive_loop_spec (g_players game) i Hi (length (g_players game)) 0)
    as (k & Hk & Hnext & Hdropped & [->|Hseat]); [by left|lia|lia| |].
  - exfalso. enough (length (activePlayers game) ≤ 1) by lia.
    apply (one_active i). intros s p Hne Hp.
    destruct (mod_seat i s (length (g_players game))) as (j & Hj & Hs);
      [done|by eapply lookup_lt_Some|done|].
    specialize (Hdropped j Hj). rewrite Hs, Hp in Hdropped.
    by injection Hdropped.
  - rewrite Nat.add_0_r in Hnext. unfold getNextActivePlayer. by rewrite Hnext.
Qed.

End next_seat.

(** ** What holds of every game *)

Lemma handleDiscard_turn (game : Game) (i : nat) (cardId : string) (w w' : World)
    (game' : Game) :
  handleDiscard game i cardId w = (Ok game', w') →
  g_currentPlayerIndex game' = getNextActivePlayer game' i.
Proof.
  unfold handleDiscard. intros Hrun.
  destruct (g_players game !! i) as [player|]; [|by run_inv Hrun].
  destruct (findIndex _ (p_hand player)) as [cardIndex|]; [|by run_inv Hrun].
  destruct (p_hand player !! cardIndex) as [card|]; [|by run_inv Hrun].
  by run_inv Hrun.
Qed.

Lemma handleDrop_turn (game : Game) (i : nat) (w w' : World) (game' : Game) :
  handleDrop game i w = (Ok game', w') →
  (g_status game' = Ended ∧ (length (activePlayers game') ≤ 1)%nat
   ∧ g_currentPlayerIndex game' = g_currentPlayerIndex game)
  ∨ (g_status game' = g_status game ∧ (1 < length (activePlayers game'))%nat
     ∧ g_currentPlayerIndex game' = getNextActivePlayer game' i).
Proof.
  unfold handleDrop. intros Hrun.
  destruct (g_players game !! i) as [player|]; [|by run_inv Hrun].
  cbv zeta in Hrun.
  destruct (Nat.leb_spec (length (activePlayers
              (set_lastAction
                 (DropAction (p_id player) (calculateHandScore (p_hand player))
                    (calculateWinningMultiplier (calculateHandScore (p_hand player))
                       (isFirstTurn_for game player)))
                 (update_player i
                    (λ p, set_isDropped true
                            (set_score (calculateHandScore (p_hand player)) p)) game)))) 1)
    as [Hle|Hlt].
  - edestruct endGame_run as (w1 & Hend & _).
    rewrite Hend in Hrun. injection Hrun as <- <-. left. by split_and!.
  - run_inv Hrun. right. by split_and!.
Qed.

Lemma map_alter_same {B} (proj : Player → B) (f : Player → Player) (i : nat)
    (players : list Player) :
  (∀ p, proj (f p) = proj p) → map proj (alter f i players) = map proj players.
Proof.
  intros Hf. revert i. induction players as [|p ps IH]; intros [|i]; simpl; [done..| |].
  - by rewrite Hf.
  - f_equal. apply IH.
Qed.

Lemma map_map_same {B} (proj : Player → B) (f : Player → Player) (players : list Player) :
  (∀ p, proj (f p) = proj p) → map proj (map f players) = map proj players.
Proof. intros Hf. rewrite map_map. apply map_ext. intros p. apply Hf. Qed.

Lemma active_flags (players players' : list Player) :
  map p_isDropped players' = map p_isDropped players →
  length (filter (λ p, negb (p_isDropped p)) players')
  = length (filter (λ p, negb (p_isDropped p)) players).
Proof.
  revert players'. induction players as [|p ps IH]; intros [|p' ps'] Hflags;
    try discriminate Hflags; [done|].
  injection Hflags as Hflag Hflags. rewrite !filter_cons, Hflag.
  destruct (decide _); simpl; [f_equal|]; by apply IH.
Qed.

Lemma lookup_flag (players players' : list Player) (i : nat) :
  map p_isDropped players' = map p_isDropped players →
  p_isDropped <$> players' !! i = p_isDropped <$> players !! i.
Proof.
  intros Hflags. rewrite <- !list_lookup_fmap.
  change (map p_isDropped players' !! i = map p_isDropped players !! i).
  by rewrite Hflags.
Qed.

Lemma penalize_invariant (card : Card) (playerId : string) (players : list Player)
    (p : Player) :
  seat_invariant p → seat_invariant (penalize card playerId players p).
Proof.
  intros (Hscore & Hpenalties & Hhits). unfold penalize.
  destruct (String.eqb _ _); [done|].
  destruct (wouldHitSpread _ _ _); [|done].
  destruct p. unfold seat_invariant in *. simpl in *. split_and!; [done|lia|lia].
Qed.

Lemma decrement_penalty_invariant (p : Player) :
  p_score p = calculateHandScore (p_hand p) →
  0 ≤ p_penalties p → 0 ≤ p_hitCount p →
  seat_invariant (decrement_penalty p).
Proof.
  intros Hscore Hpenalties Hhits.
  destruct (decrement_penalty_fields p) as (Hhand' & Hscore' & _ & _ & Hhits' & Hpenalties').
  unfold seat_invariant. rewrite Hhand', Hscore', Hhits', Hpenalties'.
  split_and!; [done| |done].
  destruct (Z.ltb_spec 0 (p_penalties p)); lia.
Qed.

(** A draw, a discard, a drop and a reshuffle keep what holds of a game. *)
Lemma engine_step_seated (game game' : Game) :
  seated_game game → engine_step game game' → seated_game game'.
Proof.
  intros (Hids & Hseats & Hindex & Hturn) Hstep.
  unfold turn_invariant in Hturn.
  destruct Hstep as [i Hstatus [fromDiscard w w' Hrun|cardId w w' Hrun|w w' Hrun]
                    |w w' reshuffled Hstatus Hrun ->].
  - rewrite Hstatus in Hturn. destruct Hturn as [Hactive Hcurrent].
    pose proof Hrun as Hseat.
    apply handleDraw_Ok in Hrun
      as (player & drawnCard & F & Hplayer & _ & HF & Hplayers & Hsame & Htable & _).
    destruct Htable as (_ & Hstatus' & _).
    assert (∀ p, (p_id (F p), p_isAI (F p), p_isDropped (F p))
                 = (p_id p, p_isAI p, p_isDropped p)) as HFields.
    { intros p. destruct fromDiscard; subst F; [done|].
      destruct (penalty_only_fields _ _
                  (penalize_penalty_only drawnCard (p_id player)
                     (alter (push_card drawnCard) i (g_players game)) p))
        as (-> & _ & -> & _ & ->). done. }
    assert (map (λ p, (p_id p, p_isAI p, p_isDropped p)) (g_players game')
            = map (λ p, (p_id p, p_isAI p, p_isDropped p)) (g_players game)) as Hfields.
    { rewrite Hplayers, map_alter_same by done.
      rewrite map_map_same by done. by rewrite map_alter_same. }
    assert (map (λ p, (p_id p, p_isAI p)) (g_players game')
            = map (λ p, (p_id p, p_isAI p)) (g_players game)) as Hids'.
    { apply (f_equal (map (λ t : string * bool * bool, t.1))) in Hfields.
      by rewrite !map_map in Hfields. }
    assert (map p_isDropped (g_players game') = map p_isDropped (g_players game))
      as Hflags.
    { apply (f_equal (map (λ t : string * bool * bool, t.2))) in Hfields.
      by rewrite !map_map in Hfields. }
    assert (length (g_players game') = length (g_players game)) as Hlength.
    { apply (f_equal length) in Hflags. by rewrite !length_map in Hflags. }
    split_and!.
    + by rewrite Hids'.
    + apply Forall_lookup_2. intros j p' Hp'.
      destruct (lookup_lt_is_Some_2 (g_players game) j) as [p Hp].
      { rewrite <- Hlength. by eapply lookup_lt_Some. }
      destruct (handleDraw_seat _ _ j _ _ _ _ p Hseat Hp)
        as (player' & card' & _ & Hj).
      rewrite Hp' in Hj. injection Hj as ->.
      pose proof (Forall_lookup_1 _ _ _ _ Hseats Hp) as Hinv.
      destruct (decide (i = j)).
      * destruct Hinv as (_ & ? & ?). by split_and!.
      * destruct fromDiscard; [done|]. by apply penalize_invariant.
    + by rewrite Hsame, Hlength.
    + unfold turn_invariant. rewrite Hstatus', Hstatus, Hsame. split.
      * unfold activePlayers. by rewrite (active_flags _ _ Hflags).
      * by rewrite (lookup_flag _ _ _ Hflags).
  - rewrite Hstatus in Hturn. destruct Hturn as [Hactive Hcurrent].
    pose proof (handleDiscard_turn _ _ _ _ _ _ Hrun) as Hnext.
    apply handleDiscard_Ok in Hrun
      as (player & cardIndex & card & Hplayer & _ & _ & _ & _ & Hplayers & Htable & _).
    destruct Htable as (_ & Hstatus' & _).
    assert (map (λ p, (p_id p, p_isAI p, p_isDropped p)) (g_players game')
            = map (λ p, (p_id p, p_isAI p, p_isDropped p)) (g_players game)) as Hfields.
    { rewrite Hplayers, map_map_same.
      - by rewrite !map_alter_same.
      - intros p. unfold decrement_penalty. by destruct (0 <? p_penalties p). }
    assert (map (λ p, (p_id p, p_isAI p)) (g_players game')
            = map (λ p, (p_id p, p_isAI p)) (g_players game)) as Hids'.
    { apply (f_equal (map (λ t : string * bool * bool, t.1))) in Hfields.
      by rewrite !map_map in Hfields. }
    assert (map p_isDropped (g_players game') = map p_isDropped (g_players game))
      as Hflags.
    { apply (f_equal (map (λ t : string * bool * bool, t.2))) in Hfields.
      by rewrite !map_map in Hfields. }
    assert (length (g_players game') = length (g_players game)) as Hlength.
    { apply (f_equal length) in Hflags. by rewrite !length_map in Hflags. }
    assert (p_isDropped <$> g_players game' !! g_currentPlayerIndex game' = Some false)
      as Hseat.
    { rewrite Hnext. apply next_seat_active.
      - rewrite Hlength. by eapply lookup_lt_Some.
      - unfold activePlayers. by rewrite (active_flags _ _ Hflags). }
    split_and!.
    + by rewrite Hids'.
    + rewrite Hplayers, list_alter_alter_eq. apply Forall_map.
      apply Forall_alter.
      * eapply Forall_impl; [exact Hseats|].
        intros p (? & ? & ?). by apply decrement_penalty_invariant.
      * intros p Hp _. pose proof (Forall_lookup_1 _ _ _ _ Hseats Hp) as (_ & ? & ?).
        by apply decrement_penalty_invariant.
    + destruct (g_players game' !! g_currentPlayerIndex game') eqn:Hlookup; [|done].
      by eapply lookup_lt_Some.
    + unfold turn_invariant. rewrite Hstatus', Hstatus. split; [|done].
      unfold activePlayers. by rewrite (active_flags _ _ Hflags).
  - rewrite Hstatus in Hturn. destruct Hturn as [Hactive Hcurrent].
    pose proof (handleDrop_turn _ _ _ _ _ Hrun) as Hnext.
    apply handleDrop_Ok in Hrun as (player & Hrun). cbv zeta in Hrun.
    destruct Hrun as (Hplayer & Hplayers & _ & _ & _ & _ & _ & Hend).
    assert (map (λ p, (p_id p, p_isAI p)) (g_players game')
            = map (λ p, (p_id p, p_isAI p)) (g_players game)) as Hids'.
    { by rewrite Hplayers, map_alter_same. }
    assert (length (g_players game') = length (g_players game)) as Hlength.
    { by rewrite Hplayers, length_alter. }
    assert (Forall seat_invariant (g_players game')) as Hseats'.
    { rewrite Hplayers. apply Forall_alter; [done|].
      intros p Hp (_ & ? & ?). rewrite Hplayer in Hp. injection Hp as <-.
      by split_and!. }
    assert ((i < length (g_players game'))%nat) as Hi.
    { rewrite Hlength. by eapply lookup_lt_Some. }
    destruct Hnext as [(Hended & Hone & Hsame)|(Hsame & Hmore & Hnext)].
    + split_and!; [by rewrite Hids'|done|by rewrite Hsame, Hlength|].
      unfold turn_invariant. rewrite Hended. split; [done|].
      destruct Hend as [(_ & Hwinner & _)|[Hplaying _]];
        [|by rewrite Hended, Hstatus in Hplaying].
      exists (p_id player). split; [done|].
      apply in_map_iff.
      exists (set_isDropped true (set_score (calculateHandScore (p_hand player)) player)).
      split; [done|]. apply list_elem_of_In, list_elem_of_lookup. exists i.
      by rewrite Hplayers, list_lookup_alter_eq, Hplayer.
    + assert (p_isDropped <$> g_players game' !! g_currentPlayerIndex game' = Some false)
        as Hseat.
      { rewrite Hnext. apply next_seat_active; [done|lia]. }
      split_and!; [by rewrite Hids'|done| |].
      * destruct (g_players game' !! g_currentPlayerIndex game') eqn:Hlookup; [|done].
        by eapply lookup_lt_Some.
      * unfold turn_invariant. rewrite Hsame, Hstatus. split; [lia|done].
  - done.
Qed.

Lemma createGame_game_seated (userId : string) (user : User) (stake : Z) (w w' : World)
    (game : Game) :
  createGame_game userId user stake w = (Ok game, w') → seated_game game.
Proof.
  intros Hrun.
  destruct (createGame_game_run userId user stake w)
    as (game0 & w0 & Hrun0 & _ & _ & _ & _ & Hstatus & _ & _ & Hindex & _ & Hfields
        & Hscores & _).
  rewrite Hrun in Hrun0. injection Hrun0 as <- <-. clear Hrun.
  unfold seated_game, turn_invariant, activePlayers. rewrite Hstatus, Hindex.
  destruct (g_players game) as [|p0 [|p1 [|p2 [|p3 [|p4 rest]]]]];
    try discriminate Hfields.
  injection Hfields as ? ? ? ? ? ? ? ? ? ? ? ? ? ? ? ? ? ? ? ? ? ? ? ?.
  split_and!.
  - exists userId. simpl. congruence.
  - repeat match goal with
           | H : Forall _ (_ :: _) |- _ => apply Forall_cons in H as [? H]
           end.
    repeat apply Forall_cons_2; [..|apply Forall_nil_2];
      unfold seat_invariant; split_and!; try done; lia.
  - simpl. lia.
  - rewrite !filter_cons.
    repeat match goal with H : p_isDropped _ = false |- _ => rewrite H; clear H end.
    simpl. lia.
  - simpl. by f_equal.
Qed.

Lemma reachable_seated (game : Game) : reachable game → seated_game game.
Proof.
  induction 1 as [userId user stake w w' game Hrun|game game' _ IH Hstep].
  - by eapply createGame_game_seated.
  - by eapply engine_step_seated.
Qed.

(** X25: what holds of every game that [createGame] builds and of every game
    reached from it by draws, discards, drops and reshuffles.  The seats are
    the user, who is no computer player, and ai-1, ai-2 and ai-3, who are;
    the score stored at a seat is the value of its hand, and its penalties
    and its hit count are not negative; the turn is at one of the seats.
    While the game is in play at least two seats have not dropped and the
    turn is at one of them; once it has ended at most one seat has not
    dropped, and the winner is a seat that has dropped. *)
Theorem reachable_game_seats (game : Game) :
  reachable game →
  (∃ userId,
     map (λ p, (p_id p, p_isAI p)) (g_players game)
     = [(userId, false); ("ai-1", true); ("ai-2", true); ("ai-3", true)])
  ∧ Forall (λ p, p_score p = calculateHandScore (p_hand p)
                 ∧ 0 ≤ p_penalties p ∧ 0 ≤ p_hitCount p) (g_players game)
  ∧ (g_currentPlayerIndex game < length (g_players game))%nat
  ∧ match g_status game with
    | Waiting => False
    | Playing =>
        (2 ≤ length (activePlayers game))%nat
        ∧ p_isDropped <$> g_players game !! g_currentPlayerIndex game = Some false
    | Ended =>
        (length (activePlayers game) ≤ 1)%nat
        ∧ ∃ winner,
            g_winner game = Some winner
            ∧ In (winner, true) (map (λ p, (p_id p, p_isDropped p)) (g_players game))
    end.
Proof. exact (reachable_seated game). Qed.

(** The game dealt to alice, after her first draw. *)
Lemma reachable_game_seats_witness :
  Forall (λ p, p_score p = calculateHandScore (p_hand p)
               ∧ 0 ≤ p_penalties p ∧ 0 ≤ p_hitCount p) (g_players dealt_game_drawn)
  ∧ (2 ≤ length (activePlayers dealt_game_drawn))%nat.
Proof.
  assert (reachable dealt_game_drawn) as Hreachable.
  { apply (reachable_step dealt_game).
    - eapply (reachable_created "u1" alice 5 (sample_world opening_game)).
      vm_compute. reflexivity.
    - apply (player_step _ _ 0); [reflexivity|].
      eapply (draw_step 0 dealt_game dealt_game_drawn false (sample_world dealt_game)).
      vm_compute. reflexivity. }
  destruct (reachable_game_seats dealt_game_drawn Hreachable)
    as (_ & Hseats & _ & Hturn).
  split; [exact Hseats|]. exact (proj1 Hturn).
Defined.

(** * Further properties of the computer players *)

(** X26: when a computer player drops.  [shouldDrop] says yes only for a drop
    that [validateDrop] accepts: no penalty left, and a hand of at most 50
    points.  With no penalty it always says yes for a hand of at most 20
    points and for a hand of exactly 50, at every difficulty and whatever the
    state of the game. *)
Theorem shouldDrop_spec (aiPlayer : Player) (game : Game) (difficulty : Difficulty)
    (data : MoveData) :
  (shouldDrop aiPlayer game difficulty = true →
     validateDrop game aiPlayer data = Valid
     ∧ p_penalties aiPlayer ≤ 0 ∧ calculateHandScore (p_hand aiPlayer) ≤ 50)
  ∧ (p_penalties aiPlayer ≤ 0 →
     calculateHandScore (p_hand aiPlayer) ≤ 20 ∨ calculateHandScore (p_hand aiPlayer) = 50 →
     shouldDrop aiPlayer game difficulty = true)
  ∧ (0 < p_penalties aiPlayer ∨ 50 < calculateHandScore (p_hand aiPlayer) →
     shouldDrop aiPlayer game difficulty = false).
Proof.
  destruct (canPlayerDrop_cases aiPlayer (isFirstTurn_for game aiPlayer))
    as (Hcases & _ & Hhigh).
  split_and!.
  - unfold shouldDrop, validateDrop. intros Hdrop.
    destruct (Z.ltb_spec 0 (p_penalties aiPlayer)) as [|Hpenalties]; [discriminate Hdrop|].
    cbv zeta in *.
    destruct (canPlayerDrop aiPlayer (isFirstTurn_for game aiPlayer)) eqn:Hcan;
      cbn [negb] in *; [|discriminate Hdrop].
    split; [reflexivity|]. split; [exact Hpenalties|].
    destruct (proj1 Hcases eq_refl) as (_ & [?|[[_ ?]|?]]); lia.
  - intros Hpenalties Hscore. unfold shouldDrop.
    destruct (Z.ltb_spec 0 (p_penalties aiPlayer)) as [|_]; [lia|].
    cbv zeta.
    assert (canPlayerDrop aiPlayer (isFirstTurn_for game aiPlayer) = true) as ->.
    { apply Hcases. split; [lia|]. right. right. lia. }
    cbn [negb]. unfold makeDropDecision.
    destruct (_ <=? 11); [reflexivity|].
    destruct (_ && _); [reflexivity|].
    destruct (Z.eqb_spec (calculateHandScore (p_hand aiPlayer)) 50); [reflexivity|].
    cbv zeta.
    destruct (Z.leb_spec (calculateHandScore (p_hand aiPlayer)) 20); [reflexivity|lia].
  - intros Hrefused. unfold shouldDrop.
    destruct (Z.ltb_spec 0 (p_penalties aiPlayer)) as [|Hpenalties]; [reflexivity|].
    cbv zeta. destruct Hrefused as [|Hscore]; [lia|].
    by rewrite (Hhigh Hscore).
Qed.

(** * Further properties of the end of a game *)

Lemma played_fields (stake : Z) (k : nat) (user : User) :
  let user' := Nat.iter k (user_played stake) user in
  u_username user' = u_username user ∧ u_balance user' = u_balance user
  ∧ u_totalWinnings user' = u_totalWinnings user ∧ u_gamesWon user' = u_gamesWon user
  ∧ u_gamesPlayed user' = u_gamesPlayed user + Z.of_nat k
  ∧ u_totalWagered user' = u_totalWagered user + Z.of_nat k * stake.
Proof.
  cbv zeta. induction k as [|k IH].
  - simpl. split_and!; try done; lia.
  - destruct IH as (Hname & Hbalance & Hwinnings & Hwon & Hplayed & Hwagered).
    rewrite Nat.iter_succ. set (user' := Nat.iter k (user_played stake) user) in *.
    unfold user_played. simpl. split_and!; try done; lia.
Qed.

Lemma record_played_users (stake : Z) (players : list Player) (w : World) :
  ∃ w', forEachM (λ player,
                    if negb (is_ai_id (p_id player))
                    then update_user (p_id player) (user_played stake)
                    else mret ()) players w = (Ok (), w')
        ∧ w_games w' = w_games w ∧ w_tables w' = w_tables w
        ∧ ∀ id, w_users w' !! id
                = Nat.iter (seats_played id players) (user_played stake) <$> w_users w !! id.
Proof.
  revert w. induction players as [|p ps IH]; intros w.
  { exists w. split_and!; try done. intros id. cbn. by destruct (w_users w !! id). }
  cbn [forEachM]. unfold mbind, M_bind, seats_played.
  destruct (negb (is_ai_id (p_id p))) eqn:Hhuman.
  - rewrite update_user_run. cbv beta iota.
    destruct (IH (set_users (alter (user_played stake) (p_id p) (w_users w)) w))
      as (w' & -> & Hgames & Htables & Husers).
    exists w'. split_and!; try done.
    intros id. rewrite Husers. cbn [w_users set_users].
    rewrite filter_cons, Hhuman. cbn [andb]. unfold seats_played.
    destruct (String.eqb_spec (p_id p) id) as [<-|Hne].
    + rewrite decide_True by done. rewrite lookup_alter_eq. cbn [length].
      destruct (w_users w !! p_id p) as [user|]; [|done]. cbn. f_equal.
      exact (eq_sym (Nat.iter_succ_r _ _ _)).
    + destruct (decide _) as [Habs|_]; [destruct Habs|]. by rewrite lookup_alter_ne.
  - rewrite mret_run. cbv beta iota.
    destruct (IH w) as (w' & -> & Hgames & Htables & Husers).
    exists w'. split_and!; try done.
    intros id. rewrite Husers. rewrite filter_cons, Hhuman. cbn [andb].
    by destruct (decide _) as [Habs|_]; [destruct Habs|].
Qed.

(** X27: the ledger of [endGame].  It always completes and returns the game
    ended, with the winner and the multiplier it was given; it stores no
    game and creates no user.  A user is credited the pot times the
    multiplier, in the balance and in the total winnings, and one game won,
    exactly when the user is the winner and the id does not start with
    [ai-]; and is counted one game played, and the stake wagered, for each
    seat of the game with the id of the user, if that id does not start with
    [ai-].  The first table whose amount is the stake of the game is
    released, and no other table changes. *)
Theorem endGame_ledger (game : Game) (winnerId : string) (multiplier : Z) (w : World) :
  ∃ w',
    endGame game winnerId multiplier w = (Ok (set_ended winnerId multiplier game), w')
    ∧ w_games w' = w_games w
    ∧ (∀ id, w_users w !! id = None → w_users w' !! id = None)
    ∧ (∀ id user,
         w_users w !! id = Some user →
         ∃ user',
           let winnings :=
             if negb (is_ai_id winnerId) && bool_decide (id = winnerId)
             then g_pot game * multiplier else 0 in
           let won :=
             if negb (is_ai_id winnerId) && bool_decide (id = winnerId) then 1 else 0 in
           let seats := Z.of_nat (seats_played id (g_players game)) in
           w_users w' !! id = Some user'
           ∧ u_username user' = u_username user
           ∧ u_balance user' = u_balance user + winnings
           ∧ u_totalWinnings user' = u_totalWinnings user + winnings
           ∧ u_gamesWon user' = u_gamesWon user + won
           ∧ u_gamesPlayed user' = u_gamesPlayed user + seats
           ∧ u_totalWagered user' = u_totalWagered user + seats * g_stake game)
    ∧ w_tables w'
      = match findIndex (λ table, t_amount table =? g_stake game) (w_tables w) with
        | Some i => alter (table_released (g_id game)) i (w_tables w)
        | None => w_tables w
        end.
Proof.
  unfold endGame. unfold mbind at 1, M_bind at 1.
  set (w1 := if negb (is_ai_id winnerId)
             then set_users (alter (user_won (g_pot game * multiplier)) winnerId (w_users w)) w
             else w).
  assert ((if negb (is_ai_id winnerId)
           then update_user winnerId
                  (user_won (g_pot (set_ended winnerId multiplier game) * multiplier))
           else mret ()) w = (Ok (), w1)) as ->.
  { subst w1. by destruct (negb (is_ai_id winnerId)). }
  unfold mbind at 1, M_bind at 1.
  destruct (record_played_users (g_stake (set_ended winnerId multiplier game))
              (g_players (set_ended winnerId multiplier game)) w1)
    as (w2 & -> & Hgames2 & Htables2 & Husers2).
  unfold mbind at 1, M_bind at 1. unfold update_table at 1.
  change (g_stake (set_ended winnerId multiplier game)) with (g_stake game) in *.
  change (g_players (set_ended winnerId multiplier game)) with (g_players game) in *.
  change (g_id (set_ended winnerId multiplier game)) with (g_id game) in *.
  assert (w_games w1 = w_games w ∧ w_tables w1 = w_tables w) as [Hgames1 Htables1].
  { subst w1. by destruct (negb (is_ai_id winnerId)). }
  assert (∀ id, w_users w1 !! id
                = (if negb (is_ai_id winnerId) && bool_decide (id = winnerId)
                   then user_won (g_pot game * multiplier) else λ user, user)
                  <$> w_users w !! id) as Husers1.
  { intros id. subst w1. destruct (negb (is_ai_id winnerId)); cbn [andb].
    - cbn [w_users set_users]. case_bool_decide as Hid.
      + subst id. by rewrite lookup_alter_eq.
      + rewrite lookup_alter_ne by done. by destruct (w_users w !! id).
    - by destruct (w_users w !! id). }
  set (w3 := match findIndex (λ table, t_amount table =? g_stake game) (w_tables w2) with
             | Some i => set_tables (alter (table_released (g_id game)) i (w_tables w2)) w2
             | None => w2
             end).
  exists w3.
  assert (w_games w3 = w_games w2 ∧ w_users w3 = w_users w2
          ∧ w_tables w3
            = match findIndex (λ table, t_amount table =? g_stake game) (w_tables w2) with
              | Some i => alter (table_released (g_id game)) i (w_tables w2)
              | None => w_tables w2
              end) as (Hgames3 & Husers3 & Htables3).
  { subst w3. by destruct (findIndex _ (w_tables w2)). }
  split.
  { subst w3. by destruct (findIndex _ (w_tables w2)). }
  split; [by rewrite Hgames3, Hgames2|].
  split.
  { intros id Hnone. by rewrite Husers3, Husers2, Husers1, Hnone. }
  split; [|by rewrite Htables3, Htables2, Htables1].
  intros id user Huser.
  rewrite Husers3, Husers2, Husers1, Huser. cbn [fmap option_fmap option_map].
  eexists. split; [reflexivity|].
  destruct (played_fields (g_stake game) (seats_played id (g_players game))
              ((if negb (is_ai_id winnerId) && bool_decide (id = winnerId)
                then user_won (g_pot game * multiplier) else λ user, user) user))
    as (-> & -> & -> & -> & -> & ->).
  destruct (negb (is_ai_id winnerId) && bool_decide (id = winnerId));
    cbn [user_won u_username u_balance u_totalWinnings u_gamesWon u_gamesPlayed
         u_totalWagered]; split_and!; try done; lia.
Qed.

(** * Further properties of the view of a player *)

(** X28: what the view of a player keeps.  [sanitizeGameForPlayer] masks
    hands and nothing else: the deck and the discard pile are in the view
    card for card and in their order, and every seat keeps its id, its
    stored score, its flags, its penalties and the ids of its cards.  So in
    the view of a game reached from a new game, the score shown at a seat is
    the value of the hand that seat really holds, masked or not.  Masking a
    view again for the same player changes nothing. *)
Theorem sanitized_view_keeps (game : Game) (playerId : string) :
  let view := sanitizeGameForPlayer game playerId in
  g_deck view = g_deck game ∧ g_discardPile view = g_discardPile game
  ∧ map (λ p, (p_id p, p_isAI p, p_score p, p_isDropped p, p_penalties p,
               map c_id (p_hand p))) (g_players view)
    = map (λ p, (p_id p, p_isAI p, p_score p, p_isDropped p, p_penalties p,
                 map c_id (p_hand p))) (g_players game)
  ∧ (reachable game →
     Forall2 (λ shown real, p_score shown = calculateHandScore (p_hand real))
             (g_players view) (g_players game))
  ∧ sanitizeGameForPlayer view playerId = view.
Proof.
  cbv zeta. unfold sanitizeGameForPlayer.
  split; [done|]. split; [done|]. split; [|split].
  - cbn [g_players set_players]. rewrite map_map. apply map_ext. intros p.
    destruct (_ && _); [|done].
    destruct p. cbn. by rewrite map_map.
  - intros Hreachable. destruct (reachable_seated game Hreachable) as (_ & Hseats & _).
    cbn [g_players set_players]. apply Forall2_fmap_l, Forall_Forall2_diag.
    eapply Forall_impl; [exact Hseats|].
    intros p (Hscore & _). cbn. by destruct (_ && _); destruct p.
  - destruct game. unfold set_players. simpl. f_equal.
    rewrite map_map. apply map_ext. intros p.
    destruct (negb (p_id p =? playerId)%string && negb (p_isDropped p)) eqn:Hmask;
      [|by rewrite Hmask].
    destruct p. simpl in *. rewrite Hmask. unfold set_hand. simpl. f_equal.
    rewrite map_map. by apply map_ext.
Qed.

(** * Further properties of the draw of a computer player *)

Section combinations.
Local Open Scope nat_scope.
Context {A : Type}.

Lemma getCombinations_unfold (arr : list A) (k : nat) :
  getCombinations arr (S (S k))
  = if length arr <? S (S k) then []
    else concat (map (λ i, match arr !! i with
                           | Some x => map (cons x) (getCombinations (drop (S i) arr) (S k))
                           | None => []
                           end)
                     (seq 0 (length arr - S (S k) + 1))).
Proof. reflexivity. Qed.

Lemma getCombinations_short (arr : list A) (k : nat) :
  length arr < S k → getCombinations arr (S k) = [].
Proof.
  intros Hshort. destruct k as [|k].
  - destruct arr; [done|simpl in Hshort; lia].
  - rewrite getCombinations_unfold.
    by destruct (Nat.ltb_spec (length arr) (S (S k))); [|lia].
Qed.

(** The combinations of [a :: arr] are those that start at [a] and those of
    [arr]. *)
Lemma getCombinations_cons (a : A) (arr : list A) (k : nat) :
  getCombinations (a :: arr) (S (S k))
  = map (cons a) (getCombinations arr (S k)) ++ getCombinations arr (S (S k)).
Proof.
  destruct (decide (length arr < S k)) as [Hshort|Hlong].
  { rewrite (getCombinations_short (a :: arr)) by (simpl; lia).
    rewrite (getCombinations_short arr k) by done.
    by rewrite (getCombinations_short arr (S k)) by lia. }
  rewrite (getCombinations_unfold (a :: arr)).
  destruct (Nat.ltb_spec (length (a :: arr)) (S (S k))) as [Hlt|_];
    [simpl in Hlt; lia|].
  replace (length (a :: arr) - S (S k) + 1) with (S (length arr - S k))
    by (simpl; lia).
  rewrite <- cons_seq, <- seq_shift. cbn [map concat lookup list_lookup drop].
  f_equal. rewrite map_map.
  destruct (decide (length arr < S (S k))) as [Hexact|Hmore].
  { rewrite (getCombinations_short arr (S k)) by done.
    by replace (length arr - S k) with 0 by lia. }
  rewrite (getCombinations_unfold arr).
  destruct (Nat.ltb_spec (length arr) (S (S k))) as [Hlt|_]; [lia|].
  by replace (length arr - S (S k) + 1) with (length arr - S k) by lia.
Qed.

(** The combinations of [arr ++ [x]] are those of [arr] and those of [arr]
    with one element less, followed by [x]. *)
Lemma getCombinations_snoc (arr : list A) (x : A) (k : nat) :
  getCombinations (arr ++ [x]) (S (S k))
  ≡ₚ getCombinations arr (S (S k)) ++ map (λ combo, combo ++ [x]) (getCombinations arr (S k)).
Proof.
  revert k. induction arr as [|a arr IH]; intros k.
  { rewrite (getCombinations_short ([] ++ [x])) by (simpl; lia).
    rewrite (getCombinations_short [] (S k)) by (simpl; lia).
    by rewrite (getCombinations_short [] k) by (simpl; lia). }
  change ((a :: arr) ++ [x]) with (a :: (arr ++ [x])).
  rewrite !getCombinations_cons, (IH k).
  destruct k as [|k].
  - change (getCombinations (arr ++ [x]) 1) with (map (λ item, [item]) (arr ++ [x])).
    change (getCombinations (a :: arr) 1) with ([a] :: map (λ item, [item]) arr).
    change (getCombinations arr 1) with (map (λ item, [item]) arr).
    rewrite !map_app, !map_map. cbn [map app]. rewrite !map_map. cbn [app].
    solve_Permutation.
  - rewrite (Permutation_map (cons a) (IH k)).
    rewrite (getCombinations_cons a arr k).
    rewrite !map_app, !map_map. cbn [app].
    solve_Permutation.
Qed.

End combinations.

Lemma concat_length_le {A B} (F G : A → list B) (l : list A) :
  (∀ x, x ∈ l → (length (F x) ≤ length (G x))%nat) →
  (length (concat (map F l)) ≤ length (concat (map G l)))%nat.
Proof.
  induction l as [|x l IH]; intros Hle; [done|].
  cbn [map concat]. rewrite !length_app.
  pose proof (Hle x (list_elem_of_here _ _)).
  assert (length (concat (map F l)) ≤ length (concat (map G l)))%nat.
  { apply IH. intros y Hy. apply Hle. by right. }
  lia.
Qed.

(** Two cards of the hand, in the order of the hand, that make a spread with
    [card] are what [wouldCompleteSpread] looks for. *)
Lemma wouldCompleteSpread_pair (hand : list Card) (card : Card) :
  wouldCompleteSpread hand card = true
  ↔ ∃ ci cj, [ci; cj] `sublist_of` hand ∧ isValidSpread [ci; cj; card] = true.
Proof.
  unfold wouldCompleteSpread. rewrite existsb_exists. split.
  - intros (i & _ & Hi).
    destruct (hand !! i) as [ci|] eqn:Hci; [|done].
    apply existsb_exists in Hi as (cj & Hcj & Hvalid).
    exists ci, cj. split; [|done].
    rewrite <- (take_drop_middle _ _ _ Hci). apply sublist_inserts_l.
    constructor. apply list_elem_of_In, list_elem_of_split in Hcj as (l1 & l2 & ->).
    apply sublist_inserts_l. constructor. apply sublist_nil_l.
  - intros (ci & cj & Hsub & Hvalid).
    apply sublist_cons_l in Hsub as (k1 & k2 & -> & Hsub).
    apply sublist_cons_l in Hsub as (k3 & k4 & -> & _).
    exists (length k1). split.
    + apply in_seq. rewrite !length_app. simpl. rewrite length_app. simpl. lia.
    + rewrite list_lookup_middle by done. apply existsb_exists. exists cj.
      split; [|done].
      change (k1 ++ ci :: k3 ++ cj :: k4) with (k1 ++ [ci] ++ k3 ++ cj :: k4).
      rewrite (app_assoc k1 [ci]).
      replace (S (length k1)) with (length (k1 ++ [ci]))
        by (rewrite length_app; simpl; lia).
      rewrite drop_app_length. apply in_or_app. right. by left.
Qed.

(** A card that makes a spread with two cards of the hand adds a playable
    spread to the hand. *)
Lemma completing_card_adds_spread (hand : list Card) (ci cj card : Card) :
  [ci; cj] `sublist_of` hand → isValidSpread [ci; cj; card] = true →
  (length (findPlayableSpreads hand) < length (findPlayableSpreads (hand ++ [card])))%nat.
Proof.
  intros Hsub Hvalid. pose proof (sublist_length _ _ Hsub) as Hlen. simpl in Hlen.
  unfold findPlayableSpreads.
  match goal with
  | |- context [omap ?f (getCombinations hand _)] => set (playable := f)
  end.
  assert (∀ k, length (omap playable (getCombinations (hand ++ [card]) (S (S k))))
               = (length (omap playable (getCombinations hand (S (S k))))
                  + length (omap playable (map (λ combo, combo ++ [card])
                                              (getCombinations hand (S k)))))%nat)
    as Hsize.
  { intros k. rewrite (getCombinations_snoc hand card k), omap_app. apply length_app. }
  assert (1 ≤ length (omap playable (map (λ combo, combo ++ [card])
                                       (getCombinations hand 2))))%nat as Hnew.
  { assert (∃ spread, spread ∈ omap playable (map (λ combo, combo ++ [card])
                                                (getCombinations hand 2)))
      as [spread Hspread].
    { eexists. apply list_elem_of_omap. exists [ci; cj; card]. split.
      - apply elem_of_map_iff. exists [ci; cj]. split; [done|].
        apply getCombinations_sublists; [lia|]. by split.
      - unfold playable. rewrite Hvalid. reflexivity. }
    destruct (omap playable _); [by apply elem_of_nil in Hspread|simpl; lia]. }
  rewrite length_app. cbn [length].
  replace (length hand + 1 - 2)%nat with (S (length hand - 2)) by lia.
  destruct (length hand - 2)%nat as [|m] eqn:Hm.
  - cbn [seq map concat]. rewrite app_nil_r, (Hsize 1%nat). cbn [length]. lia.
  - change (seq 3 (S (S m))) with (3%nat :: seq 4 (S m)).
    change (seq 3 (S m)) with (3%nat :: seq 4 m).
    rewrite (seq_S m 4). cbn [map concat].
    rewrite map_app, concat_app, !length_app, (Hsize 1%nat).
    assert (length (concat (map (λ size, omap playable (getCombinations hand size))
                                (seq 4 m)))
            ≤ length (concat (map (λ size, omap playable
                                             (getCombinations (hand ++ [card]) size))
                                  (seq 4 m))))%nat.
    { apply concat_length_le. intros size Hin%elem_of_seq.
      destruct size as [|[|k]]; [lia|lia|]. rewrite (Hsize k). lia. }
    lia.
Qed.

(** X29: when a computer player takes the top of the discard pile.  It
    draws from the deck when the pile is empty.  At every difficulty it takes
    the top of the pile when that card makes a valid spread with two cards of
    its hand, and it draws from the deck when [wouldImproveSpread] finds that
    the card improves nothing (no more playable spreads with it and none of
    more than three cards). *)
Theorem decideDrawSource_spec (game : Game) (aiPlayer : Player) (difficulty : Difficulty) :
  match g_discardPile game with
  | [] => decideDrawSource game aiPlayer difficulty = DrawDeck
  | topDiscard :: _ =>
      (∀ ci cj,
         [ci; cj] `sublist_of` p_hand aiPlayer →
         isValidSpread [ci; cj; topDiscard] = true →
         decideDrawSource game aiPlayer difficulty = DrawDiscard)
      ∧ (wouldImproveSpread (p_hand aiPlayer) topDiscard = false →
         decideDrawSource game aiPlayer difficulty = DrawDeck)
  end.
Proof.
  unfold decideDrawSource.
  destruct (g_discardPile game) as [|topDiscard pile]; [done|].
  assert (wouldCompleteSpread (p_hand aiPlayer) topDiscard = true →
          wouldImproveSpread (p_hand aiPlayer) topDiscard = true) as Himproves.
  { intros (ci & cj & Hsub & Hvalid)%wouldCompleteSpread_pair.
    unfold wouldImproveSpread. cbv zeta.
    apply orb_true_iff. left. apply Nat.ltb_lt.
    by eapply completing_card_adds_spread. }
  cbv zeta. unfold analyzeDiscardValue, wouldHelpOpponents. cbv zeta. split.
  - intros ci cj Hsub Hvalid.
    assert (wouldCompleteSpread (p_hand aiPlayer) topDiscard = true) as Hcompletes.
    { apply wouldCompleteSpread_pair. by exists ci, cj. }
    rewrite Hcompletes, (Himproves Hcompletes).
    by destruct (c_value topDiscard <=? 3), (10 <=? c_value topDiscard), difficulty.
  - intros Hnothing.
    destruct (wouldCompleteSpread (p_hand aiPlayer) topDiscard) eqn:Hcompletes.
    { rewrite (Himproves eq_refl) in Hnothing. discriminate Hnothing. }
    rewrite Hnothing.
    by destruct (c_value topDiscard <=? 3), (10 <=? c_value topDiscard), difficulty.
Qed.

(** * Further properties of the controller *)

(** X30: nobody joins a game.  [createGame] stores its game already in play,
    and no draw, discard, drop or reshuffle makes a game wait again; so when
    the stored games are games reached from a new game, [joinGame] answers
    404 for an unknown game and 400, the game has already started, for every
    other, whoever asks, and changes nothing. *)
Theorem joinGame_never_joins (gameId userId : string) (w : World) :
  (∀ id game, w_games w !! id = Some game → reachable game) →
  joinGame gameId userId w
  = match w_games w !! gameId with
    | None => (ErrorResponse 404 "Game not found", w)
    | Some _ => (ErrorResponse 400 "Game has already started", w)
    end.
Proof.
  intros Hstored. unfold joinGame.
  destruct (w_games w !! gameId) as [game|] eqn:Hgame; [|done].
  destruct (reachable_seated game (Hstored _ _ Hgame)) as (_ & _ & _ & Hturn).
  unfold turn_invariant in Hturn.
  case_bool_decide as Hwaiting; [|done].
  by rewrite Hwaiting in Hturn.
Qed.

(** The game dealt to alice cannot be joined by bob. *)
Lemma joinGame_never_joins_witness :
  joinGame "2" "bob" (sample_world dealt_game)
  = (ErrorResponse 400 "Game has already started", sample_world dealt_game).
Proof.
  rewrite joinGame_never_joins.
  - reflexivity.
  - intros id game Hstored. unfold sample_world in Hstored. cbn [w_games] in Hstored.
    apply lookup_singleton_Some in Hstored as [_ <-].
    eapply (reachable_created "u1" alice 5 (sample_world opening_game)).
    vm_compute. reflexivity.
Defined.
